(** * Pareto dominance ranking: optuna/study/_multi_objective.py

    A shallow embedding of the module and the properties of its ranking
    engine.  Python floats are modelled by their value (a rational, an
    infinity or NaN) with the IEEE comparison rules; numpy arrays are lists;
    a call either returns, raises, or runs out of the fuel that bounds the
    iterations of the ranking loop. *)

From Stdlib Require Import List ZArith QArith Bool Lia Lqa String Sorted Permutation.
Import ListNotations.
Local Open Scope Z_scope.

(* ================================================================== *)
(** ** Floats *)

Module Float.

(** A Python float up to [==]: a finite value, an infinity or NaN. *)
Inductive float : Type :=
| NaN
| NInf
| Fin (q : Q)
| PInf.

(** IEEE comparison: no result as soon as one side is NaN. *)
Definition compare (x y : float) : option comparison :=
  match x, y with
  | NaN, _ | _, NaN => None
  | NInf, NInf => Some Eq
  | NInf, _ => Some Lt
  | _, NInf => Some Gt
  | PInf, PInf => Some Eq
  | PInf, _ => Some Gt
  | _, PInf => Some Lt
  | Fin p, Fin q => Some (p ?= q)%Q
  end.

Definition eqb (x y : float) : bool :=
  match compare x y with Some Eq => true | _ => false end.

Definition ltb (x y : float) : bool :=
  match compare x y with Some Lt => true | _ => false end.

Definition leb (x y : float) : bool :=
  match compare x y with Some Lt | Some Eq => true | _ => false end.

(** Unary minus. *)
Definition neg (x : float) : float :=
  match x with
  | NaN => NaN
  | NInf => PInf
  | Fin q => Fin (- q)%Q
  | PInf => NInf
  end.

Definition isnan (x : float) : bool :=
  match x with NaN => true | _ => false end.

(** [np.minimum]: a NaN operand is returned as it is. *)
Definition minimum (x y : float) : float :=
  if isnan x then x else if isnan y then y else if leb x y then x else y.

Definition of_Z (z : Z) : float := Fin (inject_Z z).

End Float.

Import Float.

Abbreviation row := (list float).

(* ================================================================== *)
(** ** Outcomes of a call *)

Inductive exn : Type :=
| ValueError
| IndexError
| TypeError
| AssertionError.

(** A call returns a value, raises, or is still running when the fuel for
    the ranking loop is used up. *)
Inductive outcome (A : Type) : Type :=
| Ret (a : A)
| Raise (e : exn)
| OutOfFuel.

Arguments Ret {A} a.
Arguments Raise {A} e.
Arguments OutOfFuel {A}.

Definition bind {A B : Type} (c : outcome A) (k : A -> outcome B) : outcome B :=
  match c with
  | Ret a => k a
  | Raise e => Raise e
  | OutOfFuel => OutOfFuel
  end.

Notation "x <- c ;; k" := (bind c (fun x => k))
  (at level 61, c at next level, right associativity).

Fixpoint mapM {A B : Type} (f : A -> outcome B) (l : list A) : outcome (list B) :=
  match l with
  | [] => Ret []
  | x :: l' => y <- f x ;; ys <- mapM f l' ;; Ret (y :: ys)
  end.

(* ================================================================== *)
(** ** The numpy operations the module uses *)

Module np.

Section Generic.
Context {A : Type}.

(** [a[mask]] for a boolean mask; the masks of the module are computed
    from arrays of the length of [a]. *)
Fixpoint select (mask : list bool) (a : list A) : list A :=
  match mask, a with
  | m :: mask', x :: a' =>
      if m then x :: select mask' a' else select mask' a'
  | _, _ => []
  end.

(** [a[mask] = vals]: the selected positions receive [vals] in order. *)
Fixpoint put_mask (a : list A) (mask : list bool) (vals : list A) : list A :=
  match a, mask with
  | x :: a', m :: mask' =>
      if m
      then match vals with
           | v :: vals' => v :: put_mask a' mask' vals'
           | [] => x :: put_mask a' mask' []
           end
      else x :: put_mask a' mask' vals
  | _, _ => a
  end.

(** [a[i] = v] for one position; the positions written by the module come
    from [arange] over the length of [a]. *)
Fixpoint set_at (a : list A) (i : nat) (v : A) : list A :=
  match a, i with
  | [], _ => []
  | _ :: a', O => v :: a'
  | x :: a', S i' => x :: set_at a' i' v
  end.

(** [a[idx] = v] for an index array. *)
Definition scatter (a : list A) (idx : list nat) (v : A) : list A :=
  fold_left (fun acc i => set_at acc i v) idx a.

(** [a[idx]] for an index array; [d] is never read, the index arrays
    of the module come from [arange] and [unique]. *)
Definition take (d : A) (a : list A) (idx : list nat) : list A :=
  map (fun i => nth i a d) idx.

(** [ufunc.accumulate]. *)
Fixpoint accumulate_from (f : A -> A -> A) (acc : A) (l : list A) : list A :=
  match l with
  | [] => []
  | x :: l' => f acc x :: accumulate_from f (f acc x) l'
  end.

Definition accumulate (f : A -> A -> A) (l : list A) : list A :=
  match l with
  | [] => []
  | x :: l' => x :: accumulate_from f x l'
  end.

(** [np.unique(a, return_inverse=True)] for a comparison [ltb] and an
    equality [eqb]: the sorted distinct elements, and for every
    element of [a] its position among them.  The distinct elements are
    collected by insertion into a sorted array; this is numpy's result
    when [ltb] and [eqb] order the elements totally, that is on arrays
    without NaN. *)
Variables (ltb eqb : A -> A -> bool).

Fixpoint insert_unique (x : A) (l : list A) : list A :=
  match l with
  | [] => [x]
  | y :: l' =>
      if ltb x y then x :: y :: l'
      else if eqb x y then y :: l'
      else y :: insert_unique x l'
  end.

Definition sorted_unique (a : list A) : list A :=
  fold_right insert_unique [] a.

Fixpoint index_of (x : A) (u : list A) : nat :=
  match u with
  | [] => O
  | y :: u' => if eqb x y then O else S (index_of x u')
  end.

Definition unique (a : list A) : list A * list nat :=
  let u := sorted_unique a in
  (u, map (fun x => index_of x u) a).

End Generic.

Fixpoint map2 {A B C : Type} (f : A -> B -> C) (a : list A) (b : list B) : list C :=
  match a, b with
  | x :: a', y :: b' => f x y :: map2 f a' b'
  | _, _ => []
  end.

Definition arange (n : nat) : list nat := seq 0 n.

Definition count_nonzero (mask : list bool) : Z :=
  Z.of_nat (List.length (List.filter (fun b => b) mask)).

(** [np.max(a, initial=i)]. *)
Definition max_initial (a : list Z) (i : Z) : Z := fold_right Z.max i a.

(** The truth value of a boolean array, as [if a:] takes it: the element
    of a one-element array, an error for two elements or more.  For an
    empty array the answer differs between numpy releases ([False] with
    a deprecation warning, later an error); it is the parameter
    [empty_truth]. *)
Definition truth (empty_truth : outcome bool) (a : list bool) : outcome bool :=
  match a with
  | [] => empty_truth
  | [b] => Ret b
  | _ :: _ :: _ => Raise ValueError
  end.

End np.

(** A two-dimensional float array of shape [(length rows, n_objectives)]. *)
Record ndarray : Type := mk_ndarray {
  n_objectives : nat;
  rows : list row
}.

(** Lexicographic comparison of rows, the order of [np.unique(axis=0)]. *)
Fixpoint row_ltb (a b : row) : bool :=
  match a, b with
  | x :: a', y :: b' =>
      if Float.ltb x y then true
      else if Float.eqb x y then row_ltb a' b'
      else false
  | _, _ => false
  end.

Fixpoint row_eqb (a b : row) : bool :=
  match a, b with
  | [], [] => true
  | x :: a', y :: b' => Float.eqb x y && row_eqb a' b'
  | _, _ => false
  end.

(** Python's [n_below or default]. *)
Definition py_or (n_below : option Z) (default : Z) : Z :=
  match n_below with
  | None => default
  | Some k => if k =? 0 then default else k
  end.

(* ================================================================== *)
(** ** Trials and directions *)

(** Modelled from the spec: the enumeration [TrialState] is imported from
    [optuna.trial]; the spec lists its members. *)
Inductive TrialState : Type :=
| PENDING
| RUNNING
| COMPLETE
| FAILED
| PRUNED.

(** Modelled from the spec: the enumeration [StudyDirection] is imported
    from [optuna.study._study_direction]; the spec lists its members. *)
Inductive StudyDirection : Type :=
| MINIMIZE
| MAXIMIZE.

Definition TrialState_eqb (a b : TrialState) : bool :=
  match a, b with
  | PENDING, PENDING | RUNNING, RUNNING | COMPLETE, COMPLETE
  | FAILED, FAILED | PRUNED, PRUNED => true
  | _, _ => false
  end.

(** Modelled from the spec: [FrozenTrial] is imported from [optuna.trial];
    the fields are the ones this module reads, [number] being the arrival
    index. *)
Record FrozenTrial : Type := mk_trial {
  number : Z;
  state : TrialState;
  values : option (list (option float));
  system_attrs : list (string * list float)
}.

Definition _CONSTRAINTS_KEY : string := "constraints".

(** [dict.get]. *)
Fixpoint dict_get (d : list (string * list float)) (k : string) : option (list float) :=
  match d with
  | [] => None
  | (k', v) :: d' => if String.eqb k k' then Some v else dict_get d' k
  end.

(* ================================================================== *)
(** ** The module *)

Definition _normalize_value (value : option float) (direction : StudyDirection) : float :=
  let value := match value with None => PInf | Some v => v end in
  match direction with
  | MAXIMIZE => Float.neg value
  | MINIMIZE => value
  end.

Definition _dominates (trial0 trial1 : FrozenTrial) (directions : list StudyDirection)
  : outcome bool :=
  if negb (TrialState_eqb (state trial0) COMPLETE) then Ret false
  else if negb (TrialState_eqb (state trial1) COMPLETE) then Ret true
  else
    match values trial0, values trial1 with
    | None, _ | _, None => Raise AssertionError
    | Some values0, Some values1 =>
        if negb (List.length values0 =? List.length values1)%nat then Raise ValueError
        else if negb (List.length values0 =? List.length directions)%nat then Raise ValueError
        else
          let normalized_values0 :=
            map (fun vd => _normalize_value (fst vd) (snd vd)) (combine values0 directions) in
          let normalized_values1 :=
            map (fun vd => _normalize_value (fst vd) (snd vd)) (combine values1 directions) in
          if row_eqb normalized_values0 normalized_values1 then Ret false
          else Ret (forallb (fun vv => Float.leb (fst vv) (snd vv))
                      (combine normalized_values0 normalized_values1))
    end.

Definition _get_feasible_trials (trials : list FrozenTrial) : list FrozenTrial :=
  List.filter
    (fun trial =>
       match dict_get (system_attrs trial) _CONSTRAINTS_KEY with
       | None => true
       | Some constraints => forallb (fun x => Float.leb x (Fin 0)) constraints
       end)
    trials.

(** [list.sort(key=...)]: a stable sort, here by insertion; it is Python's
    result when [key_ltb] orders the keys totally (no NaN among them). *)
Section StableSort.
Context {K T : Type} (key_ltb : K -> K -> bool).

Fixpoint insert_sorted (x : K * T) (l : list (K * T)) : list (K * T) :=
  match l with
  | [] => [x]
  | y :: l' =>
      if key_ltb (fst x) (fst y) then x :: y :: l'
      else y :: insert_sorted x l'
  end.

Definition sort_by_key (l : list (K * T)) : list (K * T) :=
  fold_left (fun acc x => insert_sorted x acc) l [].
End StableSort.

(** Python's [<] on a pair of floats. *)
Definition pair_ltb (a b : float * float) : bool :=
  if Float.eqb (fst a) (fst b) then Float.ltb (snd a) (snd b)
  else Float.ltb (fst a) (fst b).

(** [seq[i]] on a Python list. *)
Definition getitem {A : Type} (l : list A) (i : nat) : outcome A :=
  match nth_error l i with
  | Some x => Ret x
  | None => Raise IndexError
  end.

Definition sort_key (directions : list StudyDirection) (trial : FrozenTrial)
  : outcome (float * float) :=
  match values trial with
  | None => Raise TypeError
  | Some vs =>
      v0 <- getitem vs 0 ;;
      d0 <- getitem directions 0 ;;
      v1 <- getitem vs 1 ;;
      d1 <- getitem directions 1 ;;
      Ret (_normalize_value v0 d0, _normalize_value v1 d1)
  end.

(** The sweep of [_get_pareto_front_trials_2d] over [trials[1:]]. *)
Fixpoint sweep_2d (directions : list StudyDirection)
    (last_nondominated_trial : FrozenTrial) (pareto_front : list FrozenTrial)
    (rest : list FrozenTrial) : outcome (list FrozenTrial) :=
  match rest with
  | [] => Ret pareto_front
  | trial :: rest' =>
      d <- _dominates last_nondominated_trial trial directions ;;
      if d then sweep_2d directions last_nondominated_trial pareto_front rest'
      else sweep_2d directions trial (pareto_front ++ [trial]) rest'
  end.

Definition _get_pareto_front_trials_2d (trials : list FrozenTrial)
    (directions : list StudyDirection) (consider_constraint : bool)
  : outcome (list FrozenTrial) :=
  let trials := List.filter (fun t => TrialState_eqb (state t) COMPLETE) trials in
  let trials := if consider_constraint then _get_feasible_trials trials else trials in
  match trials with
  | [] => Ret []
  | _ :: _ =>
      keyed <- mapM (fun t => k <- sort_key directions t ;; Ret (k, t)) trials ;;
      match map snd (sort_by_key pair_ltb keyed) with
      | [] => Raise IndexError
      | first :: rest =>
          pareto_front <- sweep_2d directions first [first] rest ;;
          Ret (map snd (sort_by_key Z.ltb (map (fun t => (number t, t)) pareto_front)))
      end
  end.

(** [any(_dominates(other, trial) for other in trials)] with the [break]. *)
Fixpoint dominated_by_any (directions : list StudyDirection)
    (others : list FrozenTrial) (trial : FrozenTrial) : outcome bool :=
  match others with
  | [] => Ret false
  | other :: others' =>
      d <- _dominates other trial directions ;;
      if d then Ret true else dominated_by_any directions others' trial
  end.

Fixpoint front_nd (directions : list StudyDirection)
    (all todo : list FrozenTrial) : outcome (list FrozenTrial) :=
  match todo with
  | [] => Ret []
  | trial :: todo' =>
      dominated <- dominated_by_any directions all trial ;;
      rest <- front_nd directions all todo' ;;
      Ret (if dominated then rest else trial :: rest)
  end.

Definition _get_pareto_front_trials_nd (trials : list FrozenTrial)
    (directions : list StudyDirection) (consider_constraint : bool)
  : outcome (list FrozenTrial) :=
  let trials := List.filter (fun t => TrialState_eqb (state t) COMPLETE) trials in
  let trials := if consider_constraint then _get_feasible_trials trials else trials in
  front_nd directions trials trials.

Definition _get_pareto_front_trials_by_trials (trials : list FrozenTrial)
    (directions : list StudyDirection) (consider_constraint : bool)
  : outcome (list FrozenTrial) :=
  if (List.length directions =? 2)%nat
  then _get_pareto_front_trials_2d trials directions consider_constraint
  else _get_pareto_front_trials_nd trials directions consider_constraint.

(** Modelled from the spec: [optuna.study.Study], of which the module reads
    the trials and the directions. *)
Record Study : Type := mk_study {
  trials : list FrozenTrial;
  directions : list StudyDirection
}.

Definition _get_pareto_front_trials (study : Study) (consider_constraint : bool)
  : outcome (list FrozenTrial) :=
  _get_pareto_front_trials_by_trials (trials study) (directions study) consider_constraint.

(** *** Front detectors *)

(** [np.any(r < top)] for one row [r]. *)
Definition any_lt (top r : row) : bool :=
  existsb (fun xy => Float.ltb (fst xy) (snd xy)) (combine r top).

(** The loop of [_is_pareto_front_nd]; every iteration drops row 0, so
    [fuel] beyond the number of rows is never used up. *)
Fixpoint nd_loop (fuel : nat) (loss_values : list row)
    (nondominated_indices : list nat) (on_front : list bool) : outcome (list bool) :=
  match loss_values with
  | [] => Ret on_front
  | top :: _ =>
      match fuel with
      | O => OutOfFuel
      | S fuel' =>
          let nondominated_and_not_top := map (any_lt top) loss_values in
          let on_front := np.set_at on_front (nth 0 nondominated_indices O) true in
          nd_loop fuel' (np.select nondominated_and_not_top loss_values)
            (np.select nondominated_and_not_top nondominated_indices) on_front
      end
  end.

Definition _is_pareto_front_nd (unique_lexsorted_loss_values : ndarray) : outcome (list bool) :=
  let loss_values := rows unique_lexsorted_loss_values in
  let n_trials := List.length loss_values in
  nd_loop n_trials loss_values (np.arange n_trials) (repeat false n_trials).

Definition _is_pareto_front_2d (unique_lexsorted_loss_values : ndarray) : list bool :=
  let n_trials := List.length (rows unique_lexsorted_loss_values) in
  let value1 := map (fun r => nth 1 r NaN) (rows unique_lexsorted_loss_values) in
  let cummin_value1 := np.accumulate Float.minimum value1 in
  let is_value1_min := np.map2 Float.eqb cummin_value1 value1 in
  let is_value1_new_min :=
    np.map2 Float.ltb (tl cummin_value1) (removelast cummin_value1) in
  let on_front := repeat true n_trials in
  firstn 1 on_front ++ np.map2 andb (tl is_value1_min) is_value1_new_min.

Definition _is_pareto_front (unique_lexsorted_loss_values : ndarray) : outcome (list bool) :=
  match n_objectives unique_lexsorted_loss_values with
  | 1%nat =>
      match rows unique_lexsorted_loss_values with
      | [] => Raise IndexError
      | row0 :: _ =>
          Ret (map (fun r => Float.eqb (nth 0 r NaN) (nth 0 row0 NaN))
                 (rows unique_lexsorted_loss_values))
      end
  | 2%nat => Ret (_is_pareto_front_2d unique_lexsorted_loss_values)
  | _ => _is_pareto_front_nd unique_lexsorted_loss_values
  end.

(** *** Layered rank calculator *)

(** The [while] loop of [_calculate_nondomination_rank]; it returns the
    rank array, the live indices and the rank counter at the exit. *)
Fixpoint rank_loop (fuel : nat) (d n_unique : nat) (n_below : Z)
    (unique_lexsorted_loss_values : list row) (indices : list nat)
    (ranks : list Z) (rank : Z) : outcome (list Z * list nat * Z) :=
  if Z.of_nat n_unique - Z.of_nat (List.length indices) <? n_below then
    match fuel with
    | O => OutOfFuel
    | S fuel' =>
        on_front <- _is_pareto_front (mk_ndarray d unique_lexsorted_loss_values) ;;
        let ranks := np.scatter ranks (np.select on_front indices) rank in
        let indices := np.select (map negb on_front) indices in
        let unique_lexsorted_loss_values :=
          np.select (map negb on_front) unique_lexsorted_loss_values in
        rank_loop fuel' d n_unique n_below unique_lexsorted_loss_values indices
          ranks (rank + 1)
    end
  else Ret (ranks, indices, rank).

Definition non_positive (n_below : option Z) : bool :=
  match n_below with
  | Some k => k <=? 0
  | None => false
  end.

Definition _calculate_nondomination_rank (fuel : nat) (loss_values : ndarray)
    (n_below : option Z) : outcome (list Z) :=
  let len := List.length (rows loss_values) in
  if non_positive n_below then Ret (repeat 0 len)
  else
    let n_below := py_or n_below (Z.of_nat len) in
    let n_below := Z.min n_below (Z.of_nat len) in
    if (n_objectives loss_values =? 1)%nat then
      let '(_, ranks) :=
        np.unique Float.ltb Float.eqb (map (fun r => nth 0 r NaN) (rows loss_values)) in
      Ret (map Z.of_nat ranks)
    else
      let '(unique_lexsorted_loss_values, order_inv) :=
        np.unique row_ltb row_eqb (rows loss_values) in
      let n_unique := List.length unique_lexsorted_loss_values in
      let ranks := repeat 0 n_unique in
      let indices := np.arange n_unique in
      st <- rank_loop fuel (n_objectives loss_values) n_unique n_below
              unique_lexsorted_loss_values indices ranks 0 ;;
      let '(ranks, indices, rank) := st in
      let ranks := np.scatter ranks indices rank in
      Ret (np.take 0 ranks order_inv).

(** *** Constrained rank orchestrator *)

Definition _fast_non_dominated_sort (empty_truth : outcome bool) (fuel : nat)
    (loss_values : ndarray) (penalty : option (list float)) (n_below : option Z)
  : outcome (list Z) :=
  match penalty with
  | None => _calculate_nondomination_rank fuel loss_values n_below
  | Some penalty =>
      let len := List.length (rows loss_values) in
      if negb (List.length penalty =? len)%nat then Raise ValueError
      else
        let d := n_objectives loss_values in
        let nondomination_rank := repeat (-1) len in
        let is_penalty_nan := map Float.isnan penalty in
        let n_below := py_or n_below (Z.of_nat len) in
        (* First, the feasible trials. *)
        let is_feasible :=
          np.map2 andb (map negb is_penalty_nan)
            (map (fun p => Float.leb p (Fin 0)) penalty) in
        feasible_ranks <-
          _calculate_nondomination_rank fuel
            (mk_ndarray d (np.select is_feasible (rows loss_values))) (Some n_below) ;;
        let nondomination_rank :=
          np.put_mask nondomination_rank is_feasible feasible_ranks in
        let n_below := n_below - np.count_nonzero is_feasible in
        (* Second, the infeasible trials. *)
        let top_rank_in_infeasible :=
          np.max_initial (np.select is_feasible nondomination_rank) (-1) + 1 in
        let is_infeasible :=
          np.map2 andb (map negb is_penalty_nan)
            (map (fun p => Float.ltb (Fin 0) p) penalty) in
        let n_infeasible := np.count_nonzero is_infeasible in
        guard <- np.truth empty_truth (map (fun b => 0 <? Z.b2z b) is_infeasible) ;;
        let '(nondomination_rank, n_below) :=
          if guard then
            let '(_, ranks_in_infeas) :=
              np.unique Float.ltb Float.eqb (np.select is_infeasible penalty) in
            (np.put_mask nondomination_rank is_infeasible
               (map (fun r => Z.of_nat r + top_rank_in_infeasible) ranks_in_infeas),
             n_below - n_infeasible)
          else (nondomination_rank, n_below) in
        (* Third, the trials with no penalty information. *)
        let top_rank_in_penalty_nan :=
          np.max_initial (np.select (map negb is_penalty_nan) nondomination_rank) (-1) + 1 in
        ranks_in_penalty_nan <-
          _calculate_nondomination_rank fuel
            (mk_ndarray d (np.select is_penalty_nan (rows loss_values))) (Some n_below) ;;
        Ret (np.put_mask nondomination_rank is_penalty_nan
               (map (fun r => r + top_rank_in_penalty_nan) ranks_in_penalty_nan))
  end.

(* ================================================================== *)
(** ** Notions the properties are stated with *)

(** [a <= b] on every axis. *)
Definition row_leb (a b : row) : bool :=
  forallb (fun vv => Float.leb (fst vv) (snd vv)) (combine a b).

(** Pareto dominance on normalized vectors: at least as good on every
    axis, and not equal. *)
Definition dominates (a b : row) : bool :=
  row_leb a b && negb (row_eqb a b).

(** [v] is dominated by no vector of [U]. *)
Definition nondominated (U : list row) (v : row) : bool :=
  forallb (fun u => negb (dominates u v)) U.

(** The mask of the Pareto front of [U]. *)
Definition front_mask (U : list row) : list bool :=
  map (nondominated U) U.

(** A vector of [d] normalized values: no NaN among them. *)
Definition good (d : nat) (r : row) : Prop :=
  List.length r = d /\ Forall (fun x => Float.isnan x = false) r.

(** Deduplicated and lexicographically ordered. *)
Definition lexsorted_unique (U : list row) : Prop :=
  StronglySorted (fun a b => row_ltb a b = true) U.

(** The number of distinct ranks below [r], and the number of records
    that hold one of them. *)
Definition layers_below (r : Z) (ranks : list Z) : nat :=
  List.length (nodup Z.eq_dec (List.filter (fun x => x <? r) ranks)).

Definition resolved_below (r : Z) (ranks : list Z) : nat :=
  List.length (List.filter (fun x => x <? r) ranks).

(** The feasible records of a penalty array: penalty not NaN and [<= 0]. *)
Definition feasible_mask (penalty : list float) : list bool :=
  np.map2 andb (map negb (map Float.isnan penalty))
    (map (fun p => Float.leb p (Fin 0)) penalty).

(** *** The inputs of the scenarios *)

Definition array_of (d : nat) (l : list (list Z)) : ndarray :=
  mk_ndarray d (map (map Float.of_Z) l).

Definition complete_trial (number : Z) (vs : list Z) : FrozenTrial :=
  mk_trial number COMPLETE (Some (map (fun z => Some (Float.of_Z z)) vs)) [].

(** Scenario A: five complete records, both objectives minimized. *)
Definition scenario_A : list FrozenTrial :=
  [complete_trial 0 [1; 4]; complete_trial 1 [2; 3]; complete_trial 2 [3; 2];
   complete_trial 3 [4; 1]; complete_trial 4 [2; 2]].

(** Scenario B: one objective. *)
Definition scenario_B : ndarray := array_of 1 [[5]; [3]; [3]; [7]].

(** Scenario C: two feasible records and an infeasible one. *)
Definition scenario_C_values : ndarray := array_of 2 [[1; 1]; [2; 2]; [0; 0]].
Definition scenario_C_penalty : list float :=
  [Float.of_Z (-1); Float.of_Z 0; Float.of_Z 3].

(** A chain of three vectors, each dominating the next. *)
Definition chain3 : ndarray := array_of 2 [[0; 0]; [1; 1]; [2; 2]].

(** Two equal vectors of three objectives, both feasible. *)
Definition twins3 : ndarray := array_of 3 [[1; 1; 1]; [1; 1; 1]].

(** Three single-objective values. *)
Definition line3 : ndarray := array_of 1 [[1]; [2]; [3]].

(** Two records, both feasible. *)
Definition pair2 : ndarray := array_of 2 [[1; 1]; [2; 2]].

(** The state of the ranking loop over the distinct sorted rows [U]: the
    live indices [I], the rank array [R] and the rank counter [r].  Every
    resolved row has a rank below [r], and whatever dominates a resolved
    row is resolved with a smaller rank. *)
Record loop_inv (U : list row) (I : list nat) (R : list Z) (r : Z) : Prop := {
  inv_bound : Forall (fun k => (k < List.length U)%nat) I;
  inv_sorted :
    StronglySorted (fun a b => row_ltb a b = true) (map (fun k => nth k U []) I);
  inv_length : List.length R = List.length U;
  inv_resolved :
    forall k, (k < List.length U)%nat -> ~ In k I -> 0 <= nth k R 0 < r;
  inv_closed :
    forall j k, (j < List.length U)%nat -> (k < List.length U)%nat -> ~ In k I ->
      dominates (nth j U []) (nth k U []) = true ->
      ~ In j I /\ nth j R 0 < nth k R 0;
  inv_rank : 0 <= r <= Z.of_nat (List.length U) - Z.of_nat (List.length I)
}.

(** *** Records seen as vectors *)

(** The normalized values of a record, as [_dominates] builds them. *)
Definition normalized (directions : list StudyDirection) (vs : list (option float)) : row :=
  map (fun vd => _normalize_value (fst vd) (snd vd)) (combine vs directions).

Definition trial_row (directions : list StudyDirection) (t : FrozenTrial) : row :=
  match values t with
  | Some vs => normalized directions vs
  | None => []
  end.

(** A record with one value per direction. *)
Definition shaped (directions : list StudyDirection) (t : FrozenTrial) : Prop :=
  exists vs, values t = Some vs /\ List.length vs = List.length directions.

(** The records the front extractors work on. *)
Definition candidates (trials : list FrozenTrial) (consider_constraint : bool)
  : list FrozenTrial :=
  let complete := List.filter (fun t => TrialState_eqb (state t) COMPLETE) trials in
  if consider_constraint then _get_feasible_trials complete else complete.

(** [t] is dominated by no record of [cand]. *)
Definition on_front (directions : list StudyDirection) (cand : list FrozenTrial)
    (t : FrozenTrial) : bool :=
  negb (existsb (fun o => dominates (trial_row directions o) (trial_row directions t)) cand).

(** A second invariant of the ranking loop: once a layer is peeled,
    every live row and every resolved row of positive rank is dominated by
    a resolved row one rank above it. *)
Record layer_inv (U : list row) (I : list nat) (R : list Z) (r : Z) : Prop := {
  lay_start : r = 0 -> List.length I = List.length U;
  lay_live :
    0 < r -> forall k, (k < List.length U)%nat -> In k I ->
      exists j, (j < List.length U)%nat /\ ~ In j I /\
                dominates (nth j U []) (nth k U []) = true /\ nth j R 0 = r - 1;
  lay_resolved :
    forall k, (k < List.length U)%nat -> ~ In k I -> 0 < nth k R 0 ->
      exists j, (j < List.length U)%nat /\ ~ In j I /\
                dominates (nth j U []) (nth k U []) = true /\
                nth j R 0 = nth k R 0 - 1
}.

(** What the ranks of the vectors [a] look like when they are layered: none
    is negative, a dominated vector has a positive rank, and a vector of
    positive rank is dominated by a vector of the rank just below. *)
Definition rank_structure (a : list row) (ranks : list Z) : Prop :=
  List.length ranks = List.length a /\
  (forall i, (i < List.length a)%nat -> 0 <= nth i ranks 0) /\
  (forall i j, (i < List.length a)%nat -> (j < List.length a)%nat ->
     dominates (nth j a []) (nth i a []) = true -> nth i ranks 0 <> 0) /\
  (forall i, (i < List.length a)%nat -> 0 < nth i ranks 0 ->
     exists j, (j < List.length a)%nat /\
               dominates (nth j a []) (nth i a []) = true /\
               nth j ranks 0 = nth i ranks 0 - 1).

(** The budget of the rank calculator once normalized: [n_below or
    len(loss_values)], clipped to [len(loss_values)]. *)
Definition clipped_budget (loss_values : ndarray) (n_below : option Z) : Z :=
  Z.min (py_or n_below (Z.of_nat (List.length (rows loss_values))))
        (Z.of_nat (List.length (rows loss_values))).

(** The number of distinct vectors, [unique_lexsorted_loss_values.shape[0]]. *)
Definition distinct_rows (loss_values : ndarray) : nat :=
  List.length (np.sorted_unique row_ltb row_eqb (rows loss_values)).

(** Two incomparable vectors and a third one, given twice, that both
    dominate. *)
Definition fan4 : ndarray := array_of 2 [[0; 1]; [1; 0]; [1; 1]; [1; 1]].

(** Positions of the input that hold pairwise different vectors. *)
Definition distinct_positions (a : list row) (L : list nat) : Prop :=
  Forall (fun i => (i < List.length a)%nat) L /\
  ForallOrdPairs (fun i j => row_eqb (nth i a []) (nth j a []) = false) L.

(** A COMPLETE record with constraint values. *)
Definition constrained_trial (number : Z) (vs cs : list Z) : FrozenTrial :=
  mk_trial number COMPLETE (Some (map (fun z => Some (Float.of_Z z)) vs))
    [(_CONSTRAINTS_KEY, map Float.of_Z cs)].

(** [loss_values[is_feasible]]: the vectors of the feasible records. *)
Definition feasible_part (loss_values : ndarray) (penalty : list float) : ndarray :=
  mk_ndarray (n_objectives loss_values)
    (np.select (feasible_mask penalty) (rows loss_values)).

(* ================================================================== *)
(** ** The order on floats *)

Module FloatFacts.

Lemma leb_iff p q : Float.leb (Fin p) (Fin q) = true <-> (p <= q)%Q.
Proof.
  unfold Float.leb; simpl. rewrite Qle_alt.
  destruct (p ?= q)%Q; split; intros; congruence.
Qed.

Lemma ltb_iff p q : Float.ltb (Fin p) (Fin q) = true <-> (p < q)%Q.
Proof.
  unfold Float.ltb; simpl. rewrite Qlt_alt.
  destruct (p ?= q)%Q; split; intros; congruence.
Qed.

Lemma eqb_iff p q : Float.eqb (Fin p) (Fin q) = true <-> (p == q)%Q.
Proof.
  unfold Float.eqb; simpl. rewrite Qeq_alt.
  destruct (p ?= q)%Q; split; intros; congruence.
Qed.

Lemma leb_trans x y z :
  Float.leb x y = true -> Float.leb y z = true -> Float.leb x z = true.
Proof.
  destruct x, y, z; try (cbn; congruence).
  rewrite !leb_iff. apply Qle_trans.
Qed.

Lemma leb_refl x : Float.isnan x = false -> Float.leb x x = true.
Proof.
  destruct x; cbn; try congruence. intros _.
  apply leb_iff, Qle_refl.
Qed.

Lemma leb_nonnan x y :
  Float.leb x y = true -> Float.isnan x = false /\ Float.isnan y = false.
Proof. destruct x, y; cbn; intuition congruence. Qed.

(** Without NaN, [<] is the negation of the converse [<=]. *)
Lemma ltb_negb_leb x y :
  Float.isnan x = false -> Float.isnan y = false ->
  Float.ltb x y = negb (Float.leb y x).
Proof.
  destruct x as [| |p|], y as [| |q|]; cbn; try congruence; intros _ _.
  unfold Float.ltb, Float.leb; simpl.
  rewrite <- (Qcompare_antisym p q).
  destruct (p ?= q)%Q; reflexivity.
Qed.

Lemma eqb_leb x y : Float.eqb x y = Float.leb x y && Float.leb y x.
Proof.
  destruct x as [| |p|], y as [| |q|]; cbn; try reflexivity.
  unfold Float.eqb, Float.leb; simpl.
  rewrite <- (Qcompare_antisym p q).
  destruct (p ?= q)%Q; reflexivity.
Qed.

Lemma ltb_leb x y : Float.ltb x y = true -> Float.leb x y = true.
Proof. unfold Float.ltb, Float.leb. destruct (Float.compare x y) as [[]|]; congruence. Qed.

Lemma ltb_irrefl x : Float.ltb x x = false.
Proof.
  destruct x as [| |p|]; cbn; try reflexivity.
  unfold Float.ltb; simpl. now rewrite (proj1 (Qeq_alt p p) (Qeq_refl p)).
Qed.

Lemma eqb_refl x : Float.isnan x = false -> Float.eqb x x = true.
Proof. intros H. rewrite eqb_leb, leb_refl; auto. Qed.

Lemma eqb_sym x y : Float.eqb x y = Float.eqb y x.
Proof. rewrite !eqb_leb. apply andb_comm. Qed.

Lemma eqb_trans x y z :
  Float.eqb x y = true -> Float.eqb y z = true -> Float.eqb x z = true.
Proof.
  rewrite !eqb_leb, !andb_true_iff. intros [A B] [C D]; split;
    eapply leb_trans; eauto.
Qed.

(** Trichotomy of the comparison of two non-NaN floats. *)
Lemma ltb_eqb_cases x y :
  Float.isnan x = false -> Float.isnan y = false ->
  (Float.ltb x y = true /\ Float.eqb x y = false /\ Float.ltb y x = false) \/
  (Float.ltb x y = false /\ Float.eqb x y = true /\ Float.ltb y x = false) \/
  (Float.ltb x y = false /\ Float.eqb x y = false /\ Float.ltb y x = true).
Proof.
  destruct x as [| |p|], y as [| |q|]; cbn; try congruence; intros _ _; auto.
  unfold Float.ltb, Float.eqb; simpl.
  rewrite <- (Qcompare_antisym p q).
  destruct (p ?= q)%Q; cbn; auto.
Qed.

Lemma ltb_trans x y z :
  Float.ltb x y = true -> Float.ltb y z = true -> Float.ltb x z = true.
Proof.
  destruct x, y, z; try (cbn; congruence).
  rewrite !ltb_iff. apply Qlt_trans.
Qed.

Lemma ltb_eqb_trans x y z :
  Float.ltb x y = true -> Float.eqb y z = true -> Float.ltb x z = true.
Proof.
  destruct x, y, z; try (cbn; congruence).
  rewrite !ltb_iff, eqb_iff. intros A B. rewrite <- B. exact A.
Qed.

Lemma eqb_ltb_trans x y z :
  Float.eqb x y = true -> Float.ltb y z = true -> Float.ltb x z = true.
Proof.
  destruct x, y, z; try (cbn; congruence).
  rewrite !ltb_iff, eqb_iff. intros A B. rewrite A. exact B.
Qed.

Lemma ltb_minimum y m m' :
  Float.isnan y = false -> Float.isnan m = false -> Float.isnan m' = false ->
  Float.ltb y (Float.minimum m m') = Float.ltb y m && Float.ltb y m'.
Proof.
  intros Hy Hm Hm'. unfold Float.minimum. rewrite Hm, Hm'.
  rewrite !ltb_negb_leb by (auto; destruct (Float.leb m m'); auto).
  destruct (Float.leb m m') eqn:E.
  - destruct (Float.leb m y) eqn:F; cbn; auto.
    destruct (Float.leb m' y) eqn:G; cbn; auto.
    rewrite (leb_trans _ _ _ E G) in F. discriminate.
  - assert (E' : Float.leb m' m = true).
    { apply ltb_leb. rewrite ltb_negb_leb by auto. now rewrite E. }
    destruct (Float.leb m' y) eqn:G; cbn; [now rewrite andb_false_r|].
    destruct (Float.leb m y) eqn:F; cbn; auto.
    rewrite (leb_trans _ _ _ E' F) in G. discriminate.
Qed.

Lemma minimum_nonnan m m' :
  Float.isnan m = false -> Float.isnan m' = false ->
  Float.isnan (Float.minimum m m') = false.
Proof.
  intros A B. unfold Float.minimum. rewrite A, B. now destruct (Float.leb m m').
Qed.

End FloatFacts.

(* ================================================================== *)
(** ** The order on rows *)

Section RowFacts.

Import FloatFacts.

Lemma good_cons d x r :
  good (S d) (x :: r) <-> Float.isnan x = false /\ good d r.
Proof.
  unfold good; simpl; split.
  - intros [L F]. inversion F; subst. repeat split; auto.
  - intros (N & L & F). split; auto.
Qed.

Lemma good_nil_inv d : good d [] -> d = O.
Proof. intros [L _]. simpl in L. auto. Qed.

(** Rows of one length are taken apart together. *)
Ltac rows_ind d :=
  induction d as [|d IH]; intros;
  repeat match goal with
    | H : good O ?r |- _ =>
        let L := fresh in
        destruct H as [L _]; apply length_zero_iff_nil in L; subst r
    | H : good (S _) ?r |- _ =>
        let x := fresh "x" in
        destruct r as [|x r];
        [destruct H as [H _]; discriminate H | apply good_cons in H; destruct H]
    end.

Lemma row_leb_cons x a y b :
  row_leb (x :: a) (y :: b) = Float.leb x y && row_leb a b.
Proof. reflexivity. Qed.

Lemma row_leb_refl d : forall a, good d a -> row_leb a a = true.
Proof.
  rows_ind d; auto.
  rewrite row_leb_cons, leb_refl; auto. cbn. auto.
Qed.

Lemma row_leb_trans d : forall a b c,
  good d a -> good d b -> good d c ->
  row_leb a b = true -> row_leb b c = true -> row_leb a c = true.
Proof.
  rows_ind d; auto.
  rewrite row_leb_cons, andb_true_iff in *.
  match goal with
  | A : _ /\ _, B : _ /\ _ |- _ => destruct A, B
  end.
  split; [eapply leb_trans | eapply (IH a b c)]; eauto.
Qed.

Lemma row_eqb_leb d : forall a b,
  good d a -> good d b -> row_eqb a b = row_leb a b && row_leb b a.
Proof.
  rows_ind d; auto.
  rewrite !row_leb_cons. cbn [row_eqb]. rewrite eqb_leb, (IH a b) by auto.
  repeat match goal with |- context [Float.leb ?u ?v] => destruct (Float.leb u v) end;
    cbn; auto;
    repeat match goal with |- context [row_leb ?u ?v] => destruct (row_leb u v) end;
    reflexivity.
Qed.

Lemma row_eqb_refl d a : good d a -> row_eqb a a = true.
Proof. intros G. rewrite (row_eqb_leb d), (row_leb_refl d); auto. Qed.

Lemma row_eqb_sym d a b : good d a -> good d b -> row_eqb a b = row_eqb b a.
Proof. intros. rewrite !(row_eqb_leb d) by auto. apply andb_comm. Qed.

Lemma row_eqb_trans d a b c :
  good d a -> good d b -> good d c ->
  row_eqb a b = true -> row_eqb b c = true -> row_eqb a c = true.
Proof.
  intros Ga Gb Gc. rewrite !(row_eqb_leb d), !andb_true_iff by auto.
  intros [A B] [C D]; split;
    [apply (row_leb_trans d a b c) | apply (row_leb_trans d c b a)]; auto.
Qed.

(** [np.any(r < top)] fails exactly when [top <= r] on every axis. *)
Lemma any_lt_row_leb d : forall top r,
  good d top -> good d r -> any_lt top r = negb (row_leb top r).
Proof.
  rows_ind d; auto.
  rewrite row_leb_cons. unfold any_lt in *. cbn [combine existsb fst snd].
  rewrite (IH top r), ltb_negb_leb by auto.
  now rewrite negb_andb.
Qed.

Lemma row_ltb_irrefl a : row_ltb a a = false.
Proof.
  induction a as [|x a IH]; auto. cbn. rewrite ltb_irrefl.
  destruct (Float.eqb x x); auto.
Qed.

(** Trichotomy of the lexicographic order. *)
Lemma row_cases d : forall a b,
  good d a -> good d b ->
  (row_ltb a b = true /\ row_eqb a b = false /\ row_ltb b a = false) \/
  (row_ltb a b = false /\ row_eqb a b = true /\ row_ltb b a = false) \/
  (row_ltb a b = false /\ row_eqb a b = false /\ row_ltb b a = true).
Proof.
  rows_ind d; auto.
  cbn [row_ltb row_eqb].
  match goal with
  | A : Float.isnan ?x = false, B : Float.isnan ?y = false
    |- context [Float.ltb ?x ?y] =>
      destruct (ltb_eqb_cases x y A B) as [(E1 & E2 & E3)|[(E1 & E2 & E3)|(E1 & E2 & E3)]];
      rewrite E1, E3, E2, ?(eqb_sym y x), ?E2; cbn; auto
  end.
Qed.

Lemma row_ltb_trans d : forall a b c,
  good d a -> good d b -> good d c ->
  row_ltb a b = true -> row_ltb b c = true -> row_ltb a c = true.
Proof.
  rows_ind d; auto.
  cbn [row_ltb] in *.
  match goal with
  | A : (if Float.ltb ?x ?y then _ else _) = true,
    B : (if Float.ltb ?y ?z then _ else _) = true |- _ =>
      destruct (Float.ltb x y) eqn:E1; destruct (Float.ltb y z) eqn:E2;
      [ now rewrite (ltb_trans _ _ _ E1 E2)
      | destruct (Float.eqb y z) eqn:E3; [|discriminate];
        now rewrite (ltb_eqb_trans _ _ _ E1 E3)
      | destruct (Float.eqb x y) eqn:E3; [|discriminate];
        now rewrite (eqb_ltb_trans _ _ _ E3 E2)
      | destruct (Float.eqb x y) eqn:E3; [|discriminate];
        destruct (Float.eqb y z) eqn:E4; [|discriminate];
        rewrite (eqb_trans _ _ _ E3 E4);
        destruct (Float.ltb x z); auto ]
  end.
  match goal with |- row_ltb ?a ?c = true =>
    match goal with H : row_ltb a ?b = true |- _ => apply (IH a b c); auto end end.
Qed.

Lemma row_eqb_ltb_trans d : forall a b c,
  good d a -> good d b -> good d c ->
  row_eqb a b = true -> row_ltb b c = true -> row_ltb a c = true.
Proof.
  rows_ind d; auto.
  cbn [row_ltb row_eqb] in *.
  match goal with
  | A : Float.eqb ?x ?y && _ = true,
    B : (if Float.ltb ?y ?z then _ else _) = true |- _ =>
      apply andb_true_iff in A; destruct A as [E1 E2];
      destruct (Float.ltb y z) eqn:E3;
      [ now rewrite (eqb_ltb_trans _ _ _ E1 E3)
      | destruct (Float.eqb y z) eqn:E4; [|discriminate];
        rewrite (eqb_trans _ _ _ E1 E4);
        destruct (Float.ltb x z); auto ]
  end.
  match goal with |- row_ltb ?a ?c = true =>
    match goal with H : row_eqb a ?b = true |- _ => apply (IH a b c); auto end end.
Qed.

Lemma row_ltb_eqb_trans d : forall a b c,
  good d a -> good d b -> good d c ->
  row_ltb a b = true -> row_eqb b c = true -> row_ltb a c = true.
Proof.
  rows_ind d; auto.
  cbn [row_ltb row_eqb] in *.
  match goal with
  | A : Float.eqb ?y ?z && _ = true,
    B : (if Float.ltb ?x ?y then _ else _) = true |- _ =>
      apply andb_true_iff in A; destruct A as [E1 E2];
      destruct (Float.ltb x y) eqn:E3;
      [ now rewrite (ltb_eqb_trans _ _ _ E3 E1)
      | destruct (Float.eqb x y) eqn:E4; [|discriminate];
        rewrite (eqb_trans _ _ _ E4 E1);
        destruct (Float.ltb x z); auto ]
  end.
  match goal with |- row_ltb ?a ?c = true =>
    match goal with H : row_ltb a ?b = true |- _ => apply (IH a b c); auto end end.
Qed.

(** A dominating vector comes first in the lexicographic order. *)
Lemma dominates_row_ltb d : forall a b,
  good d a -> good d b -> dominates a b = true -> row_ltb a b = true.
Proof.
  unfold dominates. rows_ind d.
  - discriminate.
  - rewrite row_leb_cons in *. cbn [row_ltb row_eqb] in *.
    match goal with A : _ && _ = true |- _ =>
      apply andb_true_iff in A; destruct A as [A B];
      apply andb_true_iff in A; destruct A as [A1 A2] end.
    match goal with
    | A : Float.isnan ?x = false, B : Float.isnan ?y = false
      |- context [Float.ltb ?x ?y] =>
        destruct (ltb_eqb_cases x y A B) as [(E1 & E2 & E3)|[(E1 & E2 & E3)|(E1 & E2 & E3)]];
        rewrite E1, ?E2 in *; auto
    end.
    + apply IH; auto. cbn in B. now rewrite A2.
    + rewrite ltb_negb_leb in E3 by auto. rewrite A1 in E3. discriminate.
Qed.

Lemma dominates_leb a b : dominates a b = true -> row_leb a b = true.
Proof. unfold dominates. now intros [A _]%andb_true_iff. Qed.

End RowFacts.

(* ================================================================== *)
(** ** The array operations *)

Section ArrayFacts.

Context {A : Type}.

Lemma select_map_filter {B : Type} (f : B -> bool) (g : B -> A) (l : list B) :
  np.select (map f l) (map g l) = map g (List.filter f l).
Proof.
  induction l as [|x l IH]; cbn; auto.
  destruct (f x); cbn; now rewrite IH.
Qed.

Lemma select_filter (f : A -> bool) (l : list A) :
  np.select (map f l) l = List.filter f l.
Proof.
  rewrite <- (map_id l) at 2. rewrite select_map_filter. apply map_id.
Qed.

Lemma select_In (mask : list bool) (l : list A) x :
  In x (np.select mask l) -> In x l.
Proof.
  revert mask; induction l as [|y l IH]; intros [|m mask]; cbn; try tauto.
  destruct m; cbn; intuition eauto.
Qed.

Lemma select_cons_false (mask : list bool) x (l : list A) :
  np.select (false :: mask) (x :: l) = np.select mask l.
Proof. reflexivity. Qed.

Lemma length_set_at (a : list A) i v : List.length (np.set_at a i v) = List.length a.
Proof.
  revert i; induction a as [|x a IH]; intros [|i]; cbn; auto.
Qed.

Lemma nth_set_at_eq (a : list A) i v d :
  (i < List.length a)%nat -> nth i (np.set_at a i v) d = v.
Proof.
  revert i; induction a as [|x a IH]; intros [|i]; cbn; intros; try lia; auto.
  apply IH; lia.
Qed.

Lemma nth_set_at_ne (a : list A) i j v d :
  i <> j -> nth j (np.set_at a i v) d = nth j a d.
Proof.
  revert i j; induction a as [|x a IH]; intros [|i] [|j]; cbn; intros; try congruence; auto.
Qed.

Lemma length_scatter (idx : list nat) : forall (a : list A) v,
  List.length (np.scatter a idx v) = List.length a.
Proof.
  unfold np.scatter.
  induction idx as [|i idx IH]; intros; cbn; auto.
  now rewrite IH, length_set_at.
Qed.

Lemma nth_scatter_out (idx : list nat) : forall (a : list A) v j d,
  ~ In j idx -> nth j (np.scatter a idx v) d = nth j a d.
Proof.
  unfold np.scatter.
  induction idx as [|i idx IH]; intros a v j d N; cbn; auto.
  rewrite IH by (intros I; apply N; now right).
  apply nth_set_at_ne. intros ->. apply N. now left.
Qed.

Lemma nth_scatter_in (idx : list nat) : forall (a : list A) v j d,
  In j idx -> (j < List.length a)%nat -> nth j (np.scatter a idx v) d = v.
Proof.
  induction idx as [|i idx IH]; intros a v j d I L; [destruct I|].
  destruct (in_dec Nat.eq_dec j idx) as [I'|N].
  - unfold np.scatter in *. cbn. apply IH; auto. now rewrite length_set_at.
  - destruct I as [->|I]; [|contradiction].
    change (np.scatter a (j :: idx) v) with (np.scatter (np.set_at a j v) idx v).
    rewrite nth_scatter_out by auto. now apply nth_set_at_eq.
Qed.

Lemma scatter_cons (a : list A) i idx v :
  np.scatter a (i :: idx) v = np.scatter (np.set_at a i v) idx v.
Proof. reflexivity. Qed.

End ArrayFacts.

Lemma Forall_select {A : Type} (P : A -> Prop) (mask : list bool) (l : list A) :
  Forall P l -> Forall P (np.select mask l).
Proof.
  intros F. apply Forall_forall. intros x I. apply select_In in I.
  revert x I. now apply Forall_forall.
Qed.

Lemma StronglySorted_select {A : Type} (R : A -> A -> Prop) (l : list A) :
  StronglySorted R l -> forall mask, StronglySorted R (np.select mask l).
Proof.
  induction 1 as [|x l S IH F]; intros [|m mask]; cbn; try constructor.
  destruct m; auto. constructor; auto. now apply Forall_select.
Qed.

(* ================================================================== *)
(** ** [np.unique] *)

Section UniqueFacts.

Context {A : Type} (ltb eqb : A -> A -> bool) (P : A -> Prop).

Hypothesis ord_cases : forall x y, P x -> P y ->
  (ltb x y = true /\ eqb x y = false /\ ltb y x = false) \/
  (ltb x y = false /\ eqb x y = true /\ ltb y x = false) \/
  (ltb x y = false /\ eqb x y = false /\ ltb y x = true).
Hypothesis ord_ltb_trans : forall x y z, P x -> P y -> P z ->
  ltb x y = true -> ltb y z = true -> ltb x z = true.
Hypothesis ord_eqb_ltb_trans : forall x y z, P x -> P y -> P z ->
  eqb x y = true -> ltb y z = true -> ltb x z = true.
Hypothesis ord_ltb_eqb_trans : forall x y z, P x -> P y -> P z ->
  ltb x y = true -> eqb y z = true -> ltb x z = true.
Hypothesis ord_eqb_trans : forall x y z, P x -> P y -> P z ->
  eqb x y = true -> eqb y z = true -> eqb x z = true.
Hypothesis ord_eqb_refl : forall x, P x -> eqb x x = true.
Hypothesis ord_eqb_sym : forall x y, P x -> P y -> eqb x y = eqb y x.

Let lt (x y : A) : Prop := ltb x y = true.
Let U := np.sorted_unique ltb eqb.
Let ins := np.insert_unique ltb eqb.
Let idx := np.index_of eqb.

Lemma insert_unique_In x l y : In y (ins x l) -> y = x \/ In y l.
Proof.
  induction l as [|z l IH]; cbn; [intuition|].
  destruct (ltb x z); [cbn; intuition|].
  destruct (eqb x z); cbn; intuition.
Qed.

Lemma insert_unique_P x l : P x -> Forall P l -> Forall P (ins x l).
Proof.
  intros Px F. apply Forall_forall. intros y [->|I]%insert_unique_In; auto.
  revert y I. now apply Forall_forall.
Qed.

Lemma insert_unique_sorted x l :
  P x -> Forall P l -> StronglySorted lt l -> StronglySorted lt (ins x l).
Proof.
  intros Px F Hs0. induction Hs0 as [|z l Hs IH Fz]; cbn.
  - repeat constructor.
  - inversion F as [|? ? Pz Fl]; subst.
    destruct (ord_cases x z Px Pz) as [(E1 & E2 & E3)|[(E1 & E2 & E3)|(E1 & E2 & E3)]];
      rewrite E1, ?E2.
    + constructor; [now constructor|]. constructor; [exact E1|].
      rewrite Forall_forall in *. intros y I. apply (ord_ltb_trans x z y); auto.
      now apply Fz.
    + now constructor.
    + constructor; auto.
      apply Forall_forall. intros y [->|I]%insert_unique_In; auto.
      rewrite Forall_forall in Fz. now apply Fz.
Qed.

Lemma insert_unique_has x l :
  P x -> exists y, In y (ins x l) /\ eqb x y = true.
Proof.
  intros Px. induction l as [|z l (y & I & E)]; cbn.
  - exists x. split; [now left | now apply ord_eqb_refl].
  - destruct (ltb x z); [exists x; split; [now left | now apply ord_eqb_refl]|].
    destruct (eqb x z) eqn:E'; [exists z; split; [now left | auto]|].
    exists y. split; [now right | auto].
Qed.

Lemma insert_unique_keeps x l y :
  In y l -> In y (ins x l).
Proof.
  induction l as [|z l IH]; cbn; [intuition|].
  destruct (ltb x z); [cbn; intuition|].
  destruct (eqb x z); cbn; intuition.
Qed.

Lemma insert_unique_length_le x l :
  (List.length (ins x l) <= S (List.length l))%nat.
Proof.
  induction l as [|z l IH]; cbn; auto.
  destruct (ltb x z); cbn; auto. destruct (eqb x z); cbn; lia.
Qed.

Lemma insert_unique_length_new x l :
  (forall y, In y l -> eqb x y = false) ->
  List.length (ins x l) = S (List.length l).
Proof.
  induction l as [|z l IH]; cbn; auto. intros N.
  destruct (ltb x z); cbn; auto.
  rewrite (N z) by now left. cbn. rewrite IH; auto.
Qed.

Lemma sorted_unique_In a y : In y (U a) -> In y a.
Proof.
  revert y. induction a as [|x a IH]; cbn; auto.
  intros y [->|I]%insert_unique_In; auto.
Qed.

Lemma sorted_unique_P a : Forall P a -> Forall P (U a).
Proof.
  intros F. apply Forall_forall. intros y I%sorted_unique_In.
  revert y I. now apply Forall_forall.
Qed.

Lemma sorted_unique_sorted a : Forall P a -> StronglySorted lt (U a).
Proof.
  induction 1 as [|x a Px F IH]; cbn; [constructor|].
  apply insert_unique_sorted; auto. now apply sorted_unique_P.
Qed.

Lemma sorted_unique_has a x :
  Forall P a -> In x a -> exists y, In y (U a) /\ eqb x y = true.
Proof.
  induction 1 as [|z a Pz F IH]; cbn; [intuition|].
  intros [->|I].
  - now apply insert_unique_has.
  - destruct (IH I) as (y & Iy & E). exists y. split; auto.
    now apply insert_unique_keeps.
Qed.

Lemma sorted_unique_length_le a : (List.length (U a) <= List.length a)%nat.
Proof.
  induction a as [|x a IH]; auto.
  change (U (x :: a)) with (ins x (U a)).
  pose proof (insert_unique_length_le x (U a)). cbn [List.length]. lia.
Qed.

(** In a sorted array of distinct elements, [index_of] finds the one
    position that holds an element equal to [x]. *)
Lemma index_of_eqb_nth u : StronglySorted lt u -> Forall P u ->
  forall x i d, P x -> (i < List.length u)%nat ->
  eqb x (nth i u d) = true -> idx x u = i.
Proof.
  induction 1 as [|z u Hs IH Fz]; intros F x i d Px L E; cbn in *; [lia|].
  inversion F as [|? ? Pz Fu]; subst.
  destruct i as [|i].
  - now rewrite E.
  - assert (I : In (nth i u d) u) by (apply nth_In; lia).
    assert (Py : P (nth i u d)) by (rewrite Forall_forall in Fu; auto).
    assert (Lt : ltb z (nth i u d) = true) by (apply (proj1 (Forall_forall _ _) Fz); auto).
    destruct (eqb x z) eqn:E'.
    + rewrite ord_eqb_sym in E' by auto.
      pose proof (ord_eqb_trans _ _ _ Pz Px Py E' E) as E''.
      destruct (ord_cases z (nth i u d) Pz Py) as [(E1 & E2 & E3)|[(E1 & E2 & E3)|(E1 & E2 & E3)]];
        congruence.
    + f_equal. apply (IH Fu x i d); auto. lia.
Qed.

Lemma index_of_nth u : StronglySorted lt u -> Forall P u ->
  forall i d, (i < List.length u)%nat -> idx (nth i u d) u = i.
Proof.
  intros Hs F i d L.
  assert (Py : P (nth i u d)).
  { rewrite Forall_forall in F. apply F, nth_In, L. }
  apply (index_of_eqb_nth u Hs F _ i d); auto.
Qed.

(** Every element of [a] has a position in [unique a]. *)
Lemma unique_position a x d :
  Forall P a -> In x a ->
  (idx x (U a) < List.length (U a))%nat /\ eqb x (nth (idx x (U a)) (U a) d) = true.
Proof.
  intros F I.
  destruct (sorted_unique_has a x F I) as (y & Iy & E).
  destruct (In_nth _ _ d Iy) as (i & L & N).
  assert (Px : P x) by (rewrite Forall_forall in F; auto).
  rewrite (index_of_eqb_nth (U a) (sorted_unique_sorted a F) (sorted_unique_P a F) x i d);
    auto; rewrite ?N; auto.
Qed.

(** Every position of [unique a] is the position of an element of [a]. *)
Lemma unique_onto a i :
  Forall P a -> (i < List.length (U a))%nat ->
  exists x, In x a /\ idx x (U a) = i.
Proof.
  intros F L. destruct (U a) as [|z u] eqn:E; [cbn in L; lia|].
  exists (nth i (z :: u) z). split.
  - apply sorted_unique_In. fold U. rewrite E. now apply nth_In.
  - apply index_of_nth; auto; rewrite <- E.
    + now apply sorted_unique_sorted.
    + now apply sorted_unique_P.
Qed.

(** The position among the distinct sorted elements is the dense rank. *)
Lemma index_of_lt_mono u x y i j d :
  StronglySorted lt u -> Forall P u -> P x -> P y ->
  (i < List.length u)%nat -> (j < List.length u)%nat ->
  eqb x (nth i u d) = true -> eqb y (nth j u d) = true ->
  ltb x y = true -> (i < j)%nat.
Proof.
  intros Hs F Px Py Li Lj Ex Ey Lxy.
  assert (Pi : P (nth i u d)) by (rewrite Forall_forall in F; apply F, nth_In, Li).
  assert (Pj : P (nth j u d)) by (rewrite Forall_forall in F; apply F, nth_In, Lj).
  assert (Lij : ltb (nth i u d) (nth j u d) = true).
  { apply (ord_eqb_ltb_trans _ x _); auto; [now rewrite ord_eqb_sym|].
    apply (ord_ltb_eqb_trans _ y _); auto. }
  clear - Hs Lij Li Lj ord_cases Pi Pj ord_ltb_trans F.
  revert i j Li Lj Lij Pi Pj.
  induction Hs as [|z u Hs IH Fz]; intros i j Li Lj Lij Pi Pj; cbn in *; [lia|].
  inversion F as [|? ? Pz Fu]; subst.
  destruct i as [|i], j as [|j]; try lia.
  - destruct (ord_cases z z Pz Pz) as [(E1 & E2 & E3)|[(E1 & E2 & E3)|(E1 & E2 & E3)]];
      congruence.
  - assert (L : ltb z (nth i u d) = true).
    { apply (proj1 (Forall_forall _ _) Fz), nth_In. lia. }
    destruct (ord_cases z (nth i u d) Pz Pi) as [(E1 & E2 & E3)|[(E1 & E2 & E3)|(E1 & E2 & E3)]];
      congruence.
  - apply -> Nat.succ_lt_mono. apply IH; auto; lia.
Qed.

End UniqueFacts.

(* ================================================================== *)
(** ** The front detectors *)

Section FrontFacts.

Import FloatFacts.

Variable d : nat.

Let lt (a b : row) : Prop := row_ltb a b = true.

Lemma forallb_false_exists {A : Type} (f : A -> bool) (l : list A) :
  forallb f l = false -> exists x, In x l /\ f x = false.
Proof.
  induction l as [|x l IH]; cbn; [discriminate|].
  destruct (f x) eqn:E; cbn.
  - intros (y & I & F)%IH. exists y. auto.
  - intros _. exists x. auto.
Qed.

Lemma nondominated_app a b v :
  nondominated (a ++ b) v = nondominated a v && nondominated b v.
Proof. apply forallb_app. Qed.

Lemma dominates_irrefl v : good d v -> dominates v v = false.
Proof.
  intros G. unfold dominates. rewrite (row_eqb_refl d v G). apply andb_false_r.
Qed.

Lemma dominates_later u v :
  good d u -> good d v -> row_ltb v u = true -> dominates u v = false.
Proof.
  intros Gu Gv L. destruct (dominates u v) eqn:E; auto.
  apply (dominates_row_ltb d) in E; auto.
  destruct (row_cases d u v Gu Gv) as [(E1 & E2 & E3)|[(E1 & E2 & E3)|(E1 & E2 & E3)]];
    congruence.
Qed.

Lemma dominates_trans_leb f u v :
  good d f -> good d u -> good d v ->
  row_leb f u = true -> dominates u v = true -> row_leb f v = true.
Proof.
  intros Gf Gu Gv A B. apply dominates_leb in B.
  apply (row_leb_trans d f u v); auto.
Qed.

(** Dominance does not tell equal rows apart. *)
Lemma dominates_compat a a' b b' :
  good d a -> good d a' -> good d b -> good d b' ->
  row_eqb a a' = true -> row_eqb b b' = true ->
  dominates a b = true -> dominates a' b' = true.
Proof.
  intros Ga Ga' Gb Gb' Ea Eb. unfold dominates.
  rewrite (row_eqb_leb d a a'), (row_eqb_leb d b b') in * by auto.
  apply andb_true_iff in Ea, Eb. destruct Ea as [A1 A2], Eb as [B1 B2].
  intros [L N]%andb_true_iff. apply andb_true_iff; split.
  - apply (row_leb_trans d a' a b'); auto. apply (row_leb_trans d a b b'); auto.
  - destruct (row_eqb a' b') eqn:E; auto.
    rewrite (row_eqb_leb d a' b') in E by auto.
    apply andb_true_iff in E; destruct E as [E1 E2].
    assert (row_eqb a b = true); [|rewrite H in N; discriminate].
    rewrite (row_eqb_leb d a b) by auto. rewrite L. cbn.
    apply (row_leb_trans d b b' a); auto. apply (row_leb_trans d b' a' a); auto.
Qed.

(** In a sorted array a row is dominated only by rows before it. *)
Lemma nondominated_later l v :
  Forall (good d) l -> good d v ->
  (forall u, In u l -> u = v \/ row_ltb v u = true) ->
  nondominated l v = true.
Proof.
  intros F G H. apply forallb_forall. intros u I.
  rewrite Forall_forall in F.
  destruct (H u I) as [->|L].
  - now rewrite dominates_irrefl.
  - rewrite dominates_later; auto.
Qed.

Lemma nondominated_sorted_tail v l :
  Forall (good d) (v :: l) -> StronglySorted lt (v :: l) ->
  nondominated (v :: l) v = true.
Proof.
  intros F S. inversion F; inversion S; subst.
  apply nondominated_later; auto.
  intros u [->|I]; auto. right.
  match goal with H : Forall (lt v) l |- _ => rewrite Forall_forall in H; now apply H end.
Qed.

Lemma nondominated_has U u v :
  In u U -> dominates u v = true -> nondominated U v = false.
Proof.
  intros I D. destruct (nondominated U v) eqn:E; auto.
  unfold nondominated in E. rewrite forallb_forall in E.
  specialize (E u I). rewrite D in E. discriminate.
Qed.

End FrontFacts.

Section Front12.

Import FloatFacts.

Let lt (a b : row) : Prop := row_ltb a b = true.

Lemma good_1_inv r : good 1 r -> exists x, r = [x] /\ Float.isnan x = false.
Proof.
  intros [L F]. destruct r as [|x [|y r]]; try discriminate.
  exists x. inversion F; auto.
Qed.

Lemma good_2_inv r :
  good 2 r -> exists x y, r = [x; y] /\ Float.isnan x = false /\ Float.isnan y = false.
Proof.
  intros [L F]. destruct r as [|x [|y [|z r]]]; try discriminate.
  exists x, y. inversion F as [|? ? ? F']; inversion F'; auto.
Qed.

(** One objective: the front is the minimum, the first row. *)
Lemma front_1d U :
  Forall (good 1) U -> lexsorted_unique U -> U <> [] ->
  _is_pareto_front (mk_ndarray 1 U) = Ret (front_mask U).
Proof.
  intros F S N. destruct U as [|r0 rest]; [congruence|].
  unfold _is_pareto_front, front_mask. cbn [n_objectives rows map].
  f_equal. f_equal.
  - rewrite (nondominated_sorted_tail 1) by auto.
    inversion F as [|? ? G0 _]; subst.
    destruct (good_1_inv r0 G0) as (x & -> & Nx). cbn. now apply eqb_refl.
  - apply map_ext_in. intros r I.
    inversion F as [|? ? G0 Fr]; inversion S as [|? ? _ L0]; subst.
    rewrite Forall_forall in Fr, L0.
    pose proof (Fr r I) as G. pose proof (L0 r I) as L. unfold lt in L.
    destruct (good_1_inv r0 G0) as (x & -> & Nx).
    destruct (good_1_inv r G) as (y & -> & Ny).
    cbn in L. cbn [nth].
    destruct (ltb_eqb_cases x y Nx Ny) as [(E1 & E2 & E3)|[(E1 & E2 & E3)|(E1 & E2 & E3)]];
      rewrite E1, ?E2 in L; try discriminate.
    rewrite eqb_sym, E2. symmetry.
    apply (nondominated_has _ [x]); [now left|].
    unfold dominates, row_leb. cbn. rewrite (ltb_leb _ _ E1), E2. reflexivity.
Qed.

Lemma map2_removelast {A B C : Type} (f : A -> B -> C) (a : list A) :
  forall (b : list B) x, List.length b = List.length a ->
  np.map2 f a (removelast (x :: b)) = np.map2 f a (x :: b).
Proof.
  induction a as [|z a IH]; intros [|y b] x L; try discriminate; auto.
  cbn [removelast np.map2]. f_equal.
  injection L as L. apply (IH b y L).
Qed.

Lemma length_accumulate_from {A : Type} (f : A -> A -> A) (l : list A) :
  forall m, List.length (np.accumulate_from f m l) = List.length l.
Proof. induction l as [|x l IH]; intros; cbn; auto. Qed.

Lemma minimum_test m y :
  Float.isnan m = false -> Float.isnan y = false ->
  Float.eqb (Float.minimum m y) y && Float.ltb (Float.minimum m y) m = Float.ltb y m.
Proof.
  intros Nm Ny. unfold Float.minimum. rewrite Nm, Ny.
  rewrite (ltb_negb_leb y m) by auto.
  destruct (Float.leb m y) eqn:E; cbn.
  - rewrite ltb_irrefl. apply andb_false_r.
  - rewrite eqb_refl by auto. cbn. rewrite ltb_negb_leb by auto. now rewrite E.
Qed.

(** A row [u] before [v] in a sorted two-column array dominates [v]
    exactly when its second value is not larger. *)
Lemma nondominated_single_2d u v :
  good 2 u -> good 2 v -> row_ltb u v = true ->
  nondominated [u] v = Float.ltb (nth 1 v NaN) (nth 1 u NaN).
Proof.
  intros Gu Gv L.
  destruct (row_cases 2 u v Gu Gv) as [(_ & E & _)|[(E1 & _)|(E1 & _)]]; try congruence.
  unfold nondominated, dominates. cbn [forallb]. rewrite E. cbn [negb].
  rewrite !andb_true_r.
  destruct (good_2_inv u Gu) as (x & y & -> & Nx & Ny).
  destruct (good_2_inv v Gv) as (x' & y' & -> & Nx' & Ny').
  cbn [nth]. unfold row_leb. cbn. rewrite andb_true_r.
  rewrite (ltb_negb_leb y' y) by auto.
  cbn in L.
  assert (Float.leb x x' = true) as ->; [|reflexivity].
  destruct (Float.ltb x x') eqn:E1; [now apply ltb_leb|].
  destruct (Float.eqb x x') eqn:E2; [|discriminate].
  rewrite eqb_leb in E2. now apply andb_true_iff in E2.
Qed.

Lemma front_2d_aux : forall l pre m,
  Forall (good 2) pre -> Forall (good 2) l -> StronglySorted lt l ->
  (forall u v, In u pre -> In v l -> row_ltb u v = true) ->
  Float.isnan m = false ->
  (forall v, good 2 v -> (forall u, In u pre -> row_ltb u v = true) ->
             nondominated pre v = Float.ltb (nth 1 v NaN) m) ->
  let ys := map (fun r => nth 1 r NaN) l in
  let cs := np.accumulate_from Float.minimum m ys in
  np.map2 andb (np.map2 Float.eqb cs ys) (np.map2 Float.ltb cs (m :: cs))
  = map (nondominated (pre ++ l)) l.
Proof.
  induction l as [|v l IH]; intros pre m Fp Fl S B Nm Sm; [reflexivity|].
  inversion Fl as [|? ? Gv Fl']; inversion S as [|? ? S' Lv]; subst.
  assert (Ny : Float.isnan (nth 1 v NaN) = false).
  { destruct (good_2_inv v Gv) as (x & y & -> & _ & Ny). exact Ny. }
  cbn [map np.accumulate_from np.map2]. f_equal.
  - rewrite minimum_test by auto.
    rewrite nondominated_app, (nondominated_sorted_tail 2) by auto.
    rewrite andb_true_r. symmetry. apply Sm; auto.
    intros u I. apply B; auto. now left.
  - replace (pre ++ v :: l) with ((pre ++ [v]) ++ l) by now rewrite <- app_assoc.
    apply IH; auto.
    + apply Forall_app; split; auto.
    + intros u w [I|[<-|[]]]%in_app_iff I'.
      * apply B; auto. now right.
      * rewrite Forall_forall in Lv. now apply Lv.
    + now apply minimum_nonnan.
    + intros w Gw Bw. rewrite nondominated_app.
      rewrite Sm; auto.
      * rewrite nondominated_single_2d; auto.
        -- rewrite ltb_minimum; auto.
           destruct (good_2_inv w Gw) as (x & y & -> & _ & Ny'). exact Ny'.
        -- apply Bw, in_app_iff. right. now left.
      * intros u I. apply Bw, in_app_iff. now left.
Qed.

(** Two objectives: the running minimum of the second column. *)
Lemma front_2d U :
  Forall (good 2) U -> lexsorted_unique U ->
  _is_pareto_front (mk_ndarray 2 U) = Ret (front_mask U).
Proof.
  intros F S. unfold _is_pareto_front. cbn [n_objectives]. f_equal.
  unfold _is_pareto_front_2d, front_mask. cbn [rows].
  destruct U as [|r0 rest]; [reflexivity|].
  inversion F as [|? ? G0 Fr]; inversion S as [|? ? S' L0]; subst.
  cbn [map np.accumulate np.map2 tl List.length repeat firstn app].
  rewrite map2_removelast by now rewrite length_accumulate_from.
  f_equal.
  - symmetry. now apply (nondominated_sorted_tail 2).
  - change (r0 :: rest) with ([r0] ++ rest).
    apply front_2d_aux; auto.
    + intros u v [<-|[]] I. rewrite Forall_forall in L0. now apply L0.
    + destruct (good_2_inv r0 G0) as (x & y & -> & _ & Ny). exact Ny.
    + intros v Gv B. apply nondominated_single_2d; auto. apply B. now left.
Qed.

End Front12.

Lemma map_nth_seq {A : Type} (l : list A) (d : A) :
  map (fun i => nth i l d) (seq 0 (List.length l)) = l.
Proof.
  apply (nth_ext _ _ d d).
  - now rewrite length_map, length_seq.
  - intros k Hk. rewrite length_map, length_seq in Hk.
    rewrite (nth_indep _ _ (nth 0%nat l d)) by now rewrite length_map, length_seq.
    rewrite (map_nth (fun i => nth i l d) (seq 0 (List.length l)) 0%nat k).
    now rewrite seq_nth.
Qed.

Lemma filter_absorb {A : Type} (p q : A -> bool) (l : list A) :
  (forall x, In x l -> p x = true -> q x = true) ->
  List.filter p (List.filter q l) = List.filter p l.
Proof.
  induction l as [|x l IH]; intros H; cbn; auto.
  destruct (q x) eqn:Q; cbn.
  - destruct (p x); rewrite IH; auto; intros; apply H; auto; now right.
  - destruct (p x) eqn:Px.
    + rewrite (H x) in Q; auto; [discriminate | now left].
    + apply IH. intros; apply H; auto; now right.
Qed.

Lemma StronglySorted_map_filter {A B : Type} (R : B -> B -> Prop)
    (g : A -> B) (p : A -> bool) (l : list A) :
  StronglySorted R (map g l) -> StronglySorted R (map g (List.filter p l)).
Proof.
  intros S. rewrite <- select_map_filter. now apply StronglySorted_select.
Qed.

Section FrontND.

Import FloatFacts.

Variables (d : nat) (U : list row).
Hypothesis U_good : Forall (good d) U.
Hypothesis U_sorted : lexsorted_unique U.

Let n := List.length U.
Let lt (a b : row) : Prop := row_ltb a b = true.
Let nthU (k : nat) : row := nth k U [].
Let nd (k : nat) : bool := nondominated U (nthU k).

Lemma any_lt_irrefl top : any_lt top top = false.
Proof.
  unfold any_lt. induction top as [|x top IH]; cbn; auto.
  now rewrite ltb_irrefl, IH.
Qed.

Lemma nthU_good k : (k < n)%nat -> good d (nthU k).
Proof.
  intros L. pose proof U_good as F. rewrite Forall_forall in F.
  apply F, nth_In, L.
Qed.

Lemma nthU_In k : (k < n)%nat -> In (nthU k) U.
Proof. intros L. apply nth_In, L. Qed.

(** The head of a live set that holds every row not above an earlier
    front member is itself on the front. *)
Lemma live_head_nondominated i I Fs :
  (i < n)%nat ->
  StronglySorted lt (map nthU (i :: I)) ->
  (forall k, (k < n)%nat ->
     In k (i :: I) <-> forallb (fun f => negb (row_leb f (nthU k))) Fs = true) ->
  (forall f, In f Fs -> good d f) ->
  nd i = true.
Proof.
  intros Li S C G. unfold nd.
  destruct (nondominated U (nthU i)) eqn:E; auto. exfalso.
  apply forallb_false_exists in E. destruct E as (u & Iu & D).
  apply negb_false_iff in D.
  destruct (In_nth _ _ [] Iu) as (k & Lk & Nk). fold n in Lk. fold (nthU k) in Nk.
  subst u.
  pose proof (nthU_good i Li) as Gi. pose proof (nthU_good k Lk) as Gk.
  destruct (forallb (fun f => negb (row_leb f (nthU k))) Fs) eqn:B.
  - apply (C k Lk) in B. destruct B as [->|B].
    + rewrite (dominates_irrefl d) in D by auto. discriminate.
    + cbn [map] in S. inversion S as [|? ? _ L]; subst.
      rewrite Forall_forall in L.
      specialize (L (nthU k) (in_map nthU _ _ B)).
      rewrite (dominates_later d) in D by auto. discriminate.
  - apply forallb_false_exists in B. destruct B as (f & If & Lf).
    apply negb_false_iff in Lf.
    assert (X : forallb (fun f => negb (row_leb f (nthU i))) Fs = true).
    { apply (C i Li). now left. }
    rewrite forallb_forall in X. specialize (X f If).
    rewrite (dominates_trans_leb d f (nthU k) (nthU i)) in X; auto. discriminate.
Qed.

Lemma nd_loop_correct : forall fuel I Fs M,
  (List.length I <= fuel)%nat ->
  Forall (fun k => (k < n)%nat) I ->
  StronglySorted lt (map nthU I) ->
  (forall k, (k < n)%nat ->
     In k I <-> forallb (fun f => negb (row_leb f (nthU k))) Fs = true) ->
  (forall f, In f Fs -> good d f) ->
  nd_loop fuel (map nthU I) I M = Ret (np.scatter M (List.filter nd I) true).
Proof.
  induction fuel as [|fuel IH]; intros I Fs M L B S C G.
  - destruct I; [reflexivity | cbn in L; lia].
  - destruct I as [|i I]; [reflexivity|].
    inversion B as [|? ? Li B']; subst.
    pose proof (live_head_nondominated i I Fs Li S C G) as Ni.
    set (p := fun k => any_lt (nthU i) (nthU k)).
    assert (Pk : forall k, (k < n)%nat -> p k = negb (row_leb (nthU i) (nthU k))).
    { intros k Lk. unfold p. apply (any_lt_row_leb d); now apply nthU_good. }
    cbn [map nd_loop nth]. rewrite any_lt_irrefl, !select_cons_false.
    rewrite map_map. fold p.
    rewrite select_map_filter, select_filter.
    rewrite (IH _ (nthU i :: Fs)).
    + cbn [List.filter]. rewrite Ni, scatter_cons. f_equal. f_equal.
      apply filter_absorb. intros k Ik Nk.
      rewrite Forall_forall in B'. pose proof (B' k Ik) as Lk.
      rewrite Pk by auto.
      destruct (row_leb (nthU i) (nthU k)) eqn:E; auto. exfalso.
      cbn [map] in S. inversion S as [|? ? _ Lt]; subst.
      rewrite Forall_forall in Lt.
      specialize (Lt (nthU k) (in_map nthU _ _ Ik)).
      pose proof (nthU_good i Li) as Gi. pose proof (nthU_good k Lk) as Gk.
      unfold nd in Nk. rewrite (nondominated_has U (nthU i)) in Nk;
        [discriminate | now apply nthU_In |].
      unfold dominates. rewrite E.
      destruct (row_cases d (nthU i) (nthU k) Gi Gk) as [(_ & E2 & _)|[(E1 & _)|(E1 & _)]];
        try congruence.
      now rewrite E2.
    + pose proof (filter_length_le p I). cbn in L. lia.
    + rewrite Forall_forall in *. intros k [Ik _]%filter_In. auto.
    + apply StronglySorted_map_filter. cbn [map] in S. now inversion S.
    + intros k Lk. cbn [forallb]. rewrite filter_In, <- Pk, andb_true_iff by auto.
      rewrite <- (C k Lk). cbn [In]. split.
      * intros [Ik Hp]. auto.
      * intros [Hp [->|Ik]]; auto.
        unfold p in Hp. rewrite any_lt_irrefl in Hp. discriminate.
    + intros f [<-|If]; auto. now apply nthU_good.
Qed.

Lemma scatter_mask (p : nat -> bool) :
  np.scatter (repeat false n) (List.filter p (seq 0 n)) true = map p (seq 0 n).
Proof.
  apply (nth_ext _ _ false false).
  - now rewrite length_scatter, repeat_length, length_map, length_seq.
  - intros k Lk. rewrite length_scatter, repeat_length in Lk.
    rewrite (nth_indep (map p _) _ (p 0%nat)) by now rewrite length_map, length_seq.
    rewrite map_nth, seq_nth by auto. cbn [Nat.add].
    destruct (p k) eqn:E.
    + apply nth_scatter_in; [|now rewrite repeat_length].
      apply filter_In. split; auto. apply in_seq. lia.
    + rewrite nth_scatter_out.
      * apply nth_repeat.
      * intros [_ X]%filter_In. congruence.
Qed.

(** Three objectives or more: the elimination loop. *)
Lemma nd_front_correct :
  _is_pareto_front_nd (mk_ndarray d U) = Ret (front_mask U).
Proof.
  unfold _is_pareto_front_nd, np.arange. cbn [rows]. fold n.
  rewrite <- (map_nth_seq U []) at 1. fold n. fold nthU.
  rewrite (nd_loop_correct n (seq 0 n) []).
  - rewrite scatter_mask. unfold front_mask. f_equal.
    transitivity (map (nondominated U) (map nthU (seq 0 n))).
    + now rewrite map_map.
    + unfold nthU, n. now rewrite map_nth_seq.
  - now rewrite length_seq.
  - apply Forall_forall. intros k I%in_seq. lia.
  - unfold nthU. unfold n. rewrite map_nth_seq. exact U_sorted.
  - intros k Lk. cbn. rewrite in_seq. intuition lia.
  - intros f [].
Qed.

End FrontND.

(** The three detectors mark exactly the rows that no row dominates. *)
Lemma front_correct d U :
  Forall (good d) U -> lexsorted_unique U -> (d = 1%nat -> U <> []) ->
  _is_pareto_front (mk_ndarray d U) = Ret (front_mask U).
Proof.
  intros F Hs N.
  destruct d as [|[|[|d]]].
  - now apply nd_front_correct.
  - apply front_1d; auto.
  - now apply front_2d.
  - now apply (nd_front_correct (S (S (S d)))).
Qed.

(* ================================================================== *)
(** ** The ranking loop *)

Lemma rank_loop_eq fuel d n_unique n_below U indices ranks rank :
  rank_loop fuel d n_unique n_below U indices ranks rank =
  if Z.of_nat n_unique - Z.of_nat (List.length indices) <? n_below then
    match fuel with
    | O => OutOfFuel
    | S fuel' =>
        on_front <- _is_pareto_front (mk_ndarray d U) ;;
        rank_loop fuel' d n_unique n_below (np.select (map negb on_front) U)
          (np.select (map negb on_front) indices)
          (np.scatter ranks (np.select on_front indices) rank) (rank + 1)
    end
  else Ret (ranks, indices, rank).
Proof. destruct fuel; reflexivity. Qed.

Section RankLoop.

Variables (d : nat) (U : list row) (n_below : Z).
Hypothesis d_not_1 : d <> 1%nat.
Hypothesis U_good : Forall (good d) U.
Hypothesis U_sorted : lexsorted_unique U.

Let n := List.length U.
Let lt (a b : row) : Prop := row_ltb a b = true.
Let nthU (k : nat) : row := nth k U [].

Lemma live_good I : Forall (fun k => (k < n)%nat) I -> Forall (good d) (map nthU I).
Proof.
  intros B. apply Forall_forall. intros x (k & <- & Ik)%in_map_iff.
  rewrite Forall_forall in B, U_good. apply U_good, nth_In, B, Ik.
Qed.

Lemma loop_inv_step I R r :
  loop_inv U I R r -> I <> [] ->
  let fr := fun k => nondominated (map nthU I) (nthU k) in
  loop_inv U (List.filter (fun k => negb (fr k)) I)
           (np.scatter R (List.filter fr I) r) (r + 1)
  /\ (List.length (List.filter (fun k => negb (fr k)) I) < List.length I)%nat.
Proof.
  intros [B S L Res Clo Rk] NE fr.
  assert (Len :
    (List.length (List.filter (fun k => negb (fr k)) I) < List.length I)%nat).
  { destruct I as [|i I]; [congruence|].
    assert (fr i = true) as E.
    { unfold fr. cbn [map]. apply (nondominated_sorted_tail d); auto.
      now apply (live_good (i :: I)). }
    cbn [List.filter]. rewrite E. cbn [negb List.length].
    pose proof (filter_length_le (fun k => negb (fr k)) I). lia. }
  split; [|exact Len].
  assert (Out : forall k, ~ In k I -> nth k (np.scatter R (List.filter fr I) r) 0 = nth k R 0).
  { intros k N. apply nth_scatter_out. intros [X _]%filter_In. contradiction. }
  assert (New : forall k, (k < n)%nat -> In k I -> fr k = true ->
                nth k (np.scatter R (List.filter fr I) r) 0 = r).
  { intros k Lk Ik E. apply nth_scatter_in; [|lia]. apply filter_In; auto. }
  assert (Split : forall k, ~ In k (List.filter (fun k => negb (fr k)) I) ->
                  ~ In k I \/ (In k I /\ fr k = true)).
  { intros k N. destruct (in_dec Nat.eq_dec k I) as [Ik|]; auto. right. split; auto.
    destruct (fr k) eqn:E; auto. exfalso. apply N, filter_In. now rewrite E. }
  constructor.
  - rewrite Forall_forall in *. intros k [Ik _]%filter_In. auto.
  - now apply StronglySorted_map_filter.
  - now rewrite length_scatter.
  - intros k Lk N. destruct (Split k N) as [O|[Ik E]].
    + rewrite Out by auto. specialize (Res k Lk O). lia.
    + rewrite New by auto. lia.
  - intros j k Lj Lk N D. destruct (Split k N) as [O|[Ik E]].
    + destruct (Clo j k Lj Lk O D) as [Oj Lt].
      split; [intros [X _]%filter_In; contradiction|].
      now rewrite !Out by auto.
    + assert (Oj : ~ In j I).
      { intros Ij. unfold fr in E.
        rewrite (nondominated_has _ (nthU j) (nthU k)) in E; auto; [discriminate|].
        now apply in_map. }
      split; [intros [X _]%filter_In; contradiction|].
      rewrite Out, New by auto. specialize (Res j Lj Oj). lia.
  - lia.
Qed.

(** When the budget does not exceed the number of distinct rows, the
    loop ends after at most [n_below] layers with the budget met. *)
Lemma rank_loop_total : forall fuel I R r,
  loop_inv U I R r ->
  n_below <= Z.of_nat n ->
  r <= Z.max 0 n_below ->
  (Z.to_nat (n_below - (Z.of_nat n - Z.of_nat (List.length I))) <= fuel)%nat ->
  exists I' R' r',
    rank_loop fuel d n n_below (map nthU I) I R r = Ret (R', I', r') /\
    loop_inv U I' R' r' /\
    n_below <= Z.of_nat n - Z.of_nat (List.length I') /\
    r' <= Z.max 0 n_below.
Proof.
  induction fuel as [|fuel IH]; intros I R r Inv Nb Rb Fu;
    rewrite rank_loop_eq;
    destruct (Z.of_nat n - Z.of_nat (List.length I) <? n_below) eqn:C;
    try (apply Z.ltb_ge in C; exists I, R, r;
         split; [reflexivity|]; split; [exact Inv|]; split; lia);
    apply Z.ltb_lt in C; [lia|].
  assert (NE : I <> []) by (intros ->; cbn in C; lia).
  destruct (loop_inv_step I R r Inv NE) as [Inv' Len].
  destruct Inv as [B S L Res Clo Rk].
  rewrite front_correct; auto using live_good.
  cbn [bind]. unfold front_mask.
  rewrite !map_map.
  rewrite (select_map_filter (fun k => negb (nondominated (map nthU I) (nthU k))) nthU I).
  rewrite (select_filter (fun k => negb (nondominated (map nthU I) (nthU k))) I).
  rewrite (select_filter (fun k => nondominated (map nthU I) (nthU k)) I).
  apply IH; auto; lia.
Qed.

Lemma loop_inv_init : loop_inv U (seq 0 n) (repeat 0 n) 0.
Proof.
  constructor.
  - apply Forall_forall. intros k I%in_seq. lia.
  - unfold nthU, n. rewrite map_nth_seq. exact U_sorted.
  - apply repeat_length.
  - intros k Lk N. exfalso. apply N, in_seq. lia.
  - intros j k Lj Lk N. exfalso. apply N, in_seq. lia.
  - rewrite length_seq. lia.
Qed.

(** The ranks after the last assignment of the function. *)
Lemma final_ranks I R r k :
  loop_inv U I R r -> (k < n)%nat ->
  (~ In k I /\ 0 <= nth k (np.scatter R I r) 0 < r /\
     nth k (np.scatter R I r) 0 = nth k R 0) \/
  (In k I /\ nth k (np.scatter R I r) 0 = r).
Proof.
  intros [B S L Res Clo Rk] Lk.
  destruct (in_dec Nat.eq_dec k I) as [Ik|N].
  - right. split; auto. apply nth_scatter_in; auto. lia.
  - left. rewrite nth_scatter_out by auto. auto.
Qed.

End RankLoop.

(* ================================================================== *)
(** ** [np.unique] on rows and on floats *)

Section RowsUnique.

Variable d : nat.

Let Ur := np.sorted_unique row_ltb row_eqb.

Lemma rows_unique_sorted a : Forall (good d) a -> lexsorted_unique (Ur a).
Proof.
  apply (sorted_unique_sorted row_ltb row_eqb (good d));
    [apply row_cases | apply row_ltb_trans].
Qed.

Lemma rows_unique_good a : Forall (good d) a -> Forall (good d) (Ur a).
Proof. apply sorted_unique_P. Qed.

Lemma rows_unique_position a x :
  Forall (good d) a -> In x a ->
  (np.index_of row_eqb x (Ur a) < List.length (Ur a))%nat /\
  row_eqb x (nth (np.index_of row_eqb x (Ur a)) (Ur a) []) = true.
Proof.
  apply (unique_position row_ltb row_eqb (good d));
    [apply row_cases | apply row_ltb_trans | apply row_eqb_trans
    | apply row_eqb_refl | apply row_eqb_sym].
Qed.

Lemma rows_unique_onto a i :
  Forall (good d) a -> (i < List.length (Ur a))%nat ->
  exists x, In x a /\ np.index_of row_eqb x (Ur a) = i.
Proof.
  apply (unique_onto row_ltb row_eqb (good d));
    [apply row_cases | apply row_ltb_trans | apply row_eqb_trans
    | apply row_eqb_refl | apply row_eqb_sym].
Qed.

End RowsUnique.

Section FloatsUnique.

Import FloatFacts.

Let P (x : float) : Prop := Float.isnan x = false.
Let Uf := np.sorted_unique Float.ltb Float.eqb.

Lemma floats_unique_sorted a :
  Forall P a -> StronglySorted (fun x y => Float.ltb x y = true) (Uf a).
Proof.
  apply (sorted_unique_sorted Float.ltb Float.eqb P).
  - apply ltb_eqb_cases.
  - intros x y z _ _ _. apply ltb_trans.
Qed.

Lemma floats_unique_position a x :
  Forall P a -> In x a ->
  (np.index_of Float.eqb x (Uf a) < List.length (Uf a))%nat /\
  Float.eqb x (nth (np.index_of Float.eqb x (Uf a)) (Uf a) NaN) = true.
Proof.
  apply (unique_position Float.ltb Float.eqb P).
  - apply ltb_eqb_cases.
  - intros x' y z _ _ _. apply ltb_trans.
  - intros x' y z _ _ _. apply eqb_trans.
  - apply eqb_refl.
  - intros x' y _ _. apply eqb_sym.
Qed.

(** The dense rank is increasing. *)
Lemma floats_unique_mono a x y :
  Forall P a -> In x a -> In y a -> Float.ltb x y = true ->
  (np.index_of Float.eqb x (Uf a) < np.index_of Float.eqb y (Uf a))%nat.
Proof.
  intros F Ix Iy L.
  destruct (floats_unique_position a x F Ix) as [Lx Ex].
  destruct (floats_unique_position a y F Iy) as [Ly Ey].
  pose proof F as F'. rewrite Forall_forall in F'.
  apply (index_of_lt_mono Float.ltb Float.eqb P) with (u := Uf a) (x := x) (y := y) (d := NaN);
    auto.
  - apply ltb_eqb_cases.
  - intros x' y' z _ _ _. apply eqb_ltb_trans.
  - intros x' y' z _ _ _. apply ltb_eqb_trans.
  - intros x' y' _ _. apply eqb_sym.
  - now apply floats_unique_sorted.
  - now apply sorted_unique_P.
Qed.

End FloatsUnique.

(* ================================================================== *)
(** ** The layered rank calculator *)

Lemma nth_map_in {A B : Type} (f : A -> B) (l : list A) i d d' :
  (i < List.length l)%nat -> nth i (map f l) d = f (nth i l d').
Proof.
  intros L. rewrite (nth_indep _ d (f d')) by now rewrite length_map.
  apply map_nth.
Qed.

Section Layers.

Variables (loss_values : ndarray) (n_below : option Z).

Let d := n_objectives loss_values.
Let a := rows loss_values.
Let len := List.length a.
Let U := np.sorted_unique row_ltb row_eqb a.
Let n := List.length U.
Let order_inv := map (fun x => np.index_of row_eqb x U) a.
Let nb := Z.min (py_or n_below (Z.of_nat len)) (Z.of_nat len).

Hypothesis d_not_1 : d <> 1%nat.
Hypothesis a_good : Forall (good d) a.
Hypothesis positive : non_positive n_below = false.

Lemma order_inv_bound i :
  (i < len)%nat ->
  (nth i order_inv O < n)%nat /\
  row_eqb (nth i a []) (nth (nth i order_inv O) U []) = true.
Proof.
  intros L. unfold order_inv.
  rewrite (nth_map_in _ a i O []) by exact L.
  apply (rows_unique_position d); auto. now apply nth_In.
Qed.

Lemma nth_take R i :
  (i < len)%nat ->
  nth i (np.take 0 R order_inv) 0 = nth (nth i order_inv O) R 0.
Proof.
  intros L. unfold np.take.
  apply (nth_map_in (fun i => nth i R 0) order_inv i 0 O).
  unfold order_inv. now rewrite length_map.
Qed.

End Layers.

Section Monotone.

Import FloatFacts.

Variables (loss_values : ndarray) (n_below : option Z).

Let d := n_objectives loss_values.
Let a := rows loss_values.
Let len := List.length a.

Hypothesis a_good : Forall (good d) a.
Hypothesis positive : non_positive n_below = false.

(** One objective: the dense rank of the value, whatever the budget. *)
Lemma dense_rank_monotone fuel :
  d = 1%nat ->
  exists ranks,
    _calculate_nondomination_rank fuel loss_values n_below = Ret ranks /\
    List.length ranks = len /\
    forall i j, (i < len)%nat -> (j < len)%nat ->
      dominates (nth i a []) (nth j a []) = true ->
      nth i ranks 0 < nth j ranks 0.
Proof.
  intros D1.
  set (col := map (fun r => nth 0 r NaN) a).
  set (Uf := np.sorted_unique Float.ltb Float.eqb col).
  exists (map Z.of_nat (map (fun x => np.index_of Float.eqb x Uf) col)).
  assert (Lc : List.length col = len) by (unfold col; now rewrite length_map).
  split; [|split].
  - unfold _calculate_nondomination_rank. rewrite positive.
    fold d. rewrite D1. reflexivity.
  - now rewrite !length_map.
  - intros i j Li Lj D.
    rewrite !(nth_map_in Z.of_nat _ _ 0 O) by now rewrite length_map, Lc.
    rewrite !(nth_map_in (fun x => np.index_of Float.eqb x Uf) col _ O NaN)
      by now rewrite Lc.
    apply inj_lt.
    assert (Fc : Forall (fun x => Float.isnan x = false) col).
    { apply Forall_forall. intros x (r & <- & Ir)%in_map_iff.
      rewrite Forall_forall in a_good. specialize (a_good r Ir).
      rewrite D1 in a_good. destruct (good_1_inv r a_good) as (y & -> & Ny).
      exact Ny. }
    apply floats_unique_mono; auto; try (apply nth_In; now rewrite Lc).
    unfold col. rewrite !(nth_map_in (fun r => nth 0 r NaN) a _ NaN []) by auto.
    pose proof a_good as G. rewrite Forall_forall in G.
    pose proof (G _ (nth_In a [] Li)) as Gi.
    pose proof (G _ (nth_In a [] Lj)) as Gj.
    rewrite D1 in Gi, Gj.
    destruct (good_1_inv _ Gi) as (x & Ex & Nx).
    destruct (good_1_inv _ Gj) as (y & Ey & Ny).
    rewrite Ex, Ey in *. cbn [nth].
    unfold dominates, row_leb in D. cbn in D.
    rewrite !andb_true_r in D. apply andb_true_iff in D. destruct D as [D1' D2].
    rewrite ltb_negb_leb by auto.
    destruct (Float.leb y x) eqn:E; auto.
    rewrite eqb_leb, D1', E in D2. discriminate.
Qed.

End Monotone.

Lemma layers_below_le r ranks :
  Forall (fun x => 0 <= x) ranks -> 0 <= r -> (layers_below r ranks <= Z.to_nat r)%nat.
Proof.
  intros F Hr. unfold layers_below.
  rewrite <- (length_seq (Z.to_nat r) 0%nat), <- (length_map Z.of_nat).
  apply NoDup_incl_length; [apply NoDup_nodup|].
  intros x [Ix Lx]%nodup_In%filter_In.
  rewrite Forall_forall in F. specialize (F x Ix). apply Z.ltb_lt in Lx.
  apply in_map_iff. exists (Z.to_nat x). split; [lia|]. apply in_seq. lia.
Qed.

Lemma filter_map_length {A B : Type} (p : B -> bool) (g : A -> B) (l : list A) :
  List.length (List.filter p (map g l)) = List.length (List.filter (fun x => p (g x)) l).
Proof.
  induction l as [|x l IH]; cbn; auto. destruct (p (g x)); cbn; now rewrite IH.
Qed.

Section Budget.

Variable loss_values : ndarray.

Let d := n_objectives loss_values.
Let a := rows loss_values.
Let len := List.length a.
Let U := np.sorted_unique row_ltb row_eqb a.
Let n := List.length U.
Let idx (x : row) : nat := np.index_of row_eqb x U.

Hypothesis d_not_1 : d <> 1%nat.
Hypothesis a_good : Forall (good d) a.

(** The rows of resolved distinct vectors are at least as many as the
    resolved distinct vectors. *)
Lemma resolved_rows_count (I : list nat) :
  (n - List.length I <=
   List.length (List.filter
     (fun x => if in_dec Nat.eq_dec (idx x) I then false else true) a))%nat.
Proof.
  set (out := fun u => if in_dec Nat.eq_dec u I then false else true).
  set (S := List.filter out (seq 0 n)).
  assert (NS : NoDup S) by (apply NoDup_filter, seq_NoDup).
  assert (L1 : (n - List.length I <= List.length S)%nat).
  { pose proof (filter_length out (seq 0 n)) as E. rewrite length_seq in E. fold S in E.
    assert ((List.length (List.filter (fun x => negb (out x)) (seq 0 n))
             <= List.length I)%nat); [|lia].
    apply NoDup_incl_length; [apply NoDup_filter, seq_NoDup|].
    intros u [_ Hu]%filter_In. unfold out in Hu.
    destruct (in_dec Nat.eq_dec u I); auto. discriminate. }
  assert (L2 : (List.length S <=
                List.length (map idx (List.filter (fun x => out (idx x)) a)))%nat).
  { apply NoDup_incl_length; auto.
    intros u [Hu Ou]%filter_In. apply in_seq in Hu.
    destruct (rows_unique_onto d a u a_good) as (x & Ix & Ex); [fold U n; lia|].
    apply in_map_iff. exists x. split; auto.
    apply filter_In. split; auto. unfold idx, U. now rewrite Ex. }
  rewrite length_map in L2. exact (Nat.le_trans _ _ _ L1 L2).
Qed.

End Budget.

(* ================================================================== *)
(** ** What a call can end with *)

Lemma select_length_le {A : Type} (mask : list bool) (l : list A) :
  (List.length (np.select mask l) <= List.length l)%nat.
Proof.
  revert mask; induction l as [|x l IH]; intros [|m mask]; cbn; try lia.
  specialize (IH mask). destruct m; cbn; lia.
Qed.

(** The elimination loop ends within as many iterations as there are rows. *)
Lemma nd_loop_returns : forall fuel L I M,
  (List.length L <= fuel)%nat -> exists M', nd_loop fuel L I M = Ret M'.
Proof.
  induction fuel as [|fuel IH]; intros [|top L] I M Le; cbn in Le; try lia;
    try (eexists; reflexivity).
  cbn [nd_loop map]. rewrite any_lt_irrefl.
  pose proof (select_length_le (map (any_lt top) L) L).
  destruct I as [|i I]; cbn [np.select]; apply IH; lia.
Qed.

Lemma is_pareto_front_returns d U :
  d <> 1%nat -> exists mask, _is_pareto_front (mk_ndarray d U) = Ret mask.
Proof.
  intros D. unfold _is_pareto_front. cbn [n_objectives].
  destruct d as [|[|[|d]]]; try congruence; try (eexists; reflexivity);
    apply nd_loop_returns; cbn; lia.
Qed.

Lemma rank_loop_no_raise d : d <> 1%nat ->
  forall fuel n nb U I R r,
    rank_loop fuel d n nb U I R r = OutOfFuel \/
    exists st, rank_loop fuel d n nb U I R r = Ret st.
Proof.
  intros D. induction fuel as [|fuel IH]; intros; rewrite rank_loop_eq;
    destruct (_ <? _); eauto.
  destruct (is_pareto_front_returns d U D) as (mask & ->). cbn [bind]. apply IH.
Qed.

(** The rank calculator returns or keeps running; it never raises. *)
Lemma calculate_no_raise fuel loss_values n_below :
  _calculate_nondomination_rank fuel loss_values n_below = OutOfFuel \/
  exists ranks, _calculate_nondomination_rank fuel loss_values n_below = Ret ranks.
Proof.
  unfold _calculate_nondomination_rank.
  destruct (non_positive n_below); eauto.
  destruct (Nat.eqb_spec (n_objectives loss_values) 1) as [|D]; cbn; eauto.
  match goal with |- context [rank_loop ?f ?d ?n ?nb ?U ?I ?R ?r] =>
    destruct (rank_loop_no_raise d D f n nb U I R r) as [->|([[R' I'] r'] & ->)]
  end; cbn; eauto.
Qed.

(** With no live row left and the budget not met, the loop never ends. *)
Lemma rank_loop_diverges d n nb : d <> 1%nat -> Z.of_nat n < nb ->
  forall fuel R r, rank_loop fuel d n nb [] [] R r = OutOfFuel.
Proof.
  intros D Lt. induction fuel as [|fuel IH]; intros; rewrite rank_loop_eq; cbn [List.length].
  - destruct (Z.ltb_spec (Z.of_nat n - Z.of_nat 0) nb); auto; lia.
  - destruct (Z.ltb_spec (Z.of_nat n - Z.of_nat 0) nb); [|lia].
    destruct (is_pareto_front_returns d [] D) as (mask & ->). cbn [bind].
    destruct mask; cbn; apply IH.
Qed.

(** The loop returns only once the budget is met. *)
Lemma rank_loop_exit d : forall fuel n nb U I R r R' I' r',
  rank_loop fuel d n nb U I R r = Ret (R', I', r') ->
  nb <= Z.of_nat n - Z.of_nat (List.length I').
Proof.
  induction fuel as [|fuel IH]; intros n nb U I R r R' I' r'; rewrite rank_loop_eq;
    destruct (Z.ltb_spec (Z.of_nat n - Z.of_nat (List.length I)) nb);
    try discriminate; try (intros [= <- <- <-]; lia).
  destruct (_is_pareto_front (mk_ndarray d U)); cbn [bind]; try discriminate.
  apply IH.
Qed.

(** A budget above the number of distinct vectors is never met: with two
    objectives or more the rank calculator does not return. *)
Lemma budget_above_distinct_diverges fuel loss_values n_below :
  n_objectives loss_values <> 1%nat ->
  non_positive n_below = false ->
  Z.of_nat (List.length (np.sorted_unique row_ltb row_eqb (rows loss_values)))
  < Z.min (py_or n_below (Z.of_nat (List.length (rows loss_values))))
          (Z.of_nat (List.length (rows loss_values))) ->
  _calculate_nondomination_rank fuel loss_values n_below = OutOfFuel.
Proof.
  intros D P Lt. unfold _calculate_nondomination_rank. rewrite P.
  destruct (Nat.eqb_spec (n_objectives loss_values) 1); [contradiction|].
  unfold np.unique.
  match goal with |- context [rank_loop ?f ?d ?n ?nb ?U ?I ?R ?r] =>
    destruct (rank_loop_no_raise d D f n nb U I R r) as [->|([[R' I'] r'] & E)]
  end; [reflexivity|].
  apply rank_loop_exit in E. lia.
Qed.

Lemma truth_of_many et (a : list bool) :
  (2 <= List.length a)%nat -> np.truth et a = Raise ValueError.
Proof. destruct a as [|x [|y a]]; cbn; auto; lia. Qed.

Lemma length_map2 {A B C : Type} (f : A -> B -> C) (a : list A) :
  forall b, List.length b = List.length a -> List.length (np.map2 f a b) = List.length a.
Proof.
  induction a as [|x a IH]; intros [|y b] L; cbn in *; try lia; auto.
Qed.

(* ================================================================== *)
(** ** The properties *)

(** C1 (scenario C: the feasible records [(1,1)], [(2,2)] and the infeasible
    record [(0,0)] with penalty 3 are to be ranked 0, 1 and 2).  The call
    does not return these ranks: once the feasible records are ranked, the
    guard [if is_infeasible > 0] takes the truth value of a three-element
    array and raises. *)
Theorem scenario_C_raises et fuel :
  _fast_non_dominated_sort et (3 + fuel) scenario_C_values (Some scenario_C_penalty) None
  = Raise ValueError.
Proof. reflexivity. Qed.

(** C2 (all-feasible penalties are to give the ranks of the call without
    penalties, which are those of [_calculate_nondomination_rank]).  The
    call without penalties is the rank calculator, but for two feasible
    records the call with penalties raises at the guard instead of
    returning its ranks [0; 1]. *)
Theorem all_feasible_differs et fuel :
  (forall loss_values n_below,
     _fast_non_dominated_sort et fuel loss_values None n_below
     = _calculate_nondomination_rank fuel loss_values n_below) /\
  _fast_non_dominated_sort et (3 + fuel) pair2 None None = Ret [0; 1] /\
  _fast_non_dominated_sort et (3 + fuel) pair2 (Some [Float.of_Z 0; Float.of_Z 0]) None
  = Raise ValueError.
Proof. repeat split; reflexivity. Qed.

(** C3 (every call with a penalty array of two entries or more is to raise
    at the guard [if is_infeasible > 0]).  For two equal feasible vectors
    of three objectives nothing is raised and nothing is returned, however
    long the call runs: the ranking of the feasible records, which comes
    before the guard, never ends, because its budget is clipped to the
    number of vectors and not to the number of distinct vectors. *)
Theorem penalty_path_hangs_on_twins et fuel :
  _calculate_nondomination_rank fuel twins3 (Some 2) = OutOfFuel /\
  _fast_non_dominated_sort et fuel twins3 (Some [Float.of_Z 0; Float.of_Z 0]) None
  = OutOfFuel.
Proof.
  split.
  - apply budget_above_distinct_diverges; [discriminate | reflexivity |].
    vm_compute. reflexivity.
  - destruct fuel as [|fuel]; [reflexivity|].
    unfold _fast_non_dominated_sort, _calculate_nondomination_rank.
    cbn -[rank_loop np.truth]. rewrite rank_loop_eq.
    cbn -[rank_loop np.truth].
    rewrite (rank_loop_diverges 3 1 2); [reflexivity | congruence | lia].
Qed.

(** C4 (an absent value is to be normalized to +infinity whatever the
    direction).  It is under MINIMIZE; under MAXIMIZE the infinity put in
    place of the absent value is negated with every other value, and the
    result is -infinity, the best normalized value instead of the worst. *)
Theorem normalize_absent_value :
  _normalize_value None MINIMIZE = PInf /\ _normalize_value None MAXIMIZE = NInf.
Proof. split; reflexivity. Qed.

(** C5 fails as stated: the front of scenario A is not the four records
    [(1,4)], [(2,3)], [(2,2)], [(4,1)]. *)
Lemma four_record_front_refuted :
  ~ (exists front,
       _get_pareto_front_trials_by_trials scenario_A [MINIMIZE; MINIMIZE] false = Ret front /\
       forall t, In t front <->
                 In t [complete_trial 0 [1; 4]; complete_trial 1 [2; 3];
                       complete_trial 4 [2; 2]; complete_trial 3 [4; 1]]).
Proof.
  intros (front & E & H).
  vm_compute in E. injection E as <-.
  assert (I : In (complete_trial 1 [2; 3])
                [complete_trial 0 [1; 4]; complete_trial 1 [2; 3];
                 complete_trial 4 [2; 2]; complete_trial 3 [4; 1]])
    by (right; left; reflexivity).
  apply H in I. vm_compute in I.
  repeat (destruct I as [I|I]; [discriminate I|]). exact I.
Qed.

(** C5, amended: for scenario A the extraction returns exactly the records
    [(1,4)], [(4,1)] and [(2,2)], in arrival order; [(2,3)] and [(3,2)] are
    both dominated by [(2,2)].  The mask of [_is_pareto_front_2d] on the
    sorted vectors marks the same three. *)
Theorem scenario_A_front :
  _get_pareto_front_trials_by_trials scenario_A [MINIMIZE; MINIMIZE] false
  = Ret [complete_trial 0 [1; 4]; complete_trial 3 [4; 1]; complete_trial 4 [2; 2]] /\
  _dominates (complete_trial 4 [2; 2]) (complete_trial 1 [2; 3]) [MINIMIZE; MINIMIZE]
  = Ret true /\
  _dominates (complete_trial 4 [2; 2]) (complete_trial 2 [3; 2]) [MINIMIZE; MINIMIZE]
  = Ret true /\
  _is_pareto_front_2d (array_of 2 [[1; 4]; [2; 2]; [2; 3]; [3; 2]; [4; 1]])
  = [true; true; false; false; true].
Proof. repeat split; reflexivity. Qed.

(** C6 fails as stated: the ranks of [5, 3, 3, 7] are not [2, 0, 0, 3]. *)
Lemma scenario_B_is_not_2003 :
  ~ (exists fuel, _calculate_nondomination_rank fuel scenario_B None = Ret [2; 0; 0; 3]).
Proof. intros (fuel & E). vm_compute in E. discriminate E. Qed.

(** C6, amended: for the single-objective input [5, 3, 3, 7] with no
    [n_below] the rank calculator returns the dense ranks [1, 0, 0, 2]. *)
Theorem scenario_B_dense_rank fuel :
  _calculate_nondomination_rank fuel scenario_B None = Ret [1; 0; 0; 2].
Proof. reflexivity. Qed.

(** C7 fails as stated: with [n_below = 1] the chain [(0,0)], [(1,1)],
    [(2,2)] gets the ranks [0, 1, 1]; [(1,1)] dominates [(2,2)] and is not
    ranked below it. *)
Lemma truncated_rank_not_monotone :
  ~ (forall ranks,
       _calculate_nondomination_rank 3 chain3 (Some 1) = Ret ranks ->
       forall i j, (i < 3)%nat -> (j < 3)%nat ->
         dominates (nth i (rows chain3) []) (nth j (rows chain3) []) = true ->
         nth i ranks 0 < nth j ranks 0).
Proof.
  intros H. specialize (H [0; 1; 1] eq_refl 1%nat 2%nat).
  cbn in H. assert (1 < 1); [apply H; auto; lia | lia].
Qed.

Lemma chain3_good : Forall (good 2) (rows chain3).
Proof. repeat constructor. Defined.

(** C8 fails as stated: with one objective the budget is not looked at;
    for the values 1, 2, 3 and [n_below = 1] the ranks are [0, 1, 2], and
    whatever rank is taken as the final one, two distinct ranks lie below. *)
Lemma single_objective_ignores_budget :
  ~ (forall ranks,
       _calculate_nondomination_rank 1 line3 (Some 1) = Ret ranks ->
       exists r, Forall (fun x => x <= r) ranks /\
                 (layers_below r ranks <= Z.to_nat 1)%nat).
Proof.
  intros H. destruct (H [0; 1; 2] eq_refl) as (r & F & L).
  assert (R2 : 2 <= r).
  { inversion F as [|? ? _ F1]; inversion F1 as [|? ? _ F2]; inversion F2; auto. }
  unfold layers_below in L. cbn [List.filter] in L.
  destruct (Z.ltb_spec 0 r); [|lia]. destruct (Z.ltb_spec 1 r); [|lia].
  destruct (2 <? r); cbn in L; lia.
Qed.

(** C9 (the mask is to be returned for every deduplicated, ordered array,
    the three variants agreeing).  On the empty array the two-objective and
    the general variant return the empty mask; the one-objective variant
    reads row 0 of the array and raises IndexError. *)
Theorem empty_front_one_objective_raises :
  _is_pareto_front (mk_ndarray 1 []) = Raise IndexError /\
  (forall d, _is_pareto_front (mk_ndarray (2 + d) []) = Ret []) /\
  _is_pareto_front (mk_ndarray 0 []) = Ret [].
Proof.
  split; [reflexivity|]. split; [|reflexivity].
  intros [|d]; reflexivity.
Qed.

(** C10: shape mismatches are rejected.  [_dominates] on two COMPLETE
    records raises when the two value vectors differ in length or when
    their length differs from the number of directions, and
    [_fast_non_dominated_sort] raises, before anything is ranked, when the
    penalty array and the loss vectors differ in length. *)
Theorem shape_mismatch_rejected
    trial0 trial1 directions values0 values1 et fuel loss_values penalty n_below :
  state trial0 = COMPLETE -> state trial1 = COMPLETE ->
  values trial0 = Some values0 -> values trial1 = Some values1 ->
  (List.length values0 <> List.length values1 \/
   List.length values0 <> List.length directions) ->
  List.length penalty <> List.length (rows loss_values) ->
  _dominates trial0 trial1 directions = Raise ValueError /\
  _fast_non_dominated_sort et fuel loss_values (Some penalty) n_below = Raise ValueError.
Proof.
  intros S0 S1 V0 V1 M P. split.
  - unfold _dominates. rewrite S0, S1, V0, V1. cbn [TrialState_eqb negb].
    destruct (Nat.eqb_spec (List.length values0) (List.length values1)); cbn [negb]; auto.
    destruct (Nat.eqb_spec (List.length values0) (List.length directions)); cbn [negb]; auto.
    destruct M; contradiction.
  - unfold _fast_non_dominated_sort.
    destruct (Nat.eqb_spec (List.length penalty) (List.length (rows loss_values)));
      [contradiction | reflexivity].
Qed.

Lemma shape_mismatch_rejected_witness :
  _dominates (complete_trial 0 [1; 4]) (complete_trial 1 [2; 3])
    [MINIMIZE; MINIMIZE; MINIMIZE] = Raise ValueError /\
  _fast_non_dominated_sort (Ret false) 0 pair2 (Some [Float.of_Z 0]) None
  = Raise ValueError.
Proof.
  apply (shape_mismatch_rejected (complete_trial 0 [1; 4]) (complete_trial 1 [2; 3])
           [MINIMIZE; MINIMIZE; MINIMIZE]
           [Some (Float.of_Z 1); Some (Float.of_Z 4)]
           [Some (Float.of_Z 2); Some (Float.of_Z 3)]
           (Ret false) 0 pair2 [Float.of_Z 0] None).
  - reflexivity.
  - reflexivity.
  - reflexivity.
  - reflexivity.
  - right. cbn. lia.
  - cbn. lia.
Defined.

(* ================================================================== *)
(** ** Further properties: the dominance predicate *)

Section VectorOrder.

Import FloatFacts.

Lemma row_leb_antisym : forall a b,
  List.length a = List.length b ->
  row_leb a b = true -> row_leb b a = true -> row_eqb a b = true.
Proof.
  induction a as [|x a IH]; intros [|y b] L; try discriminate; auto.
  rewrite !row_leb_cons. cbn [row_eqb]. intros [A1 A2]%andb_true_iff [B1 B2]%andb_true_iff.
  rewrite eqb_leb, A1, B1. cbn. apply IH; auto.
Qed.

Lemma row_eqb_row_leb : forall a b,
  row_eqb a b = true ->
  List.length a = List.length b /\ row_leb a b = true /\ row_leb b a = true.
Proof.
  induction a as [|x a IH]; intros [|y b]; cbn [row_eqb]; try discriminate; auto.
  intros [E1 E2]%andb_true_iff. rewrite eqb_leb in E1.
  apply andb_true_iff in E1. destruct E1 as [E1 E1'].
  destruct (IH b E2) as (L & A & B).
  rewrite !row_leb_cons, E1, E1', A, B. cbn. auto.
Qed.

Lemma row_leb_trans_len : forall a b c,
  List.length a = List.length b -> List.length b = List.length c ->
  row_leb a b = true -> row_leb b c = true -> row_leb a c = true.
Proof.
  induction a as [|x a IH]; intros [|y b] [|z c] L1 L2; try discriminate; auto.
  rewrite !row_leb_cons. intros [A1 A2]%andb_true_iff [B1 B2]%andb_true_iff.
  rewrite (leb_trans _ _ _ A1 B1). cbn. apply (IH b c); auto.
Qed.

Lemma dominates_irrefl_len a : dominates a a = false.
Proof.
  unfold dominates. destruct (row_leb a a) eqn:E; auto.
  now rewrite (row_leb_antisym a a eq_refl E E).
Qed.

Lemma dominates_asym_len a b :
  List.length a = List.length b -> dominates a b = true -> dominates b a = false.
Proof.
  unfold dominates. intros L [A N]%andb_true_iff.
  destruct (row_leb b a) eqn:E; auto.
  rewrite (row_leb_antisym a b L A E) in N. discriminate.
Qed.

Lemma dominates_trans_len a b c :
  List.length a = List.length b -> List.length b = List.length c ->
  dominates a b = true -> dominates b c = true -> dominates a c = true.
Proof.
  unfold dominates. intros L1 L2 [A N]%andb_true_iff [B M]%andb_true_iff.
  rewrite (row_leb_trans_len a b c L1 L2 A B). cbn.
  destruct (row_eqb a c) eqn:E; auto.
  destruct (row_eqb_row_leb a c E) as (_ & _ & C).
  assert (X : row_leb b a = true) by (apply (row_leb_trans_len b c a); auto; congruence).
  rewrite (row_leb_antisym a b L1 A X) in N. discriminate.
Qed.

Lemma leb_neg x y : Float.leb (Float.neg x) (Float.neg y) = Float.leb y x.
Proof.
  destruct x as [| |p|], y as [| |q|]; try reflexivity.
  cbn [Float.neg].
  destruct (Float.leb (Fin q) (Fin p)) eqn:E.
  - apply leb_iff. apply leb_iff in E. lra.
  - destruct (Float.leb (Fin (- p)) (Fin (- q))) eqn:F; auto.
    apply leb_iff in F. assert (X : (q <= p)%Q) by lra.
    apply leb_iff in X. congruence.
Qed.

End VectorOrder.

Section Dominates.

Variable directions : list StudyDirection.

Lemma length_normalized vs :
  List.length vs = List.length directions ->
  List.length (normalized directions vs) = List.length directions.
Proof.
  intros L. unfold normalized. rewrite length_map, length_combine. lia.
Qed.

(** On two COMPLETE records with one value per direction, [_dominates] is
    the dominance of the normalized vectors. *)
Lemma dominates_shaped t0 t1 v0 v1 :
  state t0 = COMPLETE -> state t1 = COMPLETE ->
  values t0 = Some v0 -> values t1 = Some v1 ->
  List.length v0 = List.length directions ->
  List.length v1 = List.length directions ->
  _dominates t0 t1 directions
  = Ret (dominates (normalized directions v0) (normalized directions v1)).
Proof.
  intros S0 S1 V0 V1 L0 L1. unfold _dominates.
  rewrite S0, S1, V0, V1, L0, L1, Nat.eqb_refl. cbn [TrialState_eqb negb].
  fold (normalized directions v0) (normalized directions v1).
  fold (row_leb (normalized directions v0) (normalized directions v1)).
  unfold dominates.
  destruct (row_eqb _ _); cbn; [now rewrite andb_false_r | now rewrite andb_true_r].
Qed.

Lemma state_complete t : TrialState_eqb (state t) COMPLETE = true <-> state t = COMPLETE.
Proof. destruct (state t); cbn; split; congruence. Qed.

(** What [_dominates ... = True] tells. *)
Lemma dominates_true_inv t0 t1 :
  _dominates t0 t1 directions = Ret true ->
  state t0 = COMPLETE /\
  (state t1 <> COMPLETE \/
   state t1 = COMPLETE /\
   exists v0 v1,
     values t0 = Some v0 /\ values t1 = Some v1 /\
     List.length v0 = List.length directions /\
     List.length v1 = List.length directions /\
     dominates (normalized directions v0) (normalized directions v1) = true).
Proof.
  intros H.
  destruct (TrialState_eqb (state t0) COMPLETE) eqn:S0.
  2:{ unfold _dominates in H. rewrite S0 in H. discriminate. }
  apply state_complete in S0. split; auto.
  destruct (TrialState_eqb (state t1) COMPLETE) eqn:S1.
  2:{ left. intros X. apply state_complete in X. congruence. }
  apply state_complete in S1. right. split; auto.
  pose proof H as H0.
  unfold _dominates in H. rewrite S0, S1 in H. cbn [TrialState_eqb negb] in H.
  destruct (values t0) as [v0|] eqn:V0; [|discriminate].
  destruct (values t1) as [v1|] eqn:V1; [|discriminate].
  destruct (Nat.eqb_spec (List.length v0) (List.length v1)) as [L|]; [|discriminate].
  destruct (Nat.eqb_spec (List.length v0) (List.length directions)) as [L'|]; [|discriminate].
  clear H.
  assert (L1 : List.length v1 = List.length directions) by congruence.
  rewrite (dominates_shaped t0 t1 v0 v1 S0 S1 V0 V1 L' L1) in H0.
  exists v0, v1. repeat split; auto. congruence.
Qed.

End Dominates.

(** X1. No record dominates itself: [_dominates(t, t, directions)] is
    never [True], whatever the state and the values of [t]. *)
Theorem dominates_irreflexive t directions :
  _dominates t t directions <> Ret true.
Proof.
  intros H. destruct (dominates_true_inv directions t t H) as [S [N|(_ & v0 & v1 & V0 & V1 & _ & _ & D)]].
  - contradiction.
  - assert (v0 = v1) as -> by congruence.
    rewrite dominates_irrefl_len in D. discriminate.
Qed.

(** X2. Dominance is antisymmetric: two records never dominate each other. *)
Theorem dominates_antisymmetric t0 t1 directions :
  _dominates t0 t1 directions = Ret true ->
  _dominates t1 t0 directions <> Ret true.
Proof.
  intros H H'.
  destruct (dominates_true_inv directions t0 t1 H) as [S0 [N|(S1 & v0 & v1 & V0 & V1 & L0 & L1 & D)]].
  - destruct (dominates_true_inv directions t1 t0 H') as [S1 _]. contradiction.
  - rewrite (dominates_shaped directions t1 t0 v1 v0) in H'; auto.
    rewrite dominates_asym_len in H'; auto; [discriminate|].
    rewrite !length_normalized; auto.
Qed.

Lemma dominates_antisymmetric_witness :
  _dominates (complete_trial 1 [2; 3]) (complete_trial 4 [2; 2]) [MINIMIZE; MINIMIZE]
  <> Ret true.
Proof.
  apply (dominates_antisymmetric (complete_trial 4 [2; 2]) (complete_trial 1 [2; 3])
           [MINIMIZE; MINIMIZE]).
  reflexivity.
Defined.

(** X3. Dominance is transitive, also across records that are not
    COMPLETE: if [t0] dominates [t1] and [t1] dominates [t2], then [t0]
    dominates [t2]. *)
Theorem dominates_transitive t0 t1 t2 directions :
  _dominates t0 t1 directions = Ret true ->
  _dominates t1 t2 directions = Ret true ->
  _dominates t0 t2 directions = Ret true.
Proof.
  intros H H'.
  destruct (dominates_true_inv directions t1 t2 H') as [S1 X].
  destruct (dominates_true_inv directions t0 t1 H) as [S0 [N|(_ & v0 & v1 & V0 & V1 & L0 & L1 & D)]];
    [contradiction|].
  destruct X as [N|(S2 & v1' & v2 & V1' & V2 & _ & L2 & D')].
  - unfold _dominates. rewrite S0. cbn [TrialState_eqb negb].
    destruct (TrialState_eqb (state t2) COMPLETE) eqn:E; auto.
    apply state_complete in E. contradiction.
  - assert (v1' = v1) as -> by congruence.
    rewrite (dominates_shaped directions t0 t2 v0 v2); auto. f_equal.
    apply (dominates_trans_len _ (normalized directions v1)); auto;
      rewrite !length_normalized; auto.
Qed.

Lemma dominates_transitive_witness :
  _dominates (complete_trial 0 [0; 0]) (complete_trial 2 [2; 2]) [MINIMIZE; MINIMIZE]
  = Ret true.
Proof.
  apply (dominates_transitive (complete_trial 0 [0; 0]) (complete_trial 1 [1; 1])
           (complete_trial 2 [2; 2]) [MINIMIZE; MINIMIZE]); reflexivity.
Defined.

(** X4. Normalization turns "better" into "lower": under MAXIMIZE the
    normalized values compare in the reverse order of the raw values,
    under MINIMIZE in the same order. *)
Theorem normalize_orders x y :
  Float.leb (_normalize_value (Some x) MAXIMIZE) (_normalize_value (Some y) MAXIMIZE)
  = Float.leb y x /\
  Float.leb (_normalize_value (Some x) MINIMIZE) (_normalize_value (Some y) MINIMIZE)
  = Float.leb x y.
Proof. split; [apply leb_neg | reflexivity]. Qed.

(* ================================================================== *)
(** ** Further properties: the front extractors *)

Lemma filter_comm {A : Type} (f g : A -> bool) (l : list A) :
  List.filter f (List.filter g l) = List.filter g (List.filter f l).
Proof.
  induction l as [|x l IH]; cbn; auto.
  destruct (f x) eqn:F, (g x) eqn:G; cbn; rewrite ?F, ?G, IH; reflexivity.
Qed.

Lemma filter_idem {A : Type} (f : A -> bool) (l : list A) :
  List.filter f (List.filter f l) = List.filter f l.
Proof.
  induction l as [|x l IH]; cbn; auto.
  destruct (f x) eqn:F; cbn; rewrite ?F, IH; reflexivity.
Qed.

Lemma candidates_complete trials cc :
  Forall (fun t => state t = COMPLETE) (candidates trials cc).
Proof.
  apply Forall_forall. intros t I. unfold candidates, _get_feasible_trials in I.
  destruct cc; [apply filter_In in I; destruct I as [I _]|];
    apply filter_In in I; destruct I as [_ I]; now apply state_complete.
Qed.

Lemma candidates_feasible trials :
  candidates trials true = candidates (_get_feasible_trials trials) false.
Proof. unfold candidates, _get_feasible_trials. apply filter_comm. Qed.

(** X5. Considering the constraints is extracting the front of the
    feasible records: [consider_constraint=True] gives what the call
    without it gives on [_get_feasible_trials(trials)], errors included. *)
Theorem constrained_front_is_front_of_feasible trials directions :
  _get_pareto_front_trials_by_trials trials directions true
  = _get_pareto_front_trials_by_trials (_get_feasible_trials trials) directions false.
Proof.
  pose proof (candidates_feasible trials) as E. unfold candidates in E.
  unfold _get_pareto_front_trials_by_trials, _get_pareto_front_trials_2d,
    _get_pareto_front_trials_nd.
  rewrite E. reflexivity.
Qed.

Section QuadraticFront.

Variable directions : list StudyDirection.

Lemma trial_row_shaped t v :
  values t = Some v -> trial_row directions t = normalized directions v.
Proof. unfold trial_row. now intros ->. Qed.

Lemma dominates_candidates o t :
  state o = COMPLETE -> state t = COMPLETE ->
  shaped directions o -> shaped directions t ->
  _dominates o t directions
  = Ret (dominates (trial_row directions o) (trial_row directions t)).
Proof.
  intros So St (vo & Vo & Lo) (vt & Vt & Lt).
  rewrite (trial_row_shaped o vo Vo), (trial_row_shaped t vt Vt).
  now apply dominates_shaped.
Qed.

Lemma dominated_by_any_correct others t :
  Forall (fun o => state o = COMPLETE /\ shaped directions o) others ->
  state t = COMPLETE -> shaped directions t ->
  dominated_by_any directions others t
  = Ret (existsb (fun o => dominates (trial_row directions o) (trial_row directions t))
           others).
Proof.
  intros F St Sh. induction F as [|o others [So Sho] F IH]; [reflexivity|].
  cbn [dominated_by_any existsb]. rewrite dominates_candidates by auto.
  cbn [bind]. destruct (dominates _ _); auto.
Qed.

Lemma front_nd_correct all todo :
  Forall (fun o => state o = COMPLETE /\ shaped directions o) all ->
  Forall (fun o => state o = COMPLETE /\ shaped directions o) todo ->
  front_nd directions all todo = Ret (List.filter (on_front directions all) todo).
Proof.
  intros Fa Ft. induction Ft as [|t todo [St Sh] Ft IH]; [reflexivity|].
  cbn [front_nd List.filter]. rewrite dominated_by_any_correct by auto.
  cbn [bind]. rewrite IH. cbn [bind].
  change (on_front directions all t)
    with (negb (existsb (fun o => dominates (trial_row directions o)
                                    (trial_row directions t)) all)).
  destruct (existsb _ all); reflexivity.
Qed.

End QuadraticFront.

Lemma candidates_ready directions trials cc :
  Forall (shaped directions) (candidates trials cc) ->
  Forall (fun o => state o = COMPLETE /\ shaped directions o) (candidates trials cc).
Proof.
  intros F. pose proof (candidates_complete trials cc) as C.
  rewrite Forall_forall in *. intros t I. auto.
Qed.

(** X6. When every COMPLETE (and, if asked for, feasible) record has one
    value per direction, the quadratic extractor returns, in the order of
    the input, exactly the records that no such record dominates. *)
Theorem quadratic_front_is_pareto_front trials directions cc :
  Forall (shaped directions) (candidates trials cc) ->
  _get_pareto_front_trials_nd trials directions cc
  = Ret (List.filter (on_front directions (candidates trials cc)) (candidates trials cc)).
Proof.
  intros F. apply candidates_ready in F.
  unfold _get_pareto_front_trials_nd. fold (candidates trials cc).
  now apply front_nd_correct.
Qed.

Lemma scenario_A_shaped :
  Forall (shaped [MINIMIZE; MINIMIZE]) (candidates scenario_A false).
Proof. repeat constructor; eexists; split; reflexivity. Defined.

Lemma quadratic_front_is_pareto_front_witness :
  _get_pareto_front_trials_nd scenario_A [MINIMIZE; MINIMIZE] false
  = Ret (List.filter (on_front [MINIMIZE; MINIMIZE] (candidates scenario_A false))
           (candidates scenario_A false)).
Proof.
  apply (quadratic_front_is_pareto_front scenario_A [MINIMIZE; MINIMIZE] false).
  exact scenario_A_shaped.
Defined.

(** *** [list.sort(key=...)] *)

Section StableSortFacts.

Context {K T : Type} (key_ltb : K -> K -> bool) (Pk : K -> Prop).

Hypothesis key_asym : forall a b, Pk a -> Pk b ->
  key_ltb a b = true -> key_ltb b a = false.
Hypothesis key_trans : forall a b c, Pk a -> Pk b -> Pk c ->
  key_ltb b a = false -> key_ltb c b = false -> key_ltb c a = false.

Let ord (x y : K * T) : Prop := key_ltb (fst y) (fst x) = false.

Lemma insert_sorted_perm (x : K * T) l :
  Permutation (insert_sorted key_ltb x l) (x :: l).
Proof.
  induction l as [|y l IH]; cbn; auto.
  destruct (key_ltb (fst x) (fst y)); auto.
  rewrite IH. apply perm_swap.
Qed.

Lemma sort_fold_perm (l : list (K * T)) : forall acc,
  Permutation (fold_left (fun acc x => insert_sorted key_ltb x acc) l acc) (acc ++ l).
Proof.
  induction l as [|x l IH]; intros acc; cbn.
  - now rewrite app_nil_r.
  - rewrite IH, insert_sorted_perm. apply Permutation_middle.
Qed.

Lemma sort_by_key_perm (l : list (K * T)) : Permutation (sort_by_key key_ltb l) l.
Proof. apply (sort_fold_perm l []). Qed.

Lemma insert_sorted_sorted (x : K * T) l :
  Pk (fst x) -> Forall (fun y => Pk (fst y)) l ->
  StronglySorted ord l -> StronglySorted ord (insert_sorted key_ltb x l).
Proof.
  intros Px F Hs. induction Hs as [|y l Hs IH Fy]; cbn.
  - repeat constructor.
  - inversion F as [|? ? Py Fl]; subst.
    destruct (key_ltb (fst x) (fst y)) eqn:E.
    + constructor; [now constructor|]. constructor.
      * now apply key_asym.
      * rewrite Forall_forall in *. intros z Iz.
        apply (key_trans (fst x) (fst y) (fst z));
          [ | | | apply key_asym | exact (Fy z Iz)]; auto.
    + constructor; auto.
      apply Forall_forall. intros z Iz.
      apply (Permutation_in _ (insert_sorted_perm x l)) in Iz.
      destruct Iz as [<-|Iz]; [exact E|].
      rewrite Forall_forall in Fy. exact (Fy z Iz).
Qed.

Lemma sort_fold_sorted (l : list (K * T)) : forall acc,
  Forall (fun y => Pk (fst y)) l -> Forall (fun y => Pk (fst y)) acc ->
  StronglySorted ord acc ->
  StronglySorted ord (fold_left (fun acc x => insert_sorted key_ltb x acc) l acc).
Proof.
  induction l as [|x l IH]; intros acc Fl Fa Hs; cbn; auto.
  inversion Fl; subst. apply IH; auto.
  - apply Forall_forall. intros z Iz.
    apply (Permutation_in _ (insert_sorted_perm x acc)) in Iz.
    destruct Iz as [<-|Iz]; auto. rewrite Forall_forall in Fa. auto.
  - now apply insert_sorted_sorted.
Qed.

Lemma sort_by_key_sorted (l : list (K * T)) :
  Forall (fun y => Pk (fst y)) l -> StronglySorted ord (sort_by_key key_ltb l).
Proof. intros F. apply sort_fold_sorted; auto. constructor. Qed.

End StableSortFacts.

Lemma filter_perm {A : Type} (f : A -> bool) (l l' : list A) :
  Permutation l l' -> Permutation (List.filter f l) (List.filter f l').
Proof.
  induction 1 as [|x l l' P IH|x y l|l l' l'' P1 IH1 P2 IH2]; cbn; auto.
  - destruct (f x); auto.
  - destruct (f x), (f y); auto. apply perm_swap.
  - now rewrite IH1.
Qed.

Lemma existsb_perm {A : Type} (f : A -> bool) (l l' : list A) :
  Permutation l l' -> existsb f l = existsb f l'.
Proof.
  induction 1 as [|x l l' P IH|x y l|l l' l'' P1 IH1 P2 IH2]; cbn; auto.
  - now rewrite IH.
  - destruct (f x), (f y); auto.
  - congruence.
Qed.

Lemma StronglySorted_app_cross {A : Type} (R : A -> A -> Prop) (l1 l2 : list A) :
  StronglySorted R (l1 ++ l2) ->
  StronglySorted R l2 /\ forall a b, In a l1 -> In b l2 -> R a b.
Proof.
  induction l1 as [|x l1 IH]; cbn; intros Hs.
  - split; auto. intros a b [].
  - inversion Hs as [|? ? Hs' F]; subst. destruct (IH Hs') as [S2 C].
    split; auto. intros a b [<-|Ia] Ib; auto.
    rewrite Forall_forall in F. apply F, in_app_iff. now right.
Qed.

Lemma StronglySorted_filter {A : Type} (R : A -> A -> Prop) (f : A -> bool) (l : list A) :
  StronglySorted R l -> StronglySorted R (List.filter f l).
Proof. intros Hs. rewrite <- select_filter. now apply StronglySorted_select. Qed.

(** Two arrangements of the same records, one in increasing and one in
    non-decreasing order of a number, are the same list. *)
Lemma sorted_perm_unique {A : Type} (num : A -> Z) : forall l1 l2 : list A,
  StronglySorted (fun a b => num a < num b) l1 ->
  StronglySorted (fun a b => num a <= num b) l2 ->
  Permutation l1 l2 -> l1 = l2.
Proof.
  induction l1 as [|a l1 IH]; intros l2 S1 S2 P.
  - apply Permutation_nil in P. now subst.
  - destruct l2 as [|b l2]; [apply Permutation_sym, Permutation_nil in P; discriminate|].
    inversion S1 as [|? ? S1' F1]; inversion S2 as [|? ? S2' F2]; subst.
    rewrite Forall_forall in F1, F2.
    assert (a = b) as <-.
    { assert (Ia : In a (b :: l2)) by (apply (Permutation_in _ P); now left).
      assert (Ib : In b (a :: l1)) by (apply (Permutation_in _ (Permutation_sym P)); now left).
      destruct Ib as [|Ib]; auto. destruct Ia as [|Ia]; auto.
      specialize (F1 b Ib). specialize (F2 a Ia). lia. }
    f_equal. apply IH; auto. now apply Permutation_cons_inv in P.
Qed.

(** *** The two-objective sweep *)

Section Sweep.

Import FloatFacts.

Variables d0 d1 : StudyDirection.

Let dirs : list StudyDirection := [d0; d1].
Let rw (t : FrozenTrial) : row := trial_row dirs t.
Let key2 (t : FrozenTrial) : float * float := (nth 0 (rw t) NaN, nth 1 (rw t) NaN).
Let ready (t : FrozenTrial) : Prop :=
  state t = COMPLETE /\ shaped dirs t /\ good 2 (rw t).
Let before (a b : FrozenTrial) : Prop := row_ltb (rw b) (rw a) = false.

Lemma row_ltb_false_dominates d a b :
  good d a -> good d b -> row_ltb a b = false -> dominates a b = false.
Proof.
  intros Ga Gb L. destruct (dominates a b) eqn:D; auto.
  apply (dominates_row_ltb d) in D; auto. congruence.
Qed.

Lemma before_first_leb a b :
  good 2 a -> good 2 b -> row_ltb b a = false ->
  Float.leb (nth 0 a NaN) (nth 0 b NaN) = true.
Proof.
  intros Ga Gb L.
  destruct (good_2_inv a Ga) as (x & y & -> & Nx & Ny).
  destruct (good_2_inv b Gb) as (x' & y' & -> & Nx' & Ny').
  cbn [nth]. cbn in L.
  destruct (ltb_eqb_cases x x' Nx Nx') as [(E1 & E2 & E3)|[(E1 & E2 & E3)|(E1 & E2 & E3)]].
  - now apply ltb_leb.
  - rewrite eqb_leb in E2. now apply andb_true_iff in E2.
  - rewrite E3 in L. discriminate.
Qed.

Lemma dominates_second a b :
  good 2 a -> good 2 b -> dominates a b = true ->
  Float.leb (nth 1 a NaN) (nth 1 b NaN) = true.
Proof.
  intros Ga Gb D. apply dominates_leb in D.
  destruct (good_2_inv a Ga) as (x & y & -> & Nx & Ny).
  destruct (good_2_inv b Gb) as (x' & y' & -> & Nx' & Ny').
  unfold row_leb in D. cbn in D. cbn [nth].
  apply andb_true_iff in D. destruct D as [_ D].
  now apply andb_true_iff in D.
Qed.

(** The last accepted record [l] comes before [t] and does not dominate
    it: then [t] is equal to [l] or has the smaller second value. *)
Lemma sweep_accept l t :
  good 2 l -> good 2 t -> row_ltb t l = false -> dominates l t = false ->
  row_eqb l t = true \/
  (row_leb l t = false /\ Float.ltb (nth 1 t NaN) (nth 1 l NaN) = true).
Proof.
  intros Gl Gt B D.
  pose proof (before_first_leb l t Gl Gt B) as F.
  destruct (row_eqb l t) eqn:E; auto. right.
  unfold dominates in D. rewrite E, andb_true_r in D. split; auto.
  destruct (good_2_inv l Gl) as (x & y & -> & Nx & Ny).
  destruct (good_2_inv t Gt) as (x' & y' & -> & Nx' & Ny').
  unfold row_leb in D. cbn in D, F. cbn [nth]. rewrite F, andb_true_r in D. cbn in D.
  rewrite ltb_negb_leb by auto. now rewrite D.
Qed.

Lemma sweep_new_min l t :
  good 2 l -> good 2 t -> row_ltb t l = false -> dominates l t = false ->
  Float.leb (nth 1 t NaN) (nth 1 l NaN) = true.
Proof.
  intros Gl Gt B D.
  destruct (sweep_accept l t Gl Gt B D) as [E|[_ L]]; [|now apply ltb_leb].
  destruct (good_2_inv l Gl) as (x & y & -> & Nx & Ny).
  destruct (good_2_inv t Gt) as (x' & y' & -> & Nx' & Ny').
  cbn in E. cbn [nth]. apply andb_true_iff in E. destruct E as [_ E].
  rewrite andb_true_r, eqb_leb in E. now apply andb_true_iff in E.
Qed.

Lemma sweep_no_dominator l t e :
  good 2 l -> good 2 t -> good 2 e ->
  row_ltb t l = false -> dominates l t = false ->
  Float.leb (nth 1 l NaN) (nth 1 e NaN) = true ->
  dominates e t = true -> dominates e l = true.
Proof.
  intros Gl Gt Ge B D M De.
  destruct (sweep_accept l t Gl Gt B D) as [E|[L _]].
  - apply (dominates_compat 2 e e t l); auto.
    + now apply (row_eqb_refl 2).
    + now rewrite (row_eqb_sym 2).
  - exfalso.
    pose proof (before_first_leb l t Gl Gt B) as F.
    pose proof (dominates_second e t Ge Gt De) as S.
    pose proof (leb_trans _ _ _ M S) as X.
    destruct (good_2_inv l Gl) as (x & y & -> & Nx & Ny).
    destruct (good_2_inv t Gt) as (x' & y' & -> & Nx' & Ny').
    unfold row_leb in L. cbn in L, F, X. rewrite F, X in L. discriminate.
Qed.

Lemma sort_key_ready t : ready t -> sort_key dirs t = Ret (key2 t).
Proof.
  intros (_ & (vs & V & L) & _). unfold sort_key, key2, rw, trial_row. rewrite V.
  destruct vs as [|v0 [|v1 [|v2 vs]]]; try discriminate. reflexivity.
Qed.

Lemma pair_ltb_key t u :
  ready t -> ready u -> pair_ltb (key2 t) (key2 u) = row_ltb (rw t) (rw u).
Proof.
  intros (_ & _ & Gt) (_ & _ & Gu). unfold key2.
  destruct (good_2_inv _ Gt) as (x & y & -> & Nx & Ny).
  destruct (good_2_inv _ Gu) as (x' & y' & -> & Nx' & Ny').
  unfold pair_ltb. cbn.
  destruct (ltb_eqb_cases x x' Nx Nx') as [(E1 & E2 & E3)|[(E1 & E2 & E3)|(E1 & E2 & E3)]];
    rewrite E1, E2; auto.
  destruct (Float.ltb y y'); auto. destruct (Float.eqb y y'); auto.
Qed.

Lemma keyed_returns cand :
  Forall ready cand ->
  mapM (fun t => k <- sort_key dirs t ;; Ret (k, t)) cand
  = Ret (map (fun t => (key2 t, t)) cand).
Proof.
  induction 1 as [|t cand R F IH]; [reflexivity|].
  cbn [mapM map]. rewrite sort_key_ready by auto. cbn [bind]. rewrite IH. reflexivity.
Qed.

(** The records sorted by key: the same records, none before one with a
    smaller row. *)
Lemma sorted_by_key cand :
  Forall ready cand ->
  let S := map snd (sort_by_key pair_ltb (map (fun t => (key2 t, t)) cand)) in
  Permutation S cand /\ StronglySorted before S.
Proof.
  intros F S.
  set (keyed := map (fun t => (key2 t, t)) cand).
  pose proof (sort_by_key_perm pair_ltb keyed) as P.
  assert (Fk : Forall (fun p => fst p = key2 (snd p) /\ ready (snd p)) keyed).
  { apply Forall_forall. intros p (t & <- & I)%in_map_iff. cbn. split; auto.
    rewrite Forall_forall in F. auto. }
  assert (Fs : Forall (fun p => fst p = key2 (snd p) /\ ready (snd p))
                 (sort_by_key pair_ltb keyed)).
  { apply Forall_forall. intros p I. apply (Permutation_in _ P) in I.
    rewrite Forall_forall in Fk. auto. }
  split.
  - unfold S. fold keyed. rewrite P. unfold keyed. rewrite map_map. cbn. now rewrite map_id.
  - assert (Hs : StronglySorted (fun x y => pair_ltb (fst y) (fst x) = false)
                   (sort_by_key pair_ltb keyed)).
    { apply (sort_by_key_sorted pair_ltb
               (fun k => exists t, ready t /\ k = key2 t)).
      - intros a b (t & Rt & ->) (u & Ru & ->). rewrite !pair_ltb_key by auto.
        destruct Rt as (_ & _ & Gt), Ru as (_ & _ & Gu).
        destruct (row_cases 2 _ _ Gt Gu) as [(E1 & E2 & E3)|[(E1 & E2 & E3)|(E1 & E2 & E3)]];
          congruence.
      - intros a b c (t & Rt & ->) (u & Ru & ->) (w & Rw & ->).
        rewrite !pair_ltb_key by auto.
        destruct Rt as (_ & _ & Gt), Ru as (_ & _ & Gu), Rw as (_ & _ & Gw).
        intros A B.
        destruct (row_ltb (rw w) (rw t)) eqn:C; auto.
        destruct (row_cases 2 _ _ Gw Gu) as [(E1 & E2 & E3)|[(E1 & E2 & E3)|(E1 & E2 & E3)]];
          try congruence.
        + rewrite (row_eqb_sym 2) in E2 by auto.
          rewrite (row_eqb_ltb_trans 2 (rw u) (rw w) (rw t)) in A; auto.
        + rewrite (row_ltb_trans 2 (rw u) (rw w) (rw t)) in A; auto.
      - apply Forall_forall. intros p (t & <- & I)%in_map_iff. cbn.
        exists t. split; auto. rewrite Forall_forall in F. auto. }
    unfold S. fold keyed. clear P.
    induction Hs as [|p l Hs IH Fp]; cbn; constructor.
    + apply IH. now inversion Fs.
    + inversion Fs as [|? ? [Kp Rp] Fl]; subst.
      apply Forall_forall. intros u (q & <- & Iq)%in_map_iff.
      rewrite Forall_forall in Fp, Fl. specialize (Fp q Iq). destruct (Fl q Iq) as [Kq Rq].
      unfold before. rewrite <- pair_ltb_key by auto. now rewrite <- Kp, <- Kq.
Qed.

(** The sweep over the sorted records [S = P ++ rest]: with [l] the last
    accepted record, which has the least second value of [P], the records
    appended are those of [rest] that no record dominates. *)
Lemma sweep_correct S : Forall ready S -> StronglySorted before S ->
  forall rest P l F,
    S = P ++ rest -> In l P -> on_front dirs S l = true ->
    (forall e, In e P -> Float.leb (nth 1 (rw l) NaN) (nth 1 (rw e) NaN) = true) ->
    sweep_2d dirs l F rest = Ret (F ++ List.filter (on_front dirs S) rest).
Proof.
  intros R Hs. pose proof R as R'. rewrite Forall_forall in R'.
  induction rest as [|t rest IH]; intros P l F E Il Nl M.
  - cbn. now rewrite app_nil_r.
  - assert (It : In t S) by (rewrite E; apply in_app_iff; right; now left).
    assert (IP : forall e, In e P -> In e S) by (intros e I; rewrite E; apply in_app_iff; auto).
    destruct (R' l (IP l Il)) as (Sl & Shl & Gl).
    destruct (R' t It) as (St & Sht & Gt).
    rewrite E in Hs. destruct (StronglySorted_app_cross _ _ _ Hs) as [Hs2 C].
    assert (Bl : row_ltb (rw t) (rw l) = false) by (apply (C l t); auto; now left).
    cbn [sweep_2d List.filter]. rewrite dominates_candidates by auto.
    cbn [bind]. fold (rw l) (rw t).
    assert (E' : S = (P ++ [t]) ++ rest) by (rewrite <- app_assoc; exact E).
    destruct (dominates (rw l) (rw t)) eqn:D.
    + assert (on_front dirs S t = false) as ->.
      { unfold on_front. apply negb_false_iff, existsb_exists. exists l. split; auto. }
      apply (IH (P ++ [t])); auto.
      * apply in_app_iff. now left.
      * intros e [I|[<-|[]]]%in_app_iff; auto.
        now apply dominates_second.
    + assert (Nt : on_front dirs S t = true).
      { unfold on_front. apply negb_true_iff.
        destruct (existsb _ S) eqn:X; auto. exfalso.
        apply existsb_exists in X. destruct X as (e & Ie & De). fold (rw e) (rw t) in De.
        destruct (R' e Ie) as (_ & _ & Ge).
        rewrite E in Ie. apply in_app_iff in Ie. destruct Ie as [Ie|[<-|Ie]].
        - assert (X : dominates (rw e) (rw l) = true)
            by (apply (sweep_no_dominator (rw l) (rw t) (rw e)); auto).
          unfold on_front in Nl. apply negb_true_iff in Nl.
          assert (Y : existsb (fun o => dominates (trial_row dirs o) (trial_row dirs l)) S = true)
            by (apply existsb_exists; exists e; split; auto).
          rewrite E in Nl at 1. rewrite <- E in Nl. congruence.
        - rewrite (dominates_irrefl 2) in De by auto. discriminate.
        - inversion Hs2 as [|? ? _ Ft]; subst. rewrite Forall_forall in Ft.
          specialize (Ft e Ie). unfold before in Ft.
          rewrite (row_ltb_false_dominates 2) in De; auto. discriminate. }
      rewrite Nt.
      replace (F ++ t :: List.filter (on_front dirs S) rest)
        with ((F ++ [t]) ++ List.filter (on_front dirs S) rest)
        by now rewrite <- app_assoc.
      apply (IH (P ++ [t])); auto.
      * apply in_app_iff. right. now left.
      * intros e [I|[<-|[]]]%in_app_iff.
        -- apply (leb_trans _ (nth 1 (rw l) NaN)); auto.
           now apply sweep_new_min.
        -- destruct (good_2_inv _ Gt) as (x & y & Et & Nx & Ny).
           rewrite Et. cbn. now apply leb_refl.
Qed.

End Sweep.

Lemma sort_by_number (F : list FrozenTrial) :
  let out := map snd (sort_by_key Z.ltb (map (fun t => (number t, t)) F)) in
  Permutation out F /\ StronglySorted (fun a b => number a <= number b) out.
Proof.
  intros out. set (keyed := map (fun t => (number t, t)) F).
  pose proof (sort_by_key_perm Z.ltb keyed) as P.
  split.
  - unfold out. fold keyed. rewrite P. unfold keyed. rewrite map_map. cbn. now rewrite map_id.
  - assert (Fs : Forall (fun p => fst p = number (snd p)) (sort_by_key Z.ltb keyed)).
    { apply Forall_forall. intros p I. apply (Permutation_in _ P) in I.
      apply in_map_iff in I. destruct I as (t & <- & _). reflexivity. }
    assert (Hs : StronglySorted (fun x y : Z * FrozenTrial => Z.ltb (fst y) (fst x) = false)
                   (sort_by_key Z.ltb keyed)).
    { apply (sort_by_key_sorted Z.ltb (fun _ => True)).
      - intros a b _ _ H. apply Z.ltb_lt in H. apply Z.ltb_ge. lia.
      - intros a b c _ _ _ H1 H2. apply Z.ltb_ge in H1, H2. apply Z.ltb_ge. lia.
      - apply Forall_forall. auto. }
    unfold out. fold keyed. clear P.
    induction Hs as [|p l Hs IH Fp]; cbn; constructor.
    + apply IH. now inversion Fs.
    + inversion Fs as [|? ? Kp Fl]; subst.
      apply Forall_forall. intros u (q & <- & Iq)%in_map_iff.
      rewrite Forall_forall in Fp, Fl. specialize (Fp q Iq). specialize (Fl q Iq).
      apply Z.ltb_ge in Fp. lia.
Qed.

(** The sweep returns the records no candidate dominates, sorted by number. *)
Lemma sweep_front trials directions cc :
  List.length directions = 2%nat ->
  Forall (fun t => shaped directions t /\ good 2 (trial_row directions t))
    (candidates trials cc) ->
  exists front,
    _get_pareto_front_trials_2d trials directions cc = Ret front /\
    Permutation front
      (List.filter (on_front directions (candidates trials cc)) (candidates trials cc)) /\
    StronglySorted (fun a b => number a <= number b) front.
Proof.
  intros L F.
  destruct directions as [|d0 [|d1 [|d2 ds]]]; try discriminate. clear L.
  set (cand := candidates trials cc) in *.
  assert (R : Forall (fun t => state t = COMPLETE /\ shaped [d0; d1] t /\
                               good 2 (trial_row [d0; d1] t)) cand).
  { pose proof (candidates_complete trials cc) as C. fold cand in C.
    rewrite Forall_forall in *. intros t I. destruct (F t I). auto. }
  unfold _get_pareto_front_trials_2d. fold (candidates trials cc). fold cand.
  destruct cand as [|c0 cand'] eqn:Ec.
  { exists []. repeat split; auto. constructor. }
  assert (NE : c0 :: cand' <> []) by discriminate.
  rewrite <- Ec in *. clear Ec c0 cand'.
  rewrite (keyed_returns d0 d1 cand R). cbn [bind].
  destruct (sorted_by_key d0 d1 cand R) as [P Hs].
  set (S := map snd (sort_by_key pair_ltb _)) in *.
  assert (RS : Forall (fun t => state t = COMPLETE /\ shaped [d0; d1] t /\
                                good 2 (trial_row [d0; d1] t)) S).
  { rewrite Forall_forall in *. intros t I. apply R. now apply (Permutation_in _ P). }
  destruct S as [|first rest] eqn:ES.
  { apply Permutation_nil in P. contradiction. }
  rewrite <- ES in *.
  assert (N1 : on_front [d0; d1] S first = true).
  { unfold on_front. apply negb_true_iff.
    destruct (existsb _ S) eqn:X; auto. exfalso.
    apply existsb_exists in X. destruct X as (e & Ie & De).
    pose proof RS as RS'. rewrite Forall_forall in RS'.
    destruct (RS' e Ie) as (_ & _ & Ge).
    assert (I1 : In first S) by (rewrite ES; now left).
    destruct (RS' first I1) as (_ & _ & G1).
    rewrite ES in Ie, Hs. destruct Ie as [<-|Ie].
    - rewrite (dominates_irrefl 2) in De by auto. discriminate.
    - inversion Hs as [|? ? _ Ft]; subst. rewrite Forall_forall in Ft.
      specialize (Ft e Ie).
      rewrite (row_ltb_false_dominates 2) in De; auto. discriminate. }
  rewrite (sweep_correct d0 d1 S RS Hs rest [first] first [first]); auto.
  2:{ now left. }
  2:{ intros e [<-|[]].
      pose proof RS as RS'. rewrite Forall_forall in RS'.
      assert (I1 : In first S) by (rewrite ES; now left).
      destruct (RS' first I1) as (_ & _ & G1).
      destruct (good_2_inv _ G1) as (x & y & E1 & Nx & Ny).
      rewrite E1. cbn. now apply FloatFacts.leb_refl. }
  cbn [bind].
  destruct (sort_by_number ([first] ++ List.filter (on_front [d0; d1] S) rest)) as [P2 S2].
  eexists. split; [reflexivity|]. split; [|exact S2].
  rewrite P2.
  assert (E1 : [first] ++ List.filter (on_front [d0; d1] S) rest
               = List.filter (on_front [d0; d1] S) S).
  { rewrite ES at 3. cbn [List.filter]. now rewrite N1. }
  rewrite E1.
  rewrite (filter_ext (on_front [d0; d1] S) (on_front [d0; d1] cand)).
  - now apply filter_perm.
  - intros t. unfold on_front. f_equal. now apply existsb_perm.
Qed.

(** X7. With two directions, when every candidate has two values and its
    normalized values are not NaN, the sorted sweep returns exactly the
    candidates that no candidate dominates, each as often as it occurs,
    in non-decreasing order of their numbers. *)
Theorem sweep_front_is_pareto_front trials directions cc :
  List.length directions = 2%nat ->
  Forall (fun t => shaped directions t /\ good 2 (trial_row directions t))
    (candidates trials cc) ->
  exists front,
    _get_pareto_front_trials_2d trials directions cc = Ret front /\
    Permutation front
      (List.filter (on_front directions (candidates trials cc)) (candidates trials cc)) /\
    StronglySorted (fun a b => number a <= number b) front.
Proof. apply sweep_front. Qed.

Lemma scenario_A_ready :
  Forall (fun t => shaped [MINIMIZE; MINIMIZE] t /\ good 2 (trial_row [MINIMIZE; MINIMIZE] t))
    (candidates scenario_A false).
Proof.
  repeat constructor; try (eexists; split; reflexivity).
Defined.

Lemma sweep_front_is_pareto_front_witness :
  exists front,
    _get_pareto_front_trials_2d scenario_A [MINIMIZE; MINIMIZE] false = Ret front /\
    Permutation front
      (List.filter (on_front [MINIMIZE; MINIMIZE] (candidates scenario_A false))
         (candidates scenario_A false)) /\
    StronglySorted (fun a b => number a <= number b) front.
Proof.
  apply (sweep_front_is_pareto_front scenario_A [MINIMIZE; MINIMIZE] false).
  - reflexivity.
  - exact scenario_A_ready.
Defined.

(** X8. The two extractors agree: with two directions and records whose
    numbers increase along the input, the sweep and the quadratic
    algorithm return the same list. *)
Theorem sweep_agrees_with_quadratic trials directions cc :
  List.length directions = 2%nat ->
  Forall (fun t => shaped directions t /\ good 2 (trial_row directions t))
    (candidates trials cc) ->
  StronglySorted (fun a b => number a < number b) trials ->
  _get_pareto_front_trials_2d trials directions cc
  = _get_pareto_front_trials_nd trials directions cc.
Proof.
  intros L F Inc.
  destruct (sweep_front trials directions cc L F) as (front & E & P & Hs).
  rewrite E.
  assert (Fn : Forall (fun o => state o = COMPLETE /\ shaped directions o)
                 (candidates trials cc)).
  { apply candidates_ready. eapply Forall_impl; [|exact F]. cbn. tauto. }
  unfold _get_pareto_front_trials_nd. fold (candidates trials cc).
  rewrite (front_nd_correct directions _ _ Fn Fn). f_equal.
  symmetry. apply (sorted_perm_unique number); auto.
  - apply StronglySorted_filter. unfold candidates, _get_feasible_trials.
    destruct cc; repeat apply StronglySorted_filter; auto.
  - now apply Permutation_sym.
Qed.

Lemma scenario_A_increasing :
  StronglySorted (fun a b => number a < number b) scenario_A.
Proof. repeat constructor. Defined.

Lemma sweep_agrees_with_quadratic_witness :
  _get_pareto_front_trials_2d scenario_A [MINIMIZE; MINIMIZE] false
  = _get_pareto_front_trials_nd scenario_A [MINIMIZE; MINIMIZE] false.
Proof.
  apply (sweep_agrees_with_quadratic scenario_A [MINIMIZE; MINIMIZE] false).
  - reflexivity.
  - exact scenario_A_ready.
  - exact scenario_A_increasing.
Defined.

(* ================================================================== *)
(** ** Further properties: the front detectors *)

(** X9. The shortcuts for one and two objectives return what the general
    detector returns: on a deduplicated, lexicographically ordered array of
    NaN-free vectors (not empty when it has one objective) [_is_pareto_front]
    and [_is_pareto_front_nd] return the same mask. *)
Theorem detectors_agree d U :
  Forall (good d) U -> lexsorted_unique U -> (U <> [] \/ d <> 1%nat) ->
  _is_pareto_front (mk_ndarray d U) = _is_pareto_front_nd (mk_ndarray d U).
Proof.
  intros G Hs NE. rewrite front_correct, (nd_front_correct d); auto.
  intros ->. destruct NE; auto.
Qed.

Lemma detectors_agree_witness :
  _is_pareto_front (mk_ndarray 2 (rows chain3))
  = _is_pareto_front_nd (mk_ndarray 2 (rows chain3)).
Proof.
  apply (detectors_agree 2 (rows chain3)).
  - exact chain3_good.
  - repeat constructor.
  - left. discriminate.
Defined.

(** In a sorted array every dominated row is dominated by a row of the
    front. *)
Lemma dominated_by_front d L :
  Forall (good d) L -> lexsorted_unique L ->
  forall u, In u L -> nondominated L u = false ->
  exists f, In f L /\ nondominated L f = true /\ dominates f u = true.
Proof.
  intros G Hs.
  assert (H : forall P S, L = P ++ S -> forall u, In u P -> nondominated L u = false ->
            exists f, In f L /\ nondominated L f = true /\ dominates f u = true).
  { induction P as [|u0 P IH] using rev_ind; intros S E u Iu N; [destruct Iu|].
    apply in_app_iff in Iu. destruct Iu as [Iu|[<-|[]]].
    - apply (IH (u0 :: S)); auto. now rewrite E, <- app_assoc.
    - rewrite <- app_assoc in E. cbn in E.
      pose proof G as G'. rewrite Forall_forall in G'.
      assert (Iu0 : In u0 L) by (rewrite E; apply in_app_iff; right; now left).
      destruct (forallb_false_exists _ _ N) as (e & Ie & De).
      apply negb_false_iff in De.
      assert (IeP : In e P).
      { rewrite E in Ie. apply in_app_iff in Ie. destruct Ie as [|Ie]; auto. exfalso.
        unfold lexsorted_unique in Hs. rewrite E in Hs.
        destruct (StronglySorted_app_cross _ _ _ Hs) as [Hs2 _].
        assert (Ge : good d e)
          by (apply G'; rewrite E; apply in_app_iff; now right).
        destruct Ie as [<-|Ie].
        - rewrite (dominates_irrefl d) in De by auto. discriminate.
        - inversion Hs2 as [|? ? _ Ft]; subst. rewrite Forall_forall in Ft.
          rewrite (dominates_later d) in De; auto. discriminate. }
      destruct (nondominated L e) eqn:Ne.
      + exists e. auto.
      + destruct (IH (u0 :: S) E e IeP Ne) as (f & If & Nf & Df).
        exists f. repeat split; auto.
        apply (dominates_trans_len f e u0); auto.
        * destruct (G' f If) as [-> _]. symmetry. apply G'.
          rewrite E. apply in_app_iff. now left.
        * assert (Ge : good d e) by (apply G'; rewrite E; apply in_app_iff; now left).
          destruct Ge as [-> _]. symmetry. now apply G'. }
  intros u Iu N. apply (H L []); auto. now rewrite app_nil_r.
Qed.

(** X19. For every deduplicated, lexicographically ordered array of
    NaN-free vectors that is not empty or does not have exactly one
    objective, [_is_pareto_front] returns a mask that marks exactly the
    vectors dominated by no vector of the array; the one-, two- and
    n-objective variants all do. *)
Theorem pareto_front_mask d U :
  Forall (good d) U -> lexsorted_unique U -> (U <> [] \/ d <> 1%nat) ->
  exists mask,
    _is_pareto_front (mk_ndarray d U) = Ret mask /\
    List.length mask = List.length U /\
    forall i, (i < List.length U)%nat ->
      (nth i mask false = true <->
       forall j, (j < List.length U)%nat ->
         dominates (nth j U []) (nth i U []) = false).
Proof.
  intros G Hs NE. exists (front_mask U). split; [|split].
  - apply front_correct; auto. intros ->. destruct NE; auto.
  - unfold front_mask. apply length_map.
  - intros i Li. unfold front_mask.
    rewrite (nth_map_in (nondominated U) U i false []) by auto.
    unfold nondominated. rewrite forallb_forall. split.
    + intros H j Lj. apply negb_true_iff, H, nth_In, Lj.
    + intros H u Iu. destruct (In_nth _ _ [] Iu) as (j & Lj & <-).
      apply negb_true_iff, H, Lj.
Qed.

Lemma pareto_front_mask_witness :
  exists mask,
    _is_pareto_front (mk_ndarray 2 (rows chain3)) = Ret mask /\
    List.length mask = 3%nat /\
    forall i, (i < 3)%nat ->
      (nth i mask false = true <->
       forall j, (j < 3)%nat ->
         dominates (nth j (rows chain3) []) (nth i (rows chain3) []) = false).
Proof.
  apply (pareto_front_mask 2 (rows chain3)).
  - exact chain3_good.
  - repeat constructor.
  - left. discriminate.
Defined.

(* ================================================================== *)
(** ** Further properties: the layers of the rank calculator *)

Section Layering.

Variables (d : nat) (U : list row) (n_below : Z).
Hypothesis d_not_1 : d <> 1%nat.
Hypothesis U_good : Forall (good d) U.
Hypothesis U_sorted : lexsorted_unique U.

Let n := List.length U.
Let nthU (k : nat) : row := nth k U [].

Lemma layer_inv_init : layer_inv U (seq 0 n) (repeat 0 n) 0.
Proof.
  constructor.
  - intros _. apply length_seq.
  - lia.
  - intros k Lk N. exfalso. apply N, in_seq. fold n in Lk. lia.
Qed.

Lemma layer_inv_step I R r :
  loop_inv U I R r -> layer_inv U I R r -> I <> [] ->
  let fr := fun k => nondominated (map nthU I) (nthU k) in
  layer_inv U (List.filter (fun k => negb (fr k)) I)
    (np.scatter R (List.filter fr I) r) (r + 1).
Proof.
  intros [B Hs L Res Clo Rk] [St Lv Rs] NE fr.
  fold n in B, L, Res, Clo, Rk, St, Lv, Rs. fold nthU in Hs, Clo, Lv, Rs.
  assert (Out : forall k, ~ In k I -> nth k (np.scatter R (List.filter fr I) r) 0 = nth k R 0).
  { intros k N. apply nth_scatter_out. intros [X _]%filter_In. contradiction. }
  assert (New : forall k, (k < n)%nat -> In k I -> fr k = true ->
                nth k (np.scatter R (List.filter fr I) r) 0 = r).
  { intros k Lk Ik E. apply nth_scatter_in; [|lia]. apply filter_In; auto. }
  assert (Split : forall k, ~ In k (List.filter (fun k => negb (fr k)) I) ->
                  ~ In k I \/ (In k I /\ fr k = true)).
  { intros k N. destruct (in_dec Nat.eq_dec k I) as [Ik|]; auto. right. split; auto.
    destruct (fr k) eqn:E; auto. exfalso. apply N, filter_In. now rewrite E. }
  assert (Keep : forall j, ~ In j I -> ~ In j (List.filter (fun k => negb (fr k)) I)).
  { intros j N [X _]%filter_In. contradiction. }
  assert (GL : Forall (good d) (map nthU I)).
  { apply Forall_forall. intros x (k & <- & Ik)%in_map_iff.
    rewrite Forall_forall in B, U_good. apply U_good, nth_In, B, Ik. }
  constructor; fold n; fold nthU.
  - lia.
  - intros _ k Lk [Ik Fk]%filter_In. apply negb_true_iff in Fk.
    destruct (dominated_by_front d (map nthU I) GL Hs (nthU k)) as (f & If & Nf & Df); auto.
    { now apply in_map. }
    apply in_map_iff in If. destruct If as (j & <- & Ij).
    rewrite Forall_forall in B. exists j. repeat split; auto.
    + intros [_ X]%filter_In. unfold fr in X. rewrite Nf in X. discriminate.
    + rewrite New; auto. lia.
  - intros k Lk N P. destruct (Split k N) as [O|[Ik E]].
    + rewrite Out in * by auto.
      destruct (Rs k Lk O P) as (j & Lj & Oj & Dj & Ej).
      exists j. repeat split; auto. now rewrite Out.
    + rewrite New in * by auto.
      destruct (Lv P k Lk Ik) as (j & Lj & Oj & Dj & Ej).
      exists j. repeat split; auto. now rewrite Out.
Qed.

(** The state in which the loop returns keeps both invariants. *)
Lemma rank_loop_layers : forall fuel I R r R' I' r',
  loop_inv U I R r -> layer_inv U I R r -> n_below <= Z.of_nat n ->
  rank_loop fuel d n n_below (map nthU I) I R r = Ret (R', I', r') ->
  loop_inv U I' R' r' /\ layer_inv U I' R' r' /\
  n_below <= Z.of_nat n - Z.of_nat (List.length I').
Proof.
  induction fuel as [|fuel IH]; intros I R r R' I' r' Inv Lay Nb;
    rewrite rank_loop_eq;
    destruct (Z.ltb_spec (Z.of_nat n - Z.of_nat (List.length I)) n_below) as [C|C];
    try discriminate; try (intros [= <- <- <-]; auto).
  assert (NE : I <> []) by (intros ->; cbn in C; lia).
  destruct (loop_inv_step d U d_not_1 U_good I R r Inv NE) as [Inv' _].
  pose proof (layer_inv_step I R r Inv Lay NE) as Lay'.
  destruct Inv as [B Hs L Res Clo Rk].
  rewrite front_correct; auto.
  2:{ apply Forall_forall. intros x (k & <- & Ik)%in_map_iff.
      rewrite Forall_forall in B, U_good. apply U_good, nth_In, B, Ik. }
  cbn [bind]. unfold front_mask.
  rewrite !map_map.
  rewrite (select_map_filter (fun k => negb (nondominated (map nthU I) (nthU k))) nthU I).
  rewrite (select_filter (fun k => negb (nondominated (map nthU I) (nthU k))) I).
  rewrite (select_filter (fun k => nondominated (map nthU I) (nthU k)) I).
  apply IH; auto.
Qed.

End Layering.

Lemma StronglySorted_nth {A : Type} (R : A -> A -> Prop) (l : list A) (dflt : A) :
  StronglySorted R l ->
  forall i j, (i < j)%nat -> (j < List.length l)%nat -> R (nth i l dflt) (nth j l dflt).
Proof.
  induction 1 as [|x l Hs IH F]; intros i j Lij Lj; cbn in Lj; [lia|].
  destruct j as [|j]; [lia|]. destruct i as [|i]; cbn.
  - rewrite Forall_forall in F. apply F, nth_In. lia.
  - apply IH; lia.
Qed.

Lemma floats_unique_onto a i :
  Forall (fun x => Float.isnan x = false) a ->
  (i < List.length (np.sorted_unique Float.ltb Float.eqb a))%nat ->
  exists x, In x a /\ np.index_of Float.eqb x (np.sorted_unique Float.ltb Float.eqb a) = i.
Proof.
  apply (unique_onto Float.ltb Float.eqb (fun x => Float.isnan x = false)).
  - apply FloatFacts.ltb_eqb_cases.
  - intros x y z _ _ _. apply FloatFacts.ltb_trans.
  - intros x y z _ _ _. apply FloatFacts.eqb_trans.
  - apply FloatFacts.eqb_refl.
  - intros x y _ _. apply FloatFacts.eqb_sym.
Qed.

Lemma budget_positive n_below len :
  non_positive n_below = false -> (0 < len)%nat ->
  0 < Z.min (py_or n_below (Z.of_nat len)) (Z.of_nat len).
Proof.
  intros P L. destruct n_below as [k|]; cbn in *.
  - apply Z.leb_gt in P. destruct (Z.eqb_spec k 0); lia.
  - lia.
Qed.

Section RankStructure.

Import FloatFacts.

Variables (loss_values : ndarray) (n_below : option Z).

Let d := n_objectives loss_values.
Let a := rows loss_values.
Let len := List.length a.
Let U := np.sorted_unique row_ltb row_eqb a.
Let n := List.length U.
Let order_inv := map (fun x => np.index_of row_eqb x U) a.
Let nb := Z.min (py_or n_below (Z.of_nat len)) (Z.of_nat len).

Hypothesis a_good : Forall (good d) a.
Hypothesis positive : non_positive n_below = false.

Lemma layered_rank_structure fuel :
  d <> 1%nat -> nb <= Z.of_nat n -> (Z.to_nat nb <= fuel)%nat ->
  exists ranks,
    _calculate_nondomination_rank fuel loss_values n_below = Ret ranks /\
    rank_structure a ranks.
Proof.
  intros D Nb Fu.
  assert (Ug : Forall (good d) U) by now apply rows_unique_good.
  assert (Us : lexsorted_unique U) by now apply (rows_unique_sorted d).
  destruct (rank_loop_total d U nb D Ug fuel (seq 0 n) (repeat 0 n) 0)
    as (I & R & r & E & Inv & Met & Rb); auto.
  { now apply (loop_inv_init d). }
  { lia. }
  { rewrite length_seq. fold n. lia. }
  destruct (rank_loop_layers d U nb D Ug fuel (seq 0 n) (repeat 0 n) 0 R I r)
    as (_ & Lay & _); auto.
  { now apply (loop_inv_init d). }
  { now apply (layer_inv_init d). }
  assert (Ec : _calculate_nondomination_rank fuel loss_values n_below
               = Ret (np.take 0 (np.scatter R I r) order_inv)).
  { unfold _calculate_nondomination_rank. rewrite positive.
    fold d. destruct (Nat.eqb_spec d 1); [contradiction|].
    unfold np.unique, np.arange. fold a U n len nb.
    unfold n in E. rewrite map_nth_seq in E. fold n in E.
    rewrite E. reflexivity. }
  exists (np.take 0 (np.scatter R I r) order_inv). split; [exact Ec|].
  set (Rf := np.scatter R I r).
  assert (Pos : forall i, (i < len)%nat -> 0 < nb).
  { intros i Li. apply budget_positive; auto. fold len. lia. }
  assert (Fin : forall p, (p < n)%nat ->
            (~ In p I /\ 0 <= nth p Rf 0 < r /\ nth p Rf 0 = nth p R 0) \/
            (In p I /\ nth p Rf 0 = r)).
  { intros p Lp. apply (final_ranks d U D I R r p Inv Lp). }
  assert (Oi : forall i, (i < len)%nat ->
            (nth i order_inv O < n)%nat /\
            row_eqb (nth i a []) (nth (nth i order_inv O) U []) = true).
  { intros i Li. apply (order_inv_bound loss_values a_good i Li). }
  assert (Tk : forall i, (i < len)%nat ->
            nth i (np.take 0 Rf order_inv) 0 = nth (nth i order_inv O) Rf 0).
  { intros i Li. apply (nth_take loss_values Rf i Li). }
  pose proof (inv_rank _ _ _ _ Inv) as [R0 _].
  pose proof a_good as G. rewrite Forall_forall in G.
  pose proof Ug as GU. rewrite Forall_forall in GU.
  assert (Onto : forall j, (j < n)%nat ->
            exists i, (i < len)%nat /\ nth i order_inv O = j).
  { intros j Lj. destruct (rows_unique_onto d a j a_good Lj) as (x & Ix & Ex).
    destruct (In_nth _ _ [] Ix) as (i & Li & Ei).
    exists i. split; auto. unfold order_inv.
    rewrite (nth_map_in _ a i O []) by exact Li. now rewrite Ei. }
  repeat split.
  - unfold np.take, order_inv. now rewrite !length_map.
  - intros i Li. rewrite Tk by auto. destruct (Oi i Li) as [B _].
    destruct (Fin _ B) as [(_ & V & _)|[_ V]]; lia.
  - intros i j Li Lj Dj. rewrite Tk by auto.
    destruct (Oi i Li) as [Bi Ei]. destruct (Oi j Lj) as [Bj Ej].
    assert (DU : dominates (nth (nth j order_inv O) U []) (nth (nth i order_inv O) U []) = true).
    { eapply (dominates_compat d); [| | | | exact Ej | exact Ei | exact Dj];
        auto using nth_In. }
    destruct (Fin _ Bi) as [(N & V & Eq)|[Y V]].
    + destruct (inv_closed _ _ _ _ Inv _ _ Bj Bi N DU) as [Nj Lt].
      pose proof (inv_resolved _ _ _ _ Inv _ Bj Nj). lia.
    + rewrite V. intros ->.
      pose proof (lay_start _ _ _ _ Lay eq_refl) as X. fold n in X, Met.
      specialize (Pos i Li). lia.
  - intros i Li P. rewrite Tk in * by auto. destruct (Oi i Li) as [Bi Ei].
    assert (X : exists q, (q < n)%nat /\ ~ In q I /\
                  dominates (nth q U []) (nth (nth i order_inv O) U []) = true /\
                  nth q R 0 = nth (nth i order_inv O) Rf 0 - 1).
    { destruct (Fin _ Bi) as [(N & V & Eq)|[Y V]].
      - rewrite Eq in *. now apply (lay_resolved _ _ _ _ Lay).
      - rewrite V in *. now apply (lay_live _ _ _ _ Lay). }
    destruct X as (q & Lq & Nq & Dq & Eq).
    destruct (Onto q Lq) as (j & Lj & Ej). exists j. split; auto.
    destruct (Oi j Lj) as [Bj Ejj]. rewrite Ej in Ejj.
    split.
    + eapply (dominates_compat d); [| | | | | | exact Dq]; auto using nth_In.
      * now rewrite (row_eqb_sym d) by auto using nth_In.
      * now rewrite (row_eqb_sym d) by auto using nth_In.
    + rewrite Tk, Ej by auto.
      destruct (Fin _ Lq) as [(_ & _ & V)|[Y _]]; [|contradiction]. lia.
Qed.

Lemma dense_rank_structure fuel :
  d = 1%nat ->
  exists ranks,
    _calculate_nondomination_rank fuel loss_values n_below = Ret ranks /\
    rank_structure a ranks.
Proof.
  intros D1.
  set (col := map (fun r => nth 0 r NaN) a).
  set (Uf := np.sorted_unique Float.ltb Float.eqb col).
  set (rk := fun x => Z.of_nat (np.index_of Float.eqb x Uf)).
  exists (map rk col).
  assert (Lc : List.length col = len) by (unfold col; now rewrite length_map).
  assert (Fc : Forall (fun x => Float.isnan x = false) col).
  { apply Forall_forall. intros x (r & <- & Ir)%in_map_iff.
    pose proof a_good as G. rewrite Forall_forall in G. specialize (G r Ir).
    fold d in G. rewrite D1 in G. destruct (good_1_inv r G) as (y & -> & Ny). exact Ny. }
  assert (Row : forall i, (i < len)%nat ->
            nth i a [] = [nth i col NaN] /\ Float.isnan (nth i col NaN) = false).
  { intros i Li. pose proof a_good as G. rewrite Forall_forall in G.
    pose proof (G _ (nth_In a [] Li)) as Gi. fold d in Gi. rewrite D1 in Gi.
    destruct (good_1_inv _ Gi) as (x & Ex & Nx).
    unfold col. rewrite (nth_map_in (fun r => nth 0 r NaN) a i NaN []) by auto.
    rewrite Ex. cbn. auto. }
  assert (Rk : forall i, (i < len)%nat -> nth i (map rk col) 0 = rk (nth i col NaN)).
  { intros i Li. apply nth_map_in. now rewrite Lc. }
  assert (Dom : forall i j, (i < len)%nat -> (j < len)%nat ->
            dominates (nth j a []) (nth i a []) = Float.ltb (nth j col NaN) (nth i col NaN)).
  { intros i j Li Lj. destruct (Row i Li) as [-> Ni]. destruct (Row j Lj) as [-> Nj].
    unfold dominates, row_leb. cbn. rewrite !andb_true_r.
    destruct (ltb_eqb_cases _ _ Nj Ni) as [(E1 & E2 & E3)|[(E1 & E2 & E3)|(E1 & E2 & E3)]];
      rewrite E1, E2; cbn; rewrite ?andb_true_r, ?andb_false_r; auto.
    - now apply ltb_leb.
    - rewrite ltb_negb_leb in E3 by auto. apply negb_true_iff in E3. exact E3. }
  split; [|repeat split].
  - unfold _calculate_nondomination_rank. rewrite positive.
    fold d. rewrite D1. cbn. fold a col Uf. now rewrite map_map.
  - now rewrite length_map.
  - intros i Li. rewrite Rk by auto. unfold rk. lia.
  - intros i j Li Lj Dj. rewrite Rk by auto. rewrite Dom in Dj by auto.
    pose proof (floats_unique_mono col _ _ Fc
                  (nth_In col NaN (eq_ind_r (fun k => (j < k)%nat) Lj Lc))
                  (nth_In col NaN (eq_ind_r (fun k => (i < k)%nat) Li Lc)) Dj) as M.
    fold Uf in M. unfold rk. lia.
  - intros i Li P. rewrite Rk in * by auto. unfold rk in P.
    set (x := nth i col NaN) in *.
    assert (Ix : In x col) by (apply nth_In; now rewrite Lc).
    destruct (floats_unique_position col x Fc Ix) as [Bx Ex]. fold Uf in Bx, Ex.
    set (p := np.index_of Float.eqb x Uf) in *.
    destruct (floats_unique_onto col (p - 1) Fc) as (y & Iy & Ey); [fold Uf; lia|].
    fold Uf in Ey.
    destruct (In_nth _ _ NaN Iy) as (j & Lj & Ej). rewrite Lc in Lj.
    destruct (floats_unique_position col y Fc Iy) as [By Eyy]. fold Uf in By, Eyy.
    rewrite Ey in Eyy.
    exists j. split; auto. split.
    + rewrite Dom by auto. rewrite Ej. fold x.
      apply (eqb_ltb_trans _ (nth (p - 1) Uf NaN)); auto.
      apply (ltb_eqb_trans _ (nth p Uf NaN)).
      * apply (StronglySorted_nth (fun u v => Float.ltb u v = true) Uf NaN);
          [now apply floats_unique_sorted | lia | lia].
      * now rewrite eqb_sym.
    + rewrite Rk by auto. rewrite Ej. unfold rk. rewrite Ey. unfold rk. fold p. lia.
Qed.

End RankStructure.

(* ================================================================== *)
(** ** Further properties: the rank calculator *)

Lemma calculate_rank_structure fuel loss_values n_below :
  Forall (good (n_objectives loss_values)) (rows loss_values) ->
  non_positive n_below = false ->
  (n_objectives loss_values = 1%nat \/
   clipped_budget loss_values n_below <= Z.of_nat (distinct_rows loss_values)) ->
  (Z.to_nat (clipped_budget loss_values n_below) <= fuel)%nat ->
  exists ranks,
    _calculate_nondomination_rank fuel loss_values n_below = Ret ranks /\
    rank_structure (rows loss_values) ranks.
Proof.
  intros G P B Fu. destruct (Nat.eq_dec (n_objectives loss_values) 1) as [D|D].
  - now apply dense_rank_structure.
  - destruct B as [|B]; [contradiction|]. now apply layered_rank_structure.
Qed.

Lemma fan4_good : Forall (good (n_objectives fan4)) (rows fan4).
Proof. repeat constructor. Defined.

Lemma fan4_budget :
  n_objectives fan4 = 1%nat \/
  clipped_budget fan4 (Some 3) <= Z.of_nat (distinct_rows fan4).
Proof. right. vm_compute. discriminate. Defined.

(** X10. Rank 0 is the Pareto front.  When the vectors have no NaN and the
    budget is positive and, with two objectives or more, not above the
    number of distinct vectors, [_calculate_nondomination_rank] returns,
    and a vector has rank 0 exactly when no vector of the input dominates
    it. *)
Theorem rank_zero_is_pareto_front fuel loss_values n_below :
  Forall (good (n_objectives loss_values)) (rows loss_values) ->
  non_positive n_below = false ->
  (n_objectives loss_values = 1%nat \/
   clipped_budget loss_values n_below <= Z.of_nat (distinct_rows loss_values)) ->
  (Z.to_nat (clipped_budget loss_values n_below) <= fuel)%nat ->
  exists ranks,
    _calculate_nondomination_rank fuel loss_values n_below = Ret ranks /\
    forall i, (i < List.length (rows loss_values))%nat ->
      (nth i ranks 0 = 0 <->
       nondominated (rows loss_values) (nth i (rows loss_values) []) = true).
Proof.
  intros G P B Fu.
  destruct (calculate_rank_structure fuel loss_values n_below G P B Fu)
    as (ranks & E & _ & Nn & Dom & Par).
  exists ranks. split; [exact E|]. intros i Li. split.
  - intros Z0. apply forallb_forall. intros u Iu.
    destruct (In_nth _ _ [] Iu) as (j & Lj & <-).
    destruct (dominates _ _) eqn:Dj; [|reflexivity].
    now destruct (Dom i j Li Lj Dj).
  - intros N. specialize (Nn i Li).
    destruct (Z.eq_dec (nth i ranks 0) 0) as [|Ne]; [assumption|].
    destruct (Par i Li) as (j & Lj & Dj & _); [lia|].
    unfold nondominated in N. rewrite forallb_forall in N.
    specialize (N _ (nth_In _ [] Lj)). rewrite Dj in N. discriminate.
Qed.

Lemma rank_zero_is_pareto_front_witness :
  exists ranks,
    _calculate_nondomination_rank 3 fan4 (Some 3) = Ret ranks /\
    forall i, (i < 4)%nat ->
      (nth i ranks 0 = 0 <-> nondominated (rows fan4) (nth i (rows fan4) []) = true).
Proof.
  apply (rank_zero_is_pareto_front 3 fan4 (Some 3)).
  - exact fan4_good.
  - reflexivity.
  - exact fan4_budget.
  - vm_compute. lia.
Defined.

(** X11. Every layer rests on the one above it.  Under the same
    conditions, a vector of rank [q > 0] is dominated by a vector of rank
    [q - 1]. *)
Theorem positive_rank_has_dominator fuel loss_values n_below :
  Forall (good (n_objectives loss_values)) (rows loss_values) ->
  non_positive n_below = false ->
  (n_objectives loss_values = 1%nat \/
   clipped_budget loss_values n_below <= Z.of_nat (distinct_rows loss_values)) ->
  (Z.to_nat (clipped_budget loss_values n_below) <= fuel)%nat ->
  exists ranks,
    _calculate_nondomination_rank fuel loss_values n_below = Ret ranks /\
    forall i, (i < List.length (rows loss_values))%nat -> 0 < nth i ranks 0 ->
      exists j, (j < List.length (rows loss_values))%nat /\
        dominates (nth j (rows loss_values) []) (nth i (rows loss_values) []) = true /\
        nth j ranks 0 = nth i ranks 0 - 1.
Proof.
  intros G P B Fu.
  destruct (calculate_rank_structure fuel loss_values n_below G P B Fu)
    as (ranks & E & _ & _ & _ & Par).
  exists ranks. split; [exact E|exact Par].
Qed.

Lemma positive_rank_has_dominator_witness :
  exists ranks,
    _calculate_nondomination_rank 3 fan4 (Some 3) = Ret ranks /\
    forall i, (i < 4)%nat -> 0 < nth i ranks 0 ->
      exists j, (j < 4)%nat /\
        dominates (nth j (rows fan4) []) (nth i (rows fan4) []) = true /\
        nth j ranks 0 = nth i ranks 0 - 1.
Proof.
  apply (positive_rank_has_dominator 3 fan4 (Some 3)).
  - exact fan4_good.
  - reflexivity.
  - exact fan4_budget.
  - vm_compute. lia.
Defined.

Lemma row_eqb_sym_any : forall a b : row, row_eqb a b = row_eqb b a.
Proof.
  induction a as [|x a IH]; destruct b as [|y b]; cbn; auto.
  now rewrite FloatFacts.eqb_sym, IH.
Qed.

Lemma row_eqb_trans_any : forall a b c : row,
  row_eqb a b = true -> row_eqb b c = true -> row_eqb a c = true.
Proof.
  induction a as [|x a IH]; destruct b as [|y b], c as [|z c]; cbn;
    try discriminate; auto.
  intros [E1 E2]%andb_true_iff [E3 E4]%andb_true_iff.
  now rewrite (FloatFacts.eqb_trans _ _ _ E1 E3), (IH _ _ E2 E4).
Qed.

Lemma index_of_compat {A : Type} (eqb : A -> A -> bool) :
  (forall x y, eqb x y = eqb y x) ->
  (forall x y z, eqb x y = true -> eqb y z = true -> eqb x z = true) ->
  forall x y u, eqb x y = true -> np.index_of eqb x u = np.index_of eqb y u.
Proof.
  intros Sy Tr x y u E. induction u as [|z u IH]; cbn; auto.
  destruct (eqb x z) eqn:Ex, (eqb y z) eqn:Ey; auto.
  - rewrite Sy in E. rewrite (Tr _ _ _ E Ex) in Ey. discriminate.
  - rewrite (Tr _ _ _ E Ey) in Ex. discriminate.
Qed.

(** X12. Equal vectors share a rank: whenever
    [_calculate_nondomination_rank] returns, two positions of the input
    that hold equal vectors hold the same rank, whatever the budget. *)
Theorem equal_vectors_share_rank fuel loss_values n_below ranks i j :
  _calculate_nondomination_rank fuel loss_values n_below = Ret ranks ->
  (i < List.length (rows loss_values))%nat ->
  (j < List.length (rows loss_values))%nat ->
  row_eqb (nth i (rows loss_values) []) (nth j (rows loss_values) []) = true ->
  nth i ranks 0 = nth j ranks 0.
Proof.
  intros E Li Lj Eq. unfold _calculate_nondomination_rank in E.
  destruct (non_positive n_below).
  { injection E as <-. now rewrite !nth_repeat. }
  destruct (n_objectives loss_values =? 1)%nat.
  - unfold np.unique in E. injection E as <-. rewrite map_map.
    rewrite (nth_map_in _ _ i 0 NaN), (nth_map_in _ _ j 0 NaN)
      by now rewrite length_map.
    rewrite (nth_map_in _ _ i NaN []), (nth_map_in _ _ j NaN []) by assumption.
    destruct (nth i (rows loss_values) []) as [|x ri],
             (nth j (rows loss_values) []) as [|y rj]; cbn in Eq;
      try discriminate; auto.
    apply andb_true_iff in Eq as [Exy _]. cbn. f_equal.
    apply index_of_compat;
      [exact FloatFacts.eqb_sym | exact FloatFacts.eqb_trans | exact Exy].
  - unfold np.unique in E.
    destruct (rank_loop _ _ _ _ _ _ _ _) as [[[R I] r]| |]; cbn in E;
      try discriminate.
    injection E as <-. unfold np.take.
    rewrite (nth_map_in _ _ i 0 O), (nth_map_in _ _ j 0 O) by now rewrite length_map.
    rewrite (nth_map_in _ _ i O []), (nth_map_in _ _ j O []) by assumption.
    f_equal.
    apply index_of_compat;
      [exact row_eqb_sym_any | exact row_eqb_trans_any | exact Eq].
Qed.

Lemma equal_vectors_share_rank_witness :
  nth 2 [0; 0; 1; 1] 0 = nth 3 [0; 0; 1; 1] 0.
Proof.
  apply (equal_vectors_share_rank 3 fan4 (Some 3) [0; 0; 1; 1] 2 3).
  - reflexivity.
  - cbn. lia.
  - cbn. lia.
  - reflexivity.
Defined.

(** X13. One rank per vector: whenever [_calculate_nondomination_rank]
    returns, the rank array is as long as the input, also when the input
    has duplicates and the ranking went through the deduplicated array. *)
Theorem one_rank_per_vector fuel loss_values n_below ranks :
  _calculate_nondomination_rank fuel loss_values n_below = Ret ranks ->
  List.length ranks = List.length (rows loss_values).
Proof.
  intros E. unfold _calculate_nondomination_rank in E.
  destruct (non_positive n_below).
  { injection E as <-. apply repeat_length. }
  destruct (n_objectives loss_values =? 1)%nat.
  - unfold np.unique in E. injection E as <-. now rewrite !length_map.
  - unfold np.unique in E.
    destruct (rank_loop _ _ _ _ _ _ _ _) as [[[R I] r]| |]; cbn in E;
      try discriminate.
    injection E as <-. unfold np.take. now rewrite !length_map.
Qed.

Lemma one_rank_per_vector_witness :
  List.length [0; 0; 1; 1] = List.length (rows fan4).
Proof.
  apply (one_rank_per_vector 3 fan4 (Some 3) [0; 0; 1; 1]). reflexivity.
Defined.

Section UniqueDuplicates.

Context {A : Type} (ltb eqb : A -> A -> bool) (P : A -> Prop).

Hypothesis dup_cases : forall x y, P x -> P y ->
  (ltb x y = true /\ eqb x y = false /\ ltb y x = false) \/
  (ltb x y = false /\ eqb x y = true /\ ltb y x = false) \/
  (ltb x y = false /\ eqb x y = false /\ ltb y x = true).
Hypothesis dup_ltb_trans : forall x y z, P x -> P y -> P z ->
  ltb x y = true -> ltb y z = true -> ltb x z = true.
Hypothesis dup_eqb_trans : forall x y z, P x -> P y -> P z ->
  eqb x y = true -> eqb y z = true -> eqb x z = true.
Hypothesis dup_eqb_refl : forall x, P x -> eqb x x = true.

(** Inserting an element that is already there, up to [eqb], adds nothing. *)
Lemma insert_unique_length_old x l :
  P x -> Forall P l -> StronglySorted (fun a b => ltb a b = true) l ->
  (exists y, In y l /\ eqb x y = true) ->
  List.length (np.insert_unique ltb eqb x l) = List.length l.
Proof.
  intros Px F Hs (y & Iy & E).
  induction Hs as [|z l Hs IH Fz]; [destruct Iy|].
  inversion F as [|? ? Pz Fl]; subst. cbn.
  assert (Py : P y) by (rewrite Forall_forall in F; auto).
  destruct (dup_cases x z Px Pz) as [(L & Eq & _)|[(L & Eq & _)|(L & Eq & _)]];
    rewrite L; [|now rewrite Eq|rewrite Eq].
  - exfalso. destruct Iy as [->|Iy]; [congruence|].
    rewrite Forall_forall in Fz. specialize (Fz y Iy).
    pose proof (dup_ltb_trans x z y Px Pz Py L Fz) as Lxy.
    destruct (dup_cases x y Px Py) as [(_ & N & _)|[(N & _)|(N & _)]]; congruence.
  - cbn. f_equal. apply IH; auto.
    destruct Iy as [->|Iy]; [congruence|auto].
Qed.

(** An array with two equal elements has fewer distinct elements than
    elements. *)
Lemma sorted_unique_length_dup a dflt :
  Forall P a ->
  forall i j, (i < j)%nat -> (j < List.length a)%nat ->
  eqb (nth i a dflt) (nth j a dflt) = true ->
  (List.length (np.sorted_unique ltb eqb a) < List.length a)%nat.
Proof.
  induction 1 as [|x a Px F IH]; intros i j Lij Lj E; cbn in Lj; [lia|].
  destruct j as [|j]; [lia|].
  change (np.sorted_unique ltb eqb (x :: a))
    with (np.insert_unique ltb eqb x (np.sorted_unique ltb eqb a)).
  cbn [List.length].
  destruct i as [|i]; cbn in E.
  - assert (Ij : In (nth j a dflt) a) by (apply nth_In; lia).
    assert (Pj : P (nth j a dflt)) by (rewrite Forall_forall in F; auto).
    destruct (sorted_unique_has ltb eqb P dup_eqb_refl a _ F Ij) as (y & Iy & Ey).
    pose proof (sorted_unique_P ltb eqb P a F) as FU.
    assert (Py : P y) by (rewrite Forall_forall in FU; auto).
    rewrite insert_unique_length_old; auto.
    + pose proof (sorted_unique_length_le ltb eqb a). lia.
    + now apply (sorted_unique_sorted ltb eqb P).
    + exists y. split; auto. now apply (dup_eqb_trans _ (nth j a dflt)).
  - pose proof (insert_unique_length_le ltb eqb x (np.sorted_unique ltb eqb a)).
    assert (Li : (i < j)%nat) by lia.
    assert (La : (j < List.length a)%nat) by lia.
    pose proof (IH i j Li La E). lia.
Qed.

End UniqueDuplicates.

(** X14. Duplicates stall the ranking.  With two objectives or more, no
    budget given (or one of at least the number of vectors) and two equal
    vectors in the input, [_calculate_nondomination_rank] never returns,
    however long it runs:
    the budget is clipped to the number of vectors, which the number of
    distinct vectors never reaches. *)
Theorem duplicate_vectors_never_ranked fuel loss_values n_below i j :
  n_objectives loss_values <> 1%nat ->
  Forall (good (n_objectives loss_values)) (rows loss_values) ->
  (n_below = None \/
   exists k, n_below = Some k /\ Z.of_nat (List.length (rows loss_values)) <= k) ->
  (i < j)%nat -> (j < List.length (rows loss_values))%nat ->
  row_eqb (nth i (rows loss_values) []) (nth j (rows loss_values) []) = true ->
  _calculate_nondomination_rank fuel loss_values n_below = OutOfFuel.
Proof.
  intros D G B Lij Lj E.
  assert (Lt : (List.length (np.sorted_unique row_ltb row_eqb (rows loss_values))
                < List.length (rows loss_values))%nat).
  { apply (sorted_unique_length_dup row_ltb row_eqb (good (n_objectives loss_values))
             (row_cases _) (row_ltb_trans _) (row_eqb_trans _) (row_eqb_refl _)
             (rows loss_values) [] G i j Lij Lj E). }
  apply budget_above_distinct_diverges; auto.
  - destruct B as [->|(k & -> & Lk)]; cbn; auto. apply Z.leb_gt. lia.
  - destruct B as [->|(k & -> & Lk)]; cbn; [lia|].
    destruct (Z.eqb_spec k 0); lia.
Qed.

Lemma duplicate_vectors_never_ranked_witness :
  _calculate_nondomination_rank 100 fan4 None = OutOfFuel.
Proof.
  apply (duplicate_vectors_never_ranked 100 fan4 None 2 3).
  - discriminate.
  - exact fan4_good.
  - left. reflexivity.
  - lia.
  - cbn. lia.
  - reflexivity.
Defined.

(* ================================================================== *)
(** ** Further properties: the constrained orchestrator *)

Lemma calculate_empty fuel d n_below :
  _calculate_nondomination_rank fuel (mk_ndarray d []) n_below = Ret [].
Proof.
  unfold _calculate_nondomination_rank. destruct (non_positive n_below); [reflexivity|].
  cbn. destruct (d =? 1)%nat; [reflexivity|].
  rewrite rank_loop_eq. cbn [List.length].
  destruct (Z.ltb_spec (Z.of_nat 0 - Z.of_nat 0) (Z.min (py_or n_below 0) 0)); [lia|].
  reflexivity.
Qed.

Lemma calculate_single fuel d r n_below :
  good d r -> (1 <= fuel)%nat ->
  _calculate_nondomination_rank fuel (mk_ndarray d [r]) n_below = Ret [0].
Proof.
  intros G Fu. destruct (non_positive n_below) eqn:P.
  { unfold _calculate_nondomination_rank. now rewrite P. }
  destruct (calculate_rank_structure fuel (mk_ndarray d [r]) n_below)
    as (ranks & E & Ln & Nn & _ & Par); auto.
  - cbn. auto.
  - right. unfold clipped_budget, distinct_rows. cbn. lia.
  - unfold clipped_budget. cbn [rows List.length]. lia.
  - rewrite E. f_equal. cbn in Ln, Nn, Par.
    destruct ranks as [|x [|? ?]]; try discriminate. f_equal.
    specialize (Nn O (Nat.lt_0_1)). cbn in Nn.
    destruct (Z.eq_dec x 0) as [|Ne]; [assumption|].
    destruct (Par O Nat.lt_0_1) as (j & Lj & Dj & _); [cbn; lia|].
    destruct j as [|j]; [|lia]. cbn in Dj.
    rewrite (dominates_irrefl d r G) in Dj. discriminate.
Qed.

(** X15. A single record always gets rank 0 on the penalty path: whatever
    its penalty (feasible, infeasible or NaN) and whatever the budget,
    [_fast_non_dominated_sort] returns [[0]]; the guard on the infeasible
    mask reads a one-element array, for which it is defined. *)
Theorem single_record_rank empty_truth fuel d r p n_below :
  good d r -> (1 <= fuel)%nat ->
  _fast_non_dominated_sort empty_truth fuel (mk_ndarray d [r]) (Some [p]) n_below
  = Ret [0].
Proof.
  intros G Fu. unfold _fast_non_dominated_sort.
  cbn [rows n_objectives List.length Nat.eqb negb map repeat].
  destruct (Float.isnan p) eqn:Np.
  - destruct p; try discriminate. cbn.
    rewrite calculate_empty. cbn. rewrite calculate_single by auto. reflexivity.
  - rewrite (FloatFacts.ltb_negb_leb (Fin 0) p) by auto.
    destruct (Float.leb p (Fin 0)) eqn:Le; cbn.
    + rewrite calculate_single by auto. cbn. rewrite calculate_empty. reflexivity.
    + rewrite calculate_empty. cbn. rewrite (FloatFacts.eqb_refl p Np). cbn.
      rewrite calculate_empty. reflexivity.
Qed.

Lemma single_record_rank_witness :
  _fast_non_dominated_sort (Raise ValueError) 1 (array_of 2 [[3; 4]])
    (Some [Float.of_Z 1]) None = Ret [0].
Proof.
  apply (single_record_rank (Raise ValueError) 1 2
           [Float.of_Z 3; Float.of_Z 4] (Float.of_Z 1) None).
  - repeat constructor.
  - lia.
Defined.

(* ================================================================== *)
(** ** Further properties: when the comparison fails *)

(** X16. [_dominates] raises ValueError exactly when both records are
    COMPLETE, both have values, and the numbers of values differ from each
    other or from the number of directions; a record that is not COMPLETE
    is never looked into. *)
Theorem dominates_value_error t0 t1 directions :
  _dominates t0 t1 directions = Raise ValueError <->
  state t0 = COMPLETE /\ state t1 = COMPLETE /\
  exists v0 v1, values t0 = Some v0 /\ values t1 = Some v1 /\
    (List.length v0 <> List.length v1 \/ List.length v0 <> List.length directions).
Proof.
  unfold _dominates.
  destruct (state t0) eqn:S0; cbn;
    try (split; [discriminate | intros (A & _); discriminate]).
  destruct (state t1) eqn:S1; cbn;
    try (split; [discriminate | intros (_ & A & _); discriminate]).
  destruct (values t0) as [v0|], (values t1) as [v1|];
    try (split; [discriminate | intros (_ & _ & ? & ? & A & B & _); discriminate]).
  destruct (Nat.eqb_spec (List.length v0) (List.length v1)) as [E1|N1]; cbn.
  - destruct (Nat.eqb_spec (List.length v0) (List.length directions)) as [E2|N2]; cbn.
    + split.
      * destruct (row_eqb _ _); discriminate.
      * intros (_ & _ & w0 & w1 & [= <-] & [= <-] & [N|N]); contradiction.
    + split; auto. intros _. repeat split. exists v0, v1. auto.
  - split; auto. intros _. repeat split. exists v0, v1. auto.
Qed.

(* ================================================================== *)
(** ** Further properties: what the extractors return on any input *)

Lemma front_nd_sub directions all : forall todo front,
  front_nd directions all todo = Ret front -> forall t, In t front -> In t todo.
Proof.
  induction todo as [|x todo IH]; cbn; intros front E t I.
  - injection E as <-. destruct I.
  - destruct (dominated_by_any directions all x) as [b| |]; cbn in E; try discriminate.
    destruct (front_nd directions all todo) as [rest| |]; cbn in E; try discriminate.
    injection E as <-. specialize (IH rest eq_refl t).
    destruct b; [auto|]. destruct I as [->|I]; auto.
Qed.

Lemma keyed_snd directions : forall l keyed,
  mapM (fun t => k <- sort_key directions t ;; Ret (k, t)) l = Ret keyed ->
  map snd keyed = l.
Proof.
  induction l as [|x l IH]; cbn; intros keyed E.
  - now injection E as <-.
  - destruct (sort_key directions x) as [k| |]; cbn in E; try discriminate.
    destruct (mapM _ l) as [ks| |]; cbn in E; try discriminate.
    injection E as <-. cbn. f_equal. now apply IH.
Qed.

Lemma sweep_sub directions : forall rest last pf front,
  sweep_2d directions last pf rest = Ret front ->
  forall t, In t front -> In t pf \/ In t rest.
Proof.
  induction rest as [|x rest IH]; cbn; intros last pf front E t I.
  - injection E as <-. auto.
  - destruct (_dominates last x directions) as [b| |]; cbn in E; try discriminate.
    destruct b.
    + destruct (IH _ _ _ E t I); auto.
    + destruct (IH _ _ _ E t I) as [[J|[<-|[]]]%in_app_or|J]; auto.
Qed.

Lemma front_2d_sub trials directions cc front :
  _get_pareto_front_trials_2d trials directions cc = Ret front ->
  forall t, In t front -> In t (candidates trials cc).
Proof.
  unfold _get_pareto_front_trials_2d. fold (candidates trials cc).
  destruct (candidates trials cc) as [|c cand] eqn:Ec.
  { intros [= <-] t []. }
  destruct (mapM _ (c :: cand)) as [keyed| |] eqn:Ek; cbn [bind]; try discriminate.
  apply keyed_snd in Ek.
  pose proof (Permutation_map snd (sort_by_key_perm pair_ltb keyed)) as Pk.
  rewrite Ek in Pk.
  destruct (map snd (sort_by_key pair_ltb keyed)) as [|first rest]; [discriminate|].
  destruct (sweep_2d directions first [first] rest) as [pf| |] eqn:Es; cbn [bind];
    try discriminate.
  intros [= <-] t I.
  destruct (sort_by_number pf) as [Pn _].
  apply (Permutation_in _ Pn) in I.
  apply (Permutation_in _ Pk).
  destruct (sweep_sub _ _ _ _ _ Es t I) as [[<-|[]]|J]; cbn; auto.
Qed.

(** X17. Whatever the input, well-formed or not, a front that is returned
    holds nothing but COMPLETE records of the study; when the constraints
    are considered, no record of the front has a constraint value that is
    positive or NaN. *)
Theorem front_within_candidates study consider_constraint front :
  _get_pareto_front_trials study consider_constraint = Ret front ->
  forall t, In t front ->
    In t (trials study) /\ state t = COMPLETE /\
    (consider_constraint = true ->
     forall c, dict_get (system_attrs t) _CONSTRAINTS_KEY = Some c ->
       Forall (fun x => Float.isnan x = false /\ Float.ltb (Fin 0) x = false) c).
Proof.
  intros E t I.
  assert (C : In t (candidates (trials study) consider_constraint)).
  { unfold _get_pareto_front_trials, _get_pareto_front_trials_by_trials in E.
    destruct (_ =? _)%nat.
    - exact (front_2d_sub _ _ _ _ E t I).
    - exact (front_nd_sub _ _ _ _ E t I). }
  pose proof (candidates_complete (trials study) consider_constraint) as Fc.
  rewrite Forall_forall in Fc. specialize (Fc t C).
  split; [|split; [exact Fc|]].
  - unfold candidates, _get_feasible_trials in C.
    destruct consider_constraint; [apply filter_In in C; destruct C as [C _]|];
      apply filter_In in C; tauto.
  - intros -> c Ec. unfold candidates, _get_feasible_trials in C.
    apply filter_In in C. destruct C as [_ C]. rewrite Ec in C.
    rewrite forallb_forall in C. apply Forall_forall. intros x Ix.
    specialize (C x Ix). destruct (FloatFacts.leb_nonnan _ _ C) as [Nx _].
    split; [exact Nx|].
    rewrite FloatFacts.ltb_negb_leb by auto. now rewrite C.
Qed.

Lemma front_within_candidates_witness :
  In (constrained_trial 0 [2; 2] [-1; 0])
     [constrained_trial 0 [2; 2] [-1; 0]; constrained_trial 1 [1; 1] [1]] /\
  state (constrained_trial 0 [2; 2] [-1; 0]) = COMPLETE /\
  (true = true ->
   forall c,
     dict_get (system_attrs (constrained_trial 0 [2; 2] [-1; 0])) _CONSTRAINTS_KEY = Some c ->
     Forall (fun x => Float.isnan x = false /\ Float.ltb (Fin 0) x = false) c).
Proof.
  apply (front_within_candidates
           (mk_study [constrained_trial 0 [2; 2] [-1; 0]; constrained_trial 1 [1; 1] [1]]
                     [MINIMIZE; MINIMIZE]) true
           [constrained_trial 0 [2; 2] [-1; 0]]).
  - reflexivity.
  - left. reflexivity.
Defined.

(** X18. A study without a COMPLETE record has an empty front: the
    extractors return the empty list before they look at a value or at a
    direction. *)
Theorem no_complete_record_empty_front study consider_constraint :
  Forall (fun t => state t <> COMPLETE) (trials study) ->
  _get_pareto_front_trials study consider_constraint = Ret [].
Proof.
  intros F.
  assert (E : List.filter (fun t => TrialState_eqb (state t) COMPLETE) (trials study) = []).
  { induction F as [|t l Nt F IH]; cbn; auto.
    destruct (TrialState_eqb (state t) COMPLETE) eqn:Et; auto.
    apply state_complete in Et. contradiction. }
  unfold _get_pareto_front_trials, _get_pareto_front_trials_by_trials,
    _get_pareto_front_trials_2d, _get_pareto_front_trials_nd.
  rewrite E. destruct (_ =? _)%nat, consider_constraint; reflexivity.
Qed.

Lemma no_complete_record_empty_front_witness :
  _get_pareto_front_trials
    (mk_study [mk_trial 0 RUNNING None []; mk_trial 1 FAILED None []] [MAXIMIZE]) true
  = Ret [].
Proof.
  apply (no_complete_record_empty_front
           (mk_study [mk_trial 0 RUNNING None []; mk_trial 1 FAILED None []] [MAXIMIZE]) true).
  repeat constructor; discriminate.
Defined.

(* ================================================================== *)
(** ** The state in which the ranking loop stops *)

Lemma StronglySorted_NoDup {A : Type} (R : A -> A -> Prop) (P : A -> Prop) (l : list A) :
  (forall x, P x -> ~ R x x) -> Forall P l -> StronglySorted R l -> NoDup l.
Proof.
  intros Irr F Hs. induction Hs as [|x l Hs IH Fx]; constructor.
  - intros Ix. inversion F as [|? ? Px _]; subst.
    rewrite Forall_forall in Fx. exact (Irr x Px (Fx x Ix)).
  - inversion F; auto.
Qed.

Lemma NoDup_disjoint_length (n : nat) (P I : list nat) :
  NoDup P -> NoDup I ->
  (forall p, In p P -> (p < n)%nat /\ ~ In p I) ->
  (forall k, In k I -> (k < n)%nat) ->
  (List.length P + List.length I <= n)%nat.
Proof.
  intros NP NI HP HI.
  rewrite <- length_app, <- (length_seq n 0%nat).
  apply NoDup_incl_length.
  - apply NoDup_app; auto. intros p Ip. now apply HP.
  - intros x [Ix|Ix]%in_app_or; apply in_seq; [apply HP in Ix|apply HI in Ix]; lia.
Qed.

Section StopState.

Variables (d : nat) (U : list row) (n_below : Z).
Hypothesis d_not_1 : d <> 1%nat.
Hypothesis U_good : Forall (good d) U.

Let n := List.length U.
Let nthU (k : nat) : row := nth k U [].

Lemma live_NoDup I R r : loop_inv U I R r -> NoDup I.
Proof.
  intros [B Hs _ _ _ _].
  apply (NoDup_map_inv nthU).
  apply (StronglySorted_NoDup (fun a b => row_ltb a b = true) (good d)); auto.
  - intros x Gx E. rewrite (row_ltb_irrefl x) in E. discriminate.
  - apply Forall_forall. intros x (k & <- & Ik)%in_map_iff.
    rewrite Forall_forall in B, U_good. apply U_good, nth_In, B, Ik.
Qed.

(** Before its last layer the loop had not met the budget. *)
Lemma stop_step I R r :
  loop_inv U I R r ->
  Z.of_nat n - Z.of_nat (List.length I) < n_below ->
  let fr := fun k => nondominated (map nthU I) (nthU k) in
  forall P, NoDup P ->
    (forall p, In p P ->
       (p < n)%nat /\ ~ In p (List.filter (fun k => negb (fr k)) I) /\
       nth p (np.scatter R (List.filter fr I) r) 0 < r) ->
    Z.of_nat (List.length P) < n_below.
Proof.
  intros Inv C fr P NP HP.
  pose proof (live_NoDup I R r Inv) as NI.
  destruct Inv as [B Hs L Res Clo Rk]. fold n in B, L, Res, Clo, Rk.
  assert (Out : forall p, In p P -> (p < n)%nat /\ ~ In p I).
  { intros p Ip. destruct (HP p Ip) as (Lp & N & V). split; auto.
    intros Ik. destruct (fr p) eqn:E.
    - rewrite nth_scatter_in in V; [lia| |lia]. apply filter_In; auto.
    - apply N, filter_In. now rewrite E. }
  rewrite Forall_forall in B.
  pose proof (NoDup_disjoint_length n P I NP NI Out B). lia.
Qed.

Lemma rank_loop_stop : forall fuel I R r R' I' r',
  loop_inv U I R r -> n_below <= Z.of_nat n ->
  (0 < r -> forall P, NoDup P ->
     (forall p, In p P -> (p < n)%nat /\ ~ In p I /\ nth p R 0 < r - 1) ->
     Z.of_nat (List.length P) < n_below) ->
  rank_loop fuel d n n_below (map nthU I) I R r = Ret (R', I', r') ->
  0 < r' -> forall P, NoDup P ->
    (forall p, In p P -> (p < n)%nat /\ ~ In p I' /\ nth p R' 0 < r' - 1) ->
    Z.of_nat (List.length P) < n_below.
Proof.
  induction fuel as [|fuel IH]; intros I R r R' I' r' Inv Nb St;
    rewrite rank_loop_eq;
    destruct (Z.ltb_spec (Z.of_nat n - Z.of_nat (List.length I)) n_below) as [C|C];
    try discriminate; try (intros [= <- <- <-]; exact St).
  assert (NE : I <> []) by (intros ->; cbn in C; lia).
  destruct (loop_inv_step d U d_not_1 U_good I R r Inv NE) as [Inv' _].
  pose proof (stop_step I R r Inv C) as St'.
  pose proof (inv_bound _ _ _ _ Inv) as B.
  rewrite front_correct; auto.
  2:{ apply Forall_forall. intros x (k & <- & Ik)%in_map_iff.
      rewrite Forall_forall in B, U_good. apply U_good, nth_In, B, Ik. }
  2:{ exact (inv_sorted _ _ _ _ Inv). }
  cbn [bind]. unfold front_mask.
  rewrite !map_map.
  rewrite (select_map_filter (fun k => negb (nondominated (map nthU I) (nthU k))) nthU I).
  rewrite (select_filter (fun k => negb (nondominated (map nthU I) (nthU k))) I).
  rewrite (select_filter (fun k => nondominated (map nthU I) (nthU k)) I).
  apply IH; auto.
  intros _ P NP HP. apply (St' P NP).
  intros p Ip. destruct (HP p Ip) as (Lp & N & V). repeat split; auto. lia.
Qed.

End StopState.

Section LayeredRanks.

Variables (loss_values : ndarray) (n_below : option Z).

Let d := n_objectives loss_values.
Let a := rows loss_values.
Let len := List.length a.
Let U := np.sorted_unique row_ltb row_eqb a.
Let n := List.length U.
Let order_inv := map (fun x => np.index_of row_eqb x U) a.
Let oi (i : nat) : nat := nth i order_inv O.
Let nb := Z.min (py_or n_below (Z.of_nat len)) (Z.of_nat len).

Hypothesis d_not_1 : d <> 1%nat.
Hypothesis a_good : Forall (good d) a.
Hypothesis positive : non_positive n_below = false.

Lemma order_inv_index i : (i < len)%nat -> oi i = np.index_of row_eqb (nth i a []) U.
Proof.
  intros Li. unfold oi, order_inv. now rewrite (nth_map_in _ a i O []).
Qed.

Lemma order_inv_onto p : (p < n)%nat -> exists i, (i < len)%nat /\ oi i = p.
Proof.
  intros Lp. destruct (rows_unique_onto d a p a_good Lp) as (x & Ix & Ex).
  destruct (In_nth _ _ [] Ix) as (i & Li & Ei).
  exists i. split; auto. rewrite order_inv_index by auto. now rewrite Ei.
Qed.

Lemma order_inv_eqb i j :
  (i < len)%nat -> (j < len)%nat ->
  row_eqb (nth i a []) (nth j a []) = true <-> oi i = oi j.
Proof.
  intros Li Lj. split.
  - intros E. rewrite !order_inv_index by auto.
    apply index_of_compat;
      [exact row_eqb_sym_any | exact row_eqb_trans_any | exact E].
  - intros E.
    destruct (order_inv_bound loss_values a_good i Li) as [_ Ei].
    destruct (order_inv_bound loss_values a_good j Lj) as [_ Ej].
    fold a U order_inv in Ei, Ej. fold (oi i) in Ei. fold (oi j) in Ej.
    rewrite E in Ei. rewrite row_eqb_sym_any in Ej.
    exact (row_eqb_trans_any _ _ _ Ei Ej).
Qed.

(** Distinct vectors can be picked for distinct positions of the
    deduplicated array. *)
Lemma pick_positions : forall S, NoDup S -> (forall p, In p S -> (p < n)%nat) ->
  exists L, List.length L = List.length S /\
    (forall i, In i L -> (i < len)%nat /\ In (oi i) S) /\
    ForallOrdPairs (fun i j => row_eqb (nth i a []) (nth j a []) = false) L.
Proof.
  induction S as [|p S IH]; intros ND B.
  - exists []. split; [reflexivity|]. split; [intros i []|constructor].
  - inversion ND as [|? ? Np ND']; subst.
    destruct IH as (L & Ln & HL & FP); auto. { intros q Iq. apply B. now right. }
    destruct (order_inv_onto p) as (i & Li & Ei). { apply B. now left. }
    exists (i :: L). split; [cbn; now rewrite Ln|]. split.
    + intros j [<-|Ij]; [split; auto; left; auto|].
      destruct (HL j Ij). split; auto. now right.
    + constructor; auto. apply Forall_forall. intros j Ij.
      destruct (HL j Ij) as [Lj Sj].
      destruct (row_eqb (nth i a []) (nth j a [])) eqn:E; auto.
      apply order_inv_eqb in E; auto. exfalso. apply Np. congruence.
Qed.

Lemma distinct_positions_NoDup : forall L,
  distinct_positions a L -> NoDup (map oi L).
Proof.
  intros L [B FP]. induction FP as [|i L Fi FP IH]; cbn; constructor.
  - intros (j & Ej & Ij)%in_map_iff.
    inversion B as [|? ? Li BL]; subst.
    rewrite Forall_forall in Fi, BL. specialize (Fi j Ij).
    assert (E : row_eqb (nth i a []) (nth j a []) = true).
    { apply order_inv_eqb; auto. }
    congruence.
  - apply IH. inversion B; auto.
Qed.

(** The ranks a call returns with two objectives or more, and the rank
    [r] at which its loop stopped. *)
Lemma layered_ranks_spec fuel :
  nb <= Z.of_nat n -> (Z.to_nat nb <= fuel)%nat ->
  exists ranks r,
    _calculate_nondomination_rank fuel loss_values n_below = Ret ranks /\
    List.length ranks = len /\
    0 <= r <= Z.max 0 nb /\
    Forall (fun x => 0 <= x <= r) ranks /\
    (forall i j, (i < len)%nat -> (j < len)%nat ->
       dominates (nth i a []) (nth j a []) = true ->
       nth j ranks 0 < r -> nth i ranks 0 < nth j ranks 0) /\
    (forall i, (i < len)%nat -> 0 < nth i ranks 0 ->
       exists j, (j < len)%nat /\ dominates (nth j a []) (nth i a []) = true /\
                 nth j ranks 0 = nth i ranks 0 - 1) /\
    nb <= Z.of_nat (resolved_below r ranks) /\
    (exists L, distinct_positions a L /\
       (forall i, In i L -> nth i ranks 0 < r) /\ nb <= Z.of_nat (List.length L)) /\
    (0 < r -> forall L, distinct_positions a L ->
       (forall i, In i L -> nth i ranks 0 < r - 1) -> Z.of_nat (List.length L) < nb).
Proof.
  intros Nb Fu.
  assert (Ug : Forall (good d) U) by now apply rows_unique_good.
  assert (Us : lexsorted_unique U) by now apply (rows_unique_sorted d).
  pose proof (loop_inv_init d U d_not_1 Us) as Inv0. fold n in Inv0.
  destruct (rank_loop_total d U nb d_not_1 Ug fuel (seq 0 n) (repeat 0 n) 0)
    as (I & R & r & E & Inv & Met & Rb); auto.
  { lia. }
  { rewrite length_seq. fold n. lia. }
  fold n in E, Met.
  destruct (rank_loop_layers d U nb d_not_1 Ug fuel (seq 0 n) (repeat 0 n) 0 R I r)
    as (_ & Lay & _); auto.
  { now apply (layer_inv_init d). }
  pose proof (rank_loop_stop d U nb d_not_1 Ug fuel (seq 0 n) (repeat 0 n) 0 R I r
                Inv0 Nb) as Stop.
  fold n in Stop. specialize (Stop ltac:(intros; lia) E).
  assert (Ec : _calculate_nondomination_rank fuel loss_values n_below
               = Ret (np.take 0 (np.scatter R I r) order_inv)).
  { unfold _calculate_nondomination_rank. rewrite positive.
    fold d. destruct (Nat.eqb_spec d 1); [contradiction|].
    unfold np.unique, np.arange. fold a U n len nb.
    unfold n in E. rewrite map_nth_seq in E. fold n in E.
    rewrite E. reflexivity. }
  set (Rf := np.scatter R I r) in *.
  set (ranks := np.take 0 Rf order_inv) in *.
  assert (Fin : forall p, (p < n)%nat ->
            (~ In p I /\ 0 <= nth p Rf 0 < r /\ nth p Rf 0 = nth p R 0) \/
            (In p I /\ nth p Rf 0 = r)).
  { intros p Lp. apply (final_ranks d U d_not_1 I R r p Inv Lp). }
  assert (Oi : forall i, (i < len)%nat ->
            (oi i < n)%nat /\ row_eqb (nth i a []) (nth (oi i) U []) = true).
  { intros i Li. apply (order_inv_bound loss_values a_good i Li). }
  assert (Tk : forall i, (i < len)%nat -> nth i ranks 0 = nth (oi i) Rf 0).
  { intros i Li. apply (nth_take loss_values Rf i Li). }
  pose proof (inv_rank _ _ _ _ Inv) as [R0 _].
  pose proof a_good as G. rewrite Forall_forall in G.
  pose proof Ug as GU. rewrite Forall_forall in GU.
  assert (Ln : List.length ranks = len).
  { unfold ranks, np.take, order_inv. now rewrite !length_map. }
  assert (All : forall i, (i < len)%nat -> 0 <= nth i ranks 0 <= r).
  { intros i Li. rewrite Tk by auto. destruct (Oi i Li) as [B _].
    destruct (Fin _ B) as [(_ & V & _)|[_ V]]; lia. }
  exists ranks, r. split; [exact Ec|]. split; [exact Ln|]. split; [lia|].
  split; [|split; [|split; [|split; [|split]]]].
  - apply Forall_forall. intros x Ix.
    destruct (In_nth _ _ 0 Ix) as (i & Li & <-). apply All. now rewrite <- Ln.
  - intros i j Li Lj Dij Vj. rewrite !Tk in * by auto.
    destruct (Oi i Li) as [Bi Ei]. destruct (Oi j Lj) as [Bj Ej].
    assert (DU : dominates (nth (oi i) U []) (nth (oi j) U []) = true).
    { eapply (dominates_compat d); [| | | | exact Ei | exact Ej | exact Dij];
        auto using nth_In. }
    destruct (Fin _ Bj) as [(N & V & Eq)|[Y V]]; [|lia].
    destruct (inv_closed _ _ _ _ Inv _ _ Bi Bj N DU) as [Ni Lt].
    destruct (Fin _ Bi) as [(_ & _ & Eq')|[Y _]]; [|contradiction]. lia.
  - intros i Li P. rewrite Tk in * by auto. destruct (Oi i Li) as [Bi Ei].
    assert (X : exists q, (q < n)%nat /\ ~ In q I /\
                  dominates (nth q U []) (nth (oi i) U []) = true /\
                  nth q R 0 = nth (oi i) Rf 0 - 1).
    { destruct (Fin _ Bi) as [(N & V & Eq)|[Y V]].
      - rewrite Eq in *. now apply (lay_resolved _ _ _ _ Lay).
      - rewrite V in *. now apply (lay_live _ _ _ _ Lay). }
    destruct X as (q & Lq & Nq & Dq & Eq).
    destruct (order_inv_onto q Lq) as (j & Lj & Ej). exists j. split; auto.
    destruct (Oi j Lj) as [Bj Ejj]. rewrite Ej in Ejj.
    split.
    + eapply (dominates_compat d); [| | | | | | exact Dq]; auto using nth_In.
      * now rewrite row_eqb_sym_any.
      * now rewrite row_eqb_sym_any.
    + rewrite Tk, Ej by auto.
      destruct (Fin _ Lq) as [(_ & _ & V)|[Y _]]; [|contradiction]. lia.
  - unfold resolved_below, ranks, np.take, order_inv. rewrite map_map.
    rewrite filter_map_length.
    rewrite (filter_ext_in _
      (fun x => if in_dec Nat.eq_dec (np.index_of row_eqb x U) I then false else true)).
    + pose proof (resolved_rows_count loss_values d_not_1 a_good I) as X.
      fold a U n in X. lia.
    + intros x Ix.
      destruct (rows_unique_position d a x a_good Ix) as [B _]. fold U n in B.
      destruct (Fin _ B) as [(N & V & _)|[Y V]];
        destruct (in_dec Nat.eq_dec (np.index_of row_eqb x U) I); try contradiction.
      * apply Z.ltb_lt. lia.
      * apply Z.ltb_ge. lia.
  - set (out := fun u => if in_dec Nat.eq_dec u I then false else true).
    destruct (pick_positions (List.filter out (seq 0 n))) as (L & LnL & HL & FP).
    { apply NoDup_filter, seq_NoDup. }
    { intros p [Ip _]%filter_In. apply in_seq in Ip. lia. }
    exists L. split; [|split].
    + split; auto. apply Forall_forall. intros i Ii. now apply HL.
    + intros i Ii. destruct (HL i Ii) as [Li [Ip Op]%filter_In].
      rewrite Tk by auto. apply in_seq in Ip. unfold out in Op.
      destruct (in_dec Nat.eq_dec (oi i) I); [discriminate|].
      destruct (Fin (oi i)) as [(_ & V & _)|[Y _]]; [lia| |contradiction]. lia.
    + rewrite LnL.
      pose proof (filter_length out (seq 0 n)) as X. rewrite length_seq in X.
      assert ((List.length (List.filter (fun x => negb (out x)) (seq 0 n))
               <= List.length I)%nat); [|lia].
      apply NoDup_incl_length; [apply NoDup_filter, seq_NoDup|].
      intros u [_ Hu]%filter_In. unfold out in Hu.
      destruct (in_dec Nat.eq_dec u I); auto. discriminate.
  - intros Pr L DP HL.
    rewrite <- (length_map oi L).
    apply (Stop Pr (map oi L)).
    + now apply distinct_positions_NoDup.
    + intros p (i & <- & Ii)%in_map_iff.
      destruct DP as [B _]. rewrite Forall_forall in B. specialize (B i Ii). fold len in B.
      specialize (HL i Ii). rewrite Tk in HL by auto.
      destruct (Oi i B) as [Bi _]. split; auto.
      destruct (Fin _ Bi) as [(N & V & Eq)|[Y V]]; [split; auto; lia|lia].
Qed.

End LayeredRanks.

Lemma filter_all {A : Type} (f : A -> bool) (l : list A) :
  (List.length l <= List.length (List.filter f l))%nat ->
  forall x, In x l -> f x = true.
Proof.
  induction l as [|y l IH]; cbn; intros Ln x Ix; [destruct Ix|].
  pose proof (filter_length_le f l) as Le.
  destruct (f y) eqn:E; cbn in Ln; [|lia].
  destruct Ix as [<-|Ix]; auto. apply IH; auto. lia.
Qed.

(* ================================================================== *)
(** ** The properties of the rank calculator *)

(** C7, amended: for NaN-free vectors and a budget that is absent or
    positive and, with two objectives or more, not above the number of
    distinct vectors once clipped, [_calculate_nondomination_rank] returns
    ranks in which a vector that dominates another has the strictly
    smaller rank, unless both lie beyond the budget: then both hold the
    catch-all rank, the largest of all, below which at least as many
    records as the clipped budget are ranked.  With one objective, or with
    [n_below] None or at least [len(loss_values)], there is no exception:
    the ranks are strictly monotone. *)
Theorem rank_dominance_monotone loss_values n_below fuel :
  Forall (good (n_objectives loss_values)) (rows loss_values) ->
  non_positive n_below = false ->
  (n_objectives loss_values = 1%nat \/
   clipped_budget loss_values n_below <= Z.of_nat (distinct_rows loss_values)) ->
  (Z.to_nat (clipped_budget loss_values n_below) <= fuel)%nat ->
  exists ranks,
    _calculate_nondomination_rank fuel loss_values n_below = Ret ranks /\
    List.length ranks = List.length (rows loss_values) /\
    (forall i j,
       (i < List.length (rows loss_values))%nat ->
       (j < List.length (rows loss_values))%nat ->
       dominates (nth i (rows loss_values) []) (nth j (rows loss_values) []) = true ->
       nth i ranks 0 < nth j ranks 0 \/
       (nth i ranks 0 = nth j ranks 0 /\
        n_objectives loss_values <> 1%nat /\
        Forall (fun x => x <= nth j ranks 0) ranks /\
        clipped_budget loss_values n_below
        <= Z.of_nat (resolved_below (nth j ranks 0) ranks))) /\
    ((n_objectives loss_values = 1%nat \/ n_below = None \/
      exists k, n_below = Some k /\ Z.of_nat (List.length (rows loss_values)) <= k) ->
     forall i j,
       (i < List.length (rows loss_values))%nat ->
       (j < List.length (rows loss_values))%nat ->
       dominates (nth i (rows loss_values) []) (nth j (rows loss_values) []) = true ->
       nth i ranks 0 < nth j ranks 0).
Proof.
  intros G P B Fu.
  destruct (Nat.eq_dec (n_objectives loss_values) 1) as [D|D].
  { destruct (dense_rank_monotone loss_values n_below G P fuel D) as (ranks & E & Ln & Mo).
    exists ranks. repeat split; auto. }
  destruct B as [|B]; [contradiction|].
  unfold clipped_budget, distinct_rows in *.
  destruct (layered_ranks_spec loss_values n_below D G P fuel B Fu)
    as (ranks & r & E & Ln & Rr & All & Strict & _ & Cnt & _ & _).
  assert (Le : forall i, (i < List.length (rows loss_values))%nat -> nth i ranks 0 <= r).
  { intros i Li. rewrite Forall_forall in All. apply All, nth_In. now rewrite Ln. }
  exists ranks. split; [exact E|]. split; [exact Ln|]. split.
  - intros i j Li Lj Dij.
    destruct (Z.lt_ge_cases (nth j ranks 0) r) as [Vj|Vj].
    { left. now apply Strict. }
    pose proof (Le i Li). pose proof (Le j Lj).
    assert (Ej : nth j ranks 0 = r) by lia. rewrite Ej.
    destruct (Z.lt_ge_cases (nth i ranks 0) r); [left; lia|right].
    split; [lia|]. split; [exact D|]. split; [|exact Cnt].
    eapply Forall_impl; [|exact All]. cbn. intros; lia.
  - intros [|Un] i j Li Lj Dij; [contradiction|].
    apply Strict; auto.
    assert (Nb : Z.min (py_or n_below (Z.of_nat (List.length (rows loss_values))))
                       (Z.of_nat (List.length (rows loss_values)))
                 = Z.of_nat (List.length (rows loss_values))).
    { destruct Un as [->|(k & -> & Lk)]; cbn; [lia|].
      cbn in P. apply Z.leb_gt in P. destruct (Z.eqb_spec k 0); lia. }
    rewrite Nb in Cnt. unfold resolved_below in Cnt.
    apply Z.ltb_lt.
    apply (filter_all (fun x => x <? r) ranks); [lia|].
    apply nth_In. now rewrite Ln.
Qed.

Lemma rank_dominance_monotone_witness :
  exists ranks,
    _calculate_nondomination_rank 2 line3 (Some 2) = Ret ranks /\
    List.length ranks = List.length (rows line3) /\
    (forall i j,
       (i < List.length (rows line3))%nat ->
       (j < List.length (rows line3))%nat ->
       dominates (nth i (rows line3) []) (nth j (rows line3) []) = true ->
       nth i ranks 0 < nth j ranks 0 \/
       (nth i ranks 0 = nth j ranks 0 /\
        n_objectives line3 <> 1%nat /\
        Forall (fun x => x <= nth j ranks 0) ranks /\
        clipped_budget line3 (Some 2)
        <= Z.of_nat (resolved_below (nth j ranks 0) ranks))) /\
    ((n_objectives line3 = 1%nat \/ Some 2 = None \/
      exists k, Some 2 = Some k /\ Z.of_nat (List.length (rows line3)) <= k) ->
     forall i j,
       (i < List.length (rows line3))%nat ->
       (j < List.length (rows line3))%nat ->
       dominates (nth i (rows line3) []) (nth j (rows line3) []) = true ->
       nth i ranks 0 < nth j ranks 0).
Proof.
  apply (rank_dominance_monotone line3 (Some 2) 2).
  - repeat constructor.
  - reflexivity.
  - left. reflexivity.
  - vm_compute. lia.
Defined.

(** C8, amended: with two objectives or more, NaN-free vectors, a positive
    budget [k] and [min(k, len(loss_values))] not above the number of
    distinct vectors, [_calculate_nondomination_rank] returns ranks with a
    catch-all rank [r <= min(k, len(loss_values))], the rank at which the
    loop stopped: every rank lies between 0 and [r], at most [k] distinct
    ranks lie below [r], and every record that is not ranked below [r] has
    the rank [r].  The ranks below [r] are the layers: a record ranked
    below [r] has a larger rank than every record that dominates it, and a
    record of positive rank is dominated by a record of the rank just
    below.  [r] is the first rank at which the budget is met: at least
    [min(k, len(loss_values))] pairwise different vectors (hence at least
    as many records) are ranked below [r], and fewer are ranked below
    [r - 1]. *)
Theorem budget_bounds_layers loss_values k fuel :
  (2 <= n_objectives loss_values)%nat ->
  Forall (good (n_objectives loss_values)) (rows loss_values) ->
  0 < k ->
  Z.min k (Z.of_nat (List.length (rows loss_values)))
  <= Z.of_nat (List.length (np.sorted_unique row_ltb row_eqb (rows loss_values))) ->
  (Z.to_nat (Z.min k (Z.of_nat (List.length (rows loss_values)))) <= fuel)%nat ->
  exists ranks r,
    _calculate_nondomination_rank fuel loss_values (Some k) = Ret ranks /\
    List.length ranks = List.length (rows loss_values) /\
    0 <= r <= Z.min k (Z.of_nat (List.length (rows loss_values))) /\
    Forall (fun x => 0 <= x <= r) ranks /\
    (layers_below r ranks <= Z.to_nat k)%nat /\
    Z.min k (Z.of_nat (List.length (rows loss_values)))
    <= Z.of_nat (resolved_below r ranks) /\
    (forall i j,
       (i < List.length (rows loss_values))%nat ->
       (j < List.length (rows loss_values))%nat ->
       dominates (nth i (rows loss_values) []) (nth j (rows loss_values) []) = true ->
       nth j ranks 0 < r -> nth i ranks 0 < nth j ranks 0) /\
    (forall i, (i < List.length (rows loss_values))%nat -> 0 < nth i ranks 0 ->
       exists j, (j < List.length (rows loss_values))%nat /\
         dominates (nth j (rows loss_values) []) (nth i (rows loss_values) []) = true /\
         nth j ranks 0 = nth i ranks 0 - 1) /\
    (exists L, distinct_positions (rows loss_values) L /\
       (forall i, In i L -> nth i ranks 0 < r) /\
       Z.min k (Z.of_nat (List.length (rows loss_values))) <= Z.of_nat (List.length L)) /\
    (0 < r -> forall L, distinct_positions (rows loss_values) L ->
       (forall i, In i L -> nth i ranks 0 < r - 1) ->
       Z.of_nat (List.length L) < Z.min k (Z.of_nat (List.length (rows loss_values)))).
Proof.
  intros D G K Nb Fu.
  assert (Pk : non_positive (Some k) = false) by (cbn; apply Z.leb_gt; lia).
  assert (Ek : py_or (Some k) (Z.of_nat (List.length (rows loss_values))) = k).
  { cbn. destruct (Z.eqb_spec k 0); lia. }
  assert (D1 : n_objectives loss_values <> 1%nat) by lia.
  destruct (layered_ranks_spec loss_values (Some k) D1 G Pk fuel)
    as (ranks & r & E & Ln & Rr & All & Strict & Par & Cnt & Low & Up);
    rewrite ?Ek; auto.
  rewrite Ek in *.
  exists ranks, r.
  split; [exact E|]. split; [exact Ln|]. split; [lia|]. split; [exact All|].
  split; [|split; [exact Cnt|split; [exact Strict|split; [exact Par|split;
    [exact Low|exact Up]]]]].
  etransitivity; [apply layers_below_le|].
  - eapply Forall_impl; [|exact All]. cbn. intros; lia.
  - lia.
  - lia.
Qed.

Lemma budget_bounds_layers_witness :
  exists ranks r,
    _calculate_nondomination_rank 2 chain3 (Some 2) = Ret ranks /\
    List.length ranks = List.length (rows chain3) /\
    0 <= r <= Z.min 2 (Z.of_nat (List.length (rows chain3))) /\
    Forall (fun x => 0 <= x <= r) ranks /\
    (layers_below r ranks <= Z.to_nat 2)%nat /\
    Z.min 2 (Z.of_nat (List.length (rows chain3)))
    <= Z.of_nat (resolved_below r ranks) /\
    (forall i j,
       (i < List.length (rows chain3))%nat ->
       (j < List.length (rows chain3))%nat ->
       dominates (nth i (rows chain3) []) (nth j (rows chain3) []) = true ->
       nth j ranks 0 < r -> nth i ranks 0 < nth j ranks 0) /\
    (forall i, (i < List.length (rows chain3))%nat -> 0 < nth i ranks 0 ->
       exists j, (j < List.length (rows chain3))%nat /\
         dominates (nth j (rows chain3) []) (nth i (rows chain3) []) = true /\
         nth j ranks 0 = nth i ranks 0 - 1) /\
    (exists L, distinct_positions (rows chain3) L /\
       (forall i, In i L -> nth i ranks 0 < r) /\
       Z.min 2 (Z.of_nat (List.length (rows chain3))) <= Z.of_nat (List.length L)) /\
    (0 < r -> forall L, distinct_positions (rows chain3) L ->
       (forall i, In i L -> nth i ranks 0 < r - 1) ->
       Z.of_nat (List.length L) < Z.min 2 (Z.of_nat (List.length (rows chain3)))).
Proof.
  apply (budget_bounds_layers chain3 2 2).
  - cbn. lia.
  - exact chain3_good.
  - lia.
  - vm_compute. discriminate.
  - vm_compute. lia.
Defined.

(* ================================================================== *)
(** ** Further properties: the guard of the constrained orchestrator *)

(** X20. With penalties for two records or more the guard
    [if is_infeasible > 0] raises ValueError as soon as the feasible records
    are ranked: that is the outcome whenever their vectors are NaN-free
    and their ranking ends (one objective, or a clipped budget not above
    the number of distinct feasible vectors). *)
Theorem penalty_path_raises et fuel loss_values penalty n_below :
  List.length penalty = List.length (rows loss_values) ->
  (2 <= List.length penalty)%nat ->
  Forall (good (n_objectives loss_values)) (rows (feasible_part loss_values penalty)) ->
  (n_objectives loss_values = 1%nat \/
   clipped_budget (feasible_part loss_values penalty)
     (Some (py_or n_below (Z.of_nat (List.length (rows loss_values)))))
   <= Z.of_nat (distinct_rows (feasible_part loss_values penalty))) ->
  (Z.to_nat
     (clipped_budget (feasible_part loss_values penalty)
        (Some (py_or n_below (Z.of_nat (List.length (rows loss_values))))))
   <= fuel)%nat ->
  _fast_non_dominated_sort et fuel loss_values (Some penalty) n_below = Raise ValueError.
Proof.
  intros L Two G B Fu.
  set (budget := Some (py_or n_below (Z.of_nat (List.length (rows loss_values))))) in *.
  assert (E : exists fr,
    _calculate_nondomination_rank fuel (feasible_part loss_values penalty) budget = Ret fr).
  { destruct (non_positive budget) eqn:P.
    - unfold _calculate_nondomination_rank. rewrite P. eauto.
    - destruct (calculate_rank_structure fuel (feasible_part loss_values penalty) budget)
        as (fr & E & _); eauto. }
  destruct E as (fr & E).
  unfold _fast_non_dominated_sort. rewrite L, Nat.eqb_refl. cbn [negb].
  fold (feasible_mask penalty). fold (feasible_part loss_values penalty). fold budget.
  rewrite E. cbn [bind].
  match goal with |- context [np.truth et ?m] =>
    assert (T : np.truth et m = Raise ValueError)
  end.
  { apply truth_of_many. rewrite length_map, length_map2; rewrite !length_map; auto. }
  rewrite T. reflexivity.
Qed.

Lemma penalty_path_raises_witness :
  _fast_non_dominated_sort (Ret false) 3 scenario_C_values (Some scenario_C_penalty) None
  = Raise ValueError.
Proof.
  apply (penalty_path_raises (Ret false) 3 scenario_C_values scenario_C_penalty None).
  - reflexivity.
  - cbn. lia.
  - repeat constructor.
  - right. vm_compute. discriminate.
  - vm_compute. lia.
Defined.
